(** * 3dQwarp: the orchestration layer of the nonlinear warping program

    A shallow embedding of [src/3dQwarp.c] (function [main], with
    [mri_weightize], [Qallineate] and [Qallin_resample]) and the
    properties of its configuration, padding, weight and output logic.

    Conventions of the embedding:
    - C [int] variables are integers in [Z]; the arithmetic on the pad
      amounts and on the minimum patch size, whose operands come from the
      command line, wraps around at 32 bits ([wrap]);
    - C [float] is IEEE binary32 and C [double] is IEEE binary64, both taken
      from the executable specification of the Standard Library
      ([SpecFloat]), so every rounding of the source is present;
    - [char *] is [string], a nullable pointer is an [option];
    - messages on stderr, the file system and the calls that leave the
      program (subprocess, optimizer, dataset output) are recorded in an
      explicit [world] threaded by a small monad. *)

From Stdlib Require Import ZArith List Bool Ascii String Lia SpecFloat.
From stdpp Require Import base option list strings gmap.

Open Scope Z_scope.

(** ** Floating point *)

Module F32.
Definition prec : Z := 24.
Definition emax : Z := 128.
Definition float := spec_float.

Definition of_Z (z : Z) : float := binary_normalize prec emax z 0 false.
Definition zero : float := S754_zero false.
Definition one : float := of_Z 1.
Definition mul : float -> float -> float := SFmul prec emax.
Definition div : float -> float -> float := SFdiv prec emax.
Definition ltb : float -> float -> bool := SFltb.
Definition leb : float -> float -> bool := SFleb.
Definition eqb : float -> float -> bool := SFeqb.
Definition abs : float -> float := SFabs.

(** A decimal literal [n/d] written in the source ([0.33f] is
    [lit 33 100]): numerator and denominator are exact in binary32, so
    the correctly rounded quotient is the value of the literal. *)
Definition lit (n d : Z) : float := div (of_Z n) (of_Z d).

(** [(float)x] for a [double] x. *)
Definition of_double (x : spec_float) : float :=
  match x with
  | S754_finite s m e => binary_round prec emax s m e
  | _ => x
  end.
End F32.

Module F64.
Definition prec : Z := 53.
Definition emax : Z := 1024.
Definition float := spec_float.

Definition of_Z (z : Z) : float := binary_normalize prec emax z 0 false.
Definition zero : float := S754_zero false.
Definition mul : float -> float -> float := SFmul prec emax.
Definition div : float -> float -> float := SFdiv prec emax.
Definition add : float -> float -> float := SFadd prec emax.
Definition ltb : float -> float -> bool := SFltb.
Definition leb : float -> float -> bool := SFleb.
Definition lit (n d : Z) : float := div (of_Z n) (of_Z d).
End F64.

(** The value of a cast to [int] is only defined by C inside the [int]
    range; outside it (and for NaN and the infinities) the model returns
    what the x86 conversion instruction returns, [INT_MIN]. *)
Definition INT_MIN : Z := - 2 ^ 31.

Definition c_int (z : Z) : Z :=
  if (INT_MIN <=? z) && (z <? 2 ^ 31) then z else INT_MIN.

(** The result of [+], [-] or [*] on [int]: the machine keeps the low 32
    bits of the exact result, in two's complement. *)
Definition wrap (z : Z) : Z := (z + 2 ^ 31) mod 2 ^ 32 - 2 ^ 31.

(** [(int)x]: truncation toward zero. *)
Definition int_of_float (x : spec_float) : Z :=
  match x with
  | S754_zero _ => 0
  | S754_finite s m e =>
      let a := if 0 <=? e then Zpos m * 2 ^ e else Zpos m / 2 ^ (- e) in
      c_int (if s then - a else a)
  | _ => INT_MIN
  end.

(** [(int)rintf(x)]: the nearest integer, ties to even. *)
Definition int_of_rintf (x : spec_float) : Z :=
  match x with
  | S754_zero _ => 0
  | S754_finite s m e =>
      let a :=
        if 0 <=? e then Zpos m * 2 ^ e
        else
          let d := 2 ^ (- e) in
          let q := Zpos m / d in
          let r := Zpos m mod d in
          match 2 * r ?= d with
          | Lt => q
          | Gt => q + 1
          | Eq => if Z.even q then q else q + 1
          end in
      c_int (if s then - a else a)
  | _ => INT_MIN
  end.

(** ** C strings *)

Definition tolower (c : ascii) : ascii :=
  let n := nat_of_ascii c in
  if (Nat.leb 65 n && Nat.leb n 90)%bool then ascii_of_nat (n + 32) else c.

Fixpoint strlower (s : string) : string :=
  match s with
  | EmptyString => EmptyString
  | String c r => String (tolower c) (strlower r)
  end.

(** [strcmp(a,b) == 0] *)
Definition streq (a b : string) : bool := String.eqb a b.

(** [strcasecmp(a,b) == 0] *)
Definition strcaseeq (a b : string) : bool :=
  String.eqb (strlower a) (strlower b).

(** [strncasecmp(a,b,n) == 0] *)
Definition strncaseeq (a b : string) (n : nat) : bool :=
  String.eqb (strlower (substring 0 n a)) (strlower (substring 0 n b)).

(** [s + n] for a pointer into a string (the empty string at and past the
    terminator). *)
Fixpoint strdrop (n : nat) (s : string) : string :=
  match n, s with
  | O, _ => s
  | S n', String _ r => strdrop n' r
  | S _, EmptyString => EmptyString
  end.

(** [s[n]]; the terminator is the character 0. *)
Definition strat (s : string) (n : nat) : ascii :=
  match String.get n s with Some c => c | None => zero end.

Definition isdigit (c : ascii) : bool :=
  let n := nat_of_ascii c in (Nat.leb 48 n && Nat.leb n 57)%bool.

Definition isalpha (c : ascii) : bool :=
  let n := nat_of_ascii c in
  ((Nat.leb 65 n && Nat.leb n 90) || (Nat.leb 97 n && Nat.leb n 122))%bool.

(** Modelled from the spec: the macro [isnumeric] of mrilib.h is not part of
    the sources at hand; a character that can start a number. *)
Definition isnumeric (c : ascii) : bool :=
  (isdigit c || Ascii.eqb c "-" || Ascii.eqb c "+" || Ascii.eqb c ".")%bool.

(** [strstr(s,pat)], as the suffix of [s] that starts at the first match. *)
Fixpoint strstr (s pat : string) : option string :=
  if String.prefix pat s then Some s
  else match s with
       | EmptyString => None
       | String _ r => strstr r pat
       end.

(** [strchr(s,c)] *)
Fixpoint strchr (s : string) (c : ascii) : option string :=
  match s with
  | EmptyString => None
  | String d r => if Ascii.eqb c d then Some s else strchr r c
  end.

(** The macro [STRING_HAS_SUFFIX]. *)
Definition STRING_HAS_SUFFIX (s suf : string) : bool :=
  let n := String.length s in
  let m := String.length suf in
  (Nat.leb m n && String.eqb (strdrop (n - m) s) suf)%bool.

(** [*ns = '\0'] for [ns = strstr(s,pat)]: cut [s] at the first match. *)
Fixpoint strcut (s pat : string) : string :=
  if String.prefix pat s then EmptyString
  else match s with
       | EmptyString => EmptyString
       | String c r => String c (strcut r pat)
       end.

(** ** Images, datasets and warps *)

(** [MRI_IMAGE] of kind [MRI_float]: voxel (i,j,k) is [far[i + j*nx + k*nx*ny]]. *)
Record MRI_IMAGE := mkIm {
  im_nx : Z; im_ny : Z; im_nz : Z;
  far : list F32.float
}.

Definition im_nvox (im : MRI_IMAGE) : Z := Z.of_nat (length (far im)).

(** The part of [THD_3dim_dataset] that the program looks at: the grid, the
    voxel sizes, the sub-bricks (as floats), the ID code, the name, and
    whether the bricks can be read from disk. *)
Record THD_3dim_dataset := mkDset {
  DSET_NX : Z; DSET_NY : Z; DSET_NZ : Z;
  DSET_DX : F32.float; DSET_DY : F32.float; DSET_DZ : F32.float;
  DSET_bricks : list (list F32.float);
  DSET_idcode : string;
  DSET_HEADNAME : string;
  DSET_loadable : bool
}.

Definition DSET_NVALS (d : THD_3dim_dataset) : Z := Z.of_nat (length (DSET_bricks d)).
Definition DSET_NVOX (d : THD_3dim_dataset) : Z := DSET_NX d * DSET_NY d * DSET_NZ d.

(** [THD_extract_float_brick(iv,dset)] *)
Definition THD_extract_float_brick (iv : nat) (d : THD_3dim_dataset) : MRI_IMAGE :=
  mkIm (DSET_NX d) (DSET_NY d) (DSET_NZ d) (default [] (DSET_bricks d !! iv)).

(** [IndexWarp3D]: three displacement volumes on a grid, and the dataset
    that the warp adopted for its geometry. *)
Record IndexWarp3D := mkWarp {
  iw_nx : Z; iw_ny : Z; iw_nz : Z;
  iw_xd : list F32.float; iw_yd : list F32.float; iw_zd : list F32.float;
  iw_geom : option (Z * Z * Z)
}.

Record Image_plus_Warp := mkIW { iw_im : MRI_IMAGE; iw_warp : IndexWarp3D }.

(** What a file on disk holds. *)
Inductive file :=
| FDataset (d : THD_3dim_dataset)
| F1D (v : list F32.float)
| FOther.

(** ** The variables of [main] and the global variables it sets *)

Inductive ivar :=
| nevox | meth | meth_is_lpc | ilev | nowarp | nowarpi | mlev | nodset
| duplo | qsave | minpatch | nx | ny | nz | nnn | noneg
| do_allin | do_resam | keep_allin | flags | nbad | do_plusminus
| zeropad | pad_xm | pad_xp | pad_ym | pad_yp | pad_zm | pad_zp
| nxold | nyold | nzold | zeropad_warp | expad | minpad
| iwpad_xm | iwpad_xp | iwpad_ym | iwpad_yp | iwpad_zm | iwpad_zp
| Hverb | Hworkhard1 | Hworkhard2 | Hsuperhard1 | Hsuperhard2
| Hzeasy | Hznoq | Hqfinal | Hqonly | Hpen_old | Hngmin
| auto_weight | auto_dilation | S2BIM_ilev | S2BIM_mlev.

Inductive fvar :=
| bmin | smin | dx | dy | dz | dxal | dyal | dzal
| Hblur_b | Hblur_s | Hpen_fac | Hpen_cut
| auto_wclip | auto_wpow.

Inductive svar :=
| prefix | prefix_clean | plusname | minusname
| bsname | ssname | esname | iwname | allopt | Qunstr.

Inductive dvar := bset | sset | sstrue | iwset | adset.

Inductive mvar := bim | wbim | sim.

Inductive wvar := oiw | qiw.

#[global] Instance ivar_eq_dec : EqDecision ivar.
Proof. solve_decision. Defined.
#[global] Instance fvar_eq_dec : EqDecision fvar.
Proof. solve_decision. Defined.
#[global] Instance svar_eq_dec : EqDecision svar.
Proof. solve_decision. Defined.
#[global] Instance dvar_eq_dec : EqDecision dvar.
Proof. solve_decision. Defined.
#[global] Instance mvar_eq_dec : EqDecision mvar.
Proof. solve_decision. Defined.
#[global] Instance wvar_eq_dec : EqDecision wvar.
Proof. solve_decision. Defined.

(** Assignment to one variable of a store. *)
Definition upd {K V : Type} `{EqDecision K} (x : K) (v : V) (f : K -> V) : K -> V :=
  fun y => if decide (x = y) then v else f y.

Record state := mkState {
  ints  : ivar -> Z;
  flts  : fvar -> spec_float;
  strs  : svar -> option string;
  dsets : dvar -> option THD_3dim_dataset;
  imgs  : mvar -> option MRI_IMAGE;
  ipws  : wvar -> option Image_plus_Warp;
  Hemask : option (list bool);
  S2BIM_iwarp : option IndexWarp3D;
  allin_matrix : list F32.float
}.

Definition seti (x : ivar) (v : Z) (s : state) : state :=
  mkState (upd x v (ints s)) (flts s) (strs s) (dsets s) (imgs s) (ipws s)
          (Hemask s) (S2BIM_iwarp s) (allin_matrix s).
Definition setf (x : fvar) (v : spec_float) (s : state) : state :=
  mkState (ints s) (upd x v (flts s)) (strs s) (dsets s) (imgs s) (ipws s)
          (Hemask s) (S2BIM_iwarp s) (allin_matrix s).
Definition sets (x : svar) (v : option string) (s : state) : state :=
  mkState (ints s) (flts s) (upd x v (strs s)) (dsets s) (imgs s) (ipws s)
          (Hemask s) (S2BIM_iwarp s) (allin_matrix s).
Definition setd (x : dvar) (v : option THD_3dim_dataset) (s : state) : state :=
  mkState (ints s) (flts s) (strs s) (upd x v (dsets s)) (imgs s) (ipws s)
          (Hemask s) (S2BIM_iwarp s) (allin_matrix s).
Definition setm (x : mvar) (v : option MRI_IMAGE) (s : state) : state :=
  mkState (ints s) (flts s) (strs s) (dsets s) (upd x v (imgs s)) (ipws s)
          (Hemask s) (S2BIM_iwarp s) (allin_matrix s).
Definition setw (x : wvar) (v : option Image_plus_Warp) (s : state) : state :=
  mkState (ints s) (flts s) (strs s) (dsets s) (imgs s) (upd x v (ipws s))
          (Hemask s) (S2BIM_iwarp s) (allin_matrix s).
Definition set_Hemask (v : option (list bool)) (s : state) : state :=
  mkState (ints s) (flts s) (strs s) (dsets s) (imgs s) (ipws s)
          v (S2BIM_iwarp s) (allin_matrix s).
Definition set_S2BIM_iwarp (v : option IndexWarp3D) (s : state) : state :=
  mkState (ints s) (flts s) (strs s) (dsets s) (imgs s) (ipws s)
          (Hemask s) v (allin_matrix s).
Definition set_allin_matrix (v : list F32.float) (s : state) : state :=
  mkState (ints s) (flts s) (strs s) (dsets s) (imgs s) (ipws s)
          (Hemask s) (S2BIM_iwarp s) v.

(** Reading a variable: [s.[x]] for an [int], [s.f[x]] for a float. *)
Notation "s '.[' x ']'" := (ints s x) (at level 1, left associativity, format "s .[ x ]").
Notation "s '.f[' x ']'" := (flts s x) (at level 1, left associativity, format "s .f[ x ]").
Notation "s '.s[' x ']'" := (strs s x) (at level 1, left associativity, format "s .s[ x ]").

(** A C condition: an [int] is true when it is not 0. *)
Definition truthy (z : Z) : bool := negb (z =? 0).
Definition of_bool (b : bool) : Z := if b then 1 else 0.
(** [p != NULL] *)
Definition notnull {A} (p : option A) : bool :=
  match p with Some _ => true | None => false end.

(** ** The world outside the program, and the monad of [main] *)

Inductive severity := INFO | ININFO | WARNING | ERROR | FATAL.

(** An argument of a printf-style message. *)
Inductive farg := AInt (z : Z) | AStr (s : string) | AFlt (x : spec_float).

Inductive event :=
| Message (sev : severity) (fmt : string) (args : list farg)
| Subprocess (cmd : string) (status : Z)
| Optimize (engine : string) (gx gy gz : Z) (ngmin : Z)
| Written (name : string) (gx gy gz : Z) (bx by_ bz : Z).

Record world := mkWorld {
  w_fs : gmap string file;
  w_log : list event
}.

Inductive outcome (A : Type) :=
| Ret (a : A)
| Exit (status : Z).
Arguments Ret {A} a.
Arguments Exit {A} status.

Definition M (A : Type) : Type := world -> outcome A * world.

Definition ret {A} (a : A) : M A := fun w => (Ret a, w).

Definition bind {A B} (m : M A) (k : A -> M B) : M B :=
  fun w => match m w with
           | (Ret a, w') => k a w'
           | (Exit n, w') => (Exit n, w')
           end.

Notation "'do' x <- m ; k" := (bind m (fun x => k))
  (at level 10, x name, m at level 100, k at level 200).
Notation "m ;; k" := (bind m (fun _ => k))
  (at level 100, k at level 200, right associativity).

(** A local variable: [let* x := v in k] is [k] with [x] bound to [v]. *)
Definition Let {A B} (v : A) (k : A -> B) : B := k v.

Notation "'let*' x := v 'in' k" := (Let v (fun x => k))
  (at level 10, x name, v at level 200, k at level 200,
   format "'let*'  x  :=  v  'in'  '//' k").

Definition emit (e : event) : M unit :=
  fun w => (Ret tt, mkWorld (w_fs w) (w_log w ++ [e])).

Definition INFO_message (fmt : string) (args : list farg) : M unit :=
  emit (Message INFO fmt args).
Definition ININFO_message (fmt : string) (args : list farg) : M unit :=
  emit (Message ININFO fmt args).
Definition WARNING_message (fmt : string) (args : list farg) : M unit :=
  emit (Message WARNING fmt args).
Definition ERROR_message (fmt : string) (args : list farg) : M unit :=
  emit (Message ERROR fmt args).

(** [exit(n)] *)
Definition exit {A} (n : Z) : M A := fun w => (Exit n, w).

(** [ERROR_exit]: the message, then [exit(1)]. *)
Definition ERROR_exit {A} (fmt : string) (args : list farg) : M A :=
  emit (Message FATAL fmt args) ;; exit 1.

Definition when (b : bool) (m : M unit) : M unit := if b then m else ret tt.

Definition get_fs : M (gmap string file) := fun w => (Ret (w_fs w), w).
Definition put_fs (fs : gmap string file) : M unit :=
  fun w => (Ret tt, mkWorld fs (w_log w)).

(** Modelled from the spec: dataset file I/O (thd_opendset.c and friends)
    is an external collaborator that is not part of the sources at hand; a
    dataset is opened when a file of that name holds one. *)
Definition THD_is_file (name : string) : M bool :=
  do fs <- get_fs ; ret (bool_decide (is_Some (fs !! name))).

Definition THD_open_dataset (name : string) : M (option THD_3dim_dataset) :=
  do fs <- get_fs ;
  ret match fs !! name with Some (FDataset d) => Some d | _ => None end.

Definition mri_read_1D (name : string) : M (option (list F32.float)) :=
  do fs <- get_fs ;
  ret match fs !! name with Some (F1D v) => Some v | _ => None end.

(** [rename(from,to)] of libc; a failure is not looked at by the caller. *)
Definition rename (from to : string) : M unit :=
  do fs <- get_fs ;
  match fs !! from with
  | Some f => put_fs (<[to := f]> (delete from fs))
  | None => ret tt
  end.

(** [remove(name)] of libc. *)
Definition remove (name : string) : M unit :=
  do fs <- get_fs ; put_fs (delete name fs).

(** [CHECK_LOAD_ERROR] after [DSET_load]. *)
Definition CHECK_LOAD_ERROR (d : THD_3dim_dataset) : M unit :=
  if DSET_loadable d then ret tt
  else ERROR_exit "Can't load dataset %s: is it complete?" [AStr (DSET_HEADNAME d)].

(** [DSET_write(dset)], for a dataset named [name] whose header has the
    grid [gx gy gz] and whose bricks have the dimensions [bx by_ bz]. *)
Definition DSET_write (name : string) (gx gy gz : Z) (bx by_ bz : Z) : M unit :=
  emit (Written name gx gy gz bx by_ bz).

(** ** Helpers of the image library *)

(** The macros [MIN] and [MAX] of mrilib.h, on [int] and on [float]. *)
Definition MIN (a b : Z) : Z := if b <? a then b else a.
Definition MAX (a b : Z) : Z := if a <? b then b else a.
Definition fMIN (a b : spec_float) : spec_float := if SFltb b a then b else a.
Definition fMAX (a b : spec_float) : spec_float := if SFltb a b then b else a.

(** Modelled from the spec: [mri_min] and [mri_max] (mri_max.c) are not part
    of the sources at hand; the smallest and the largest voxel value of an
    image, found by one pass with the macros above from -+1e38. *)
Definition huge : F32.float := F32.of_Z (10 ^ 38).
Definition mri_min (im : MRI_IMAGE) : F32.float :=
  fold_left fMIN (far im) huge.
Definition mri_max (im : MRI_IMAGE) : F32.float :=
  fold_left fMAX (far im) (SFopp huge).

(** Modelled from the spec: [EDIT_volpad] and [mri_zeropad_3D]
    (edt_volpad.c, mri_zeropad.c) are not part of the sources at hand.
    Zero-padding adds the given number of all-zero planes on each of the six
    faces of the volume; a negative amount removes planes instead; the
    result is NULL when a dimension would fall below 1. *)
Definition EDIT_volpad {A} (zero : A) (xm xp ym yp zm zp : Z)
    (vnx vny vnz : Z) (v : list A) : option (list A) :=
  let nxn := vnx + xm + xp in
  let nyn := vny + ym + yp in
  let nzn := vnz + zm + zp in
  if (nxn <? 1) || (nyn <? 1) || (nzn <? 1) then None
  else Some (map (fun n =>
                    let q := Z.of_nat n in
                    let ii := q mod nxn - xm in
                    let jj := (q / nxn) mod nyn - ym in
                    let kk := q / (nxn * nyn) - zm in
                    if (0 <=? ii) && (ii <? vnx) && (0 <=? jj) && (jj <? vny)
                       && (0 <=? kk) && (kk <? vnz)
                    then default zero (v !! Z.to_nat (ii + jj * vnx + kk * (vnx * vny)))
                    else zero)
                 (seq 0 (Z.to_nat (nxn * nyn * nzn)))).

Definition mri_zeropad_3D (xm xp ym yp zm zp : Z) (im : MRI_IMAGE)
    : option MRI_IMAGE :=
  match EDIT_volpad F32.zero xm xp ym yp zm zp (im_nx im) (im_ny im) (im_nz im) (far im) with
  | Some v => Some (mkIm (im_nx im + xm + xp) (im_ny im + ym + yp) (im_nz im + zm + zp) v)
  | None => None
  end.

(** Modelled from the spec: the constants [NGMIN] (the smallest patch and
    grid size allowed, "hard floor 9") and the initial value of [Hngmin]
    ("default 25") are defined in mri_nwarp.c, not part of the sources. *)
Definition NGMIN : Z := 9.
Definition Hngmin_default : Z := 25.

(** Modelled from the spec: the integer codes of the matching methods and
    the axis flags are macros of mrilib.h and mri_nwarp.c, not part of the
    sources at hand; the program only compares and stores them. *)
Definition GA_MATCH_PEARSON_SCALAR : Z := 1.
Definition GA_MATCH_KULLBACK_SCALAR : Z := 4.
Definition GA_MATCH_NORMUTIN_SCALAR : Z := 7.
Definition GA_MATCH_HELLINGER_SCALAR : Z := 10.
Definition GA_MATCH_PEARSON_LOCALS : Z := 12.
Definition GA_MATCH_PEARSON_LOCALA : Z := 13.
Definition GA_MATCH_PEARCLP_SCALAR : Z := 15.

Definition NWARP_NOXDIS_FLAG : Z := 1.
Definition NWARP_NOYDIS_FLAG : Z := 2.
Definition NWARP_NOZDIS_FLAG : Z := 4.
Definition NWARP_NODISP_FLAG : Z :=
  Z.lor NWARP_NOXDIS_FLAG (Z.lor NWARP_NOYDIS_FLAG NWARP_NOZDIS_FLAG).

(** ** External collaborators

    Functions of the AFNI library and of libc that [main] calls and whose
    code is not part of the sources at hand. *)
Class Extern := {
  strtod : string -> F64.float;
  Hglobal_init : ivar -> Z;
  fglobal_init : fvar -> spec_float;
  Hpen_fbase : F64.float;
  UNIQ_idcode : string;
  system : string -> gmap string file -> Z * gmap string file;
  EQUIV_GRIDXYZ : THD_3dim_dataset -> THD_3dim_dataset -> bool;
  EQUIV_DSETS : THD_3dim_dataset -> THD_3dim_dataset -> bool;
  THD_makemask : THD_3dim_dataset -> option (list bool);
  IW3D_read_catenated_warp : string -> gmap string file -> option THD_3dim_dataset;
  DSET_BRICK_TYPE_is_float : THD_3dim_dataset -> bool;
  THD_conformist : THD_3dim_dataset -> THD_3dim_dataset -> Z * list Z;
  THD_cliplevel : MRI_IMAGE -> F32.float -> F32.float;
  MRI_autobbox : MRI_IMAGE -> (Z * Z) * (Z * Z) * (Z * Z);
  IW3D_from_dataset : THD_3dim_dataset -> option IndexWarp3D;
  IW3D_extend : IndexWarp3D -> Z -> Z -> Z -> Z -> Z -> Z -> IndexWarp3D;
  mri_medianfilter : MRI_IMAGE -> F32.float -> option (list bool) -> MRI_IMAGE;
  FIR_blur_volume_3d : Z -> Z -> Z -> list F32.float -> F32.float -> list F32.float;
  THD_mask_clust : Z -> Z -> Z -> list bool -> list bool;
  THD_mask_erode : Z -> Z -> Z -> list bool -> list bool;
  THD_mask_dilate : Z -> Z -> Z -> list bool -> list bool;
  THD_mask_fillin_once : Z -> Z -> Z -> list bool -> list bool;
  powf : F32.float -> F32.float -> F32.float;
  FWHM_TO_SIGMA : F32.float -> F32.float;
  mri_float_blur3D : F32.float -> MRI_IMAGE -> MRI_IMAGE;
  IW3D_warp_s2bim : state -> MRI_IMAGE -> MRI_IMAGE -> MRI_IMAGE -> Z -> Z
                    -> option Image_plus_Warp;
  IW3D_warp_s2bim_duplo : state -> MRI_IMAGE -> MRI_IMAGE -> MRI_IMAGE -> Z -> Z
                          -> option Image_plus_Warp;
  IW3D_warp_s2bim_plusminus : state -> MRI_IMAGE -> MRI_IMAGE -> MRI_IMAGE -> Z -> Z
                              -> option Image_plus_Warp * option Image_plus_Warp;
  IW3D_compose_w1m2 : IndexWarp3D -> list F32.float -> IndexWarp3D;
  THD_nwarp_dataset : IndexWarp3D -> THD_3dim_dataset -> THD_3dim_dataset
                      -> option THD_3dim_dataset;
  IW3D_invert : IndexWarp3D -> IndexWarp3D;
  modify_afni_prefix : string -> string -> string
}.

(** ** [mri_weightize]: turn an image into a weighting factor *)

Section Weightize.
Context `{X : Extern}.

(** The static constants at the top of the file. *)
Definition wt_medsmooth : F32.float := F32.lit 225 100.
Definition wt_gausmooth : F32.float := F32.lit 450 100.
Definition BPAD : Z := 4.

(** [(int)(0.05*n+3.0)], then the cap [(n-1)/5]. *)
Definition fade (n : Z) : Z :=
  let* f := int_of_float (F64.add (F64.mul (F64.lit 5 100) (F64.of_Z n)) (F64.of_Z 3)) in
  if n <=? 5 * f then (n - 1) ÷ 5 else f.

(** The coordinates of the voxel at offset [n] in a volume. *)
Definition vox_i (vnx vny : Z) (n : nat) : Z := Z.of_nat n mod vnx.
Definition vox_j (vnx vny : Z) (n : nat) : Z := (Z.of_nat n / vnx) mod vny.
Definition vox_k (vnx vny : Z) (n : nat) : Z := Z.of_nat n / (vnx * vny).

(** One of the three loops that clear [f] planes at both ends of an axis. *)
Definition zero_ends (coord : nat -> Z) (n f : Z) (wf : list F32.float)
    : list F32.float :=
  imap (fun q w => if (coord q <? f) || (n - 1 - f <? coord q) then F32.zero else w) wf.

Definition mri_weightize (verb : Z) (im : MRI_IMAGE) (acod ndil : Z)
    (aclip apow : F32.float) : M MRI_IMAGE :=
  when (truthy verb) (INFO_message "Weightizing the base image" []) ;;
  (* copy input image so we can mangle it *)
  let* vnx := im_nx im in let* vny := im_ny im in let* vnz := im_nz im in
  let* wf := map F32.abs (far im) in
  (* zero out along the edges *)
  let* xfade := fade vnx in let* yfade := fade vny in let* zfade := fade vnz in
  when (1 <? verb)
       (ININFO_message "  xfade=%d yfade=%d zfade=%d" [AInt xfade; AInt yfade; AInt zfade]) ;;
  let* wf := zero_ends (vox_k vnx vny) vnz zfade wf in
  let* wf := zero_ends (vox_i vnx vny) vnx xfade wf in
  let* wf := zero_ends (vox_j vnx vny) vny yfade wf in
  do wf <-
    (if F32.ltb F32.zero aclip then
       let* pos := filter (fun w => F32.ltb F32.zero w = true) wf in
       let* nclip := length (filter (fun w => F32.ltb w aclip = true) pos) in
       let* nleft := length (filter (fun w => F32.ltb w aclip = false) pos) in
       when (1 <? verb)
            (ININFO_message "  user clip=%g #clipped=%d #left=%d"
               [AFlt aclip; AInt (Z.of_nat nclip); AInt (Z.of_nat nleft)]) ;;
       ret (map (fun w => if F32.ltb F32.zero w && F32.ltb w aclip then F32.zero else w) wf)
     else ret wf) ;
  (* squash super-large values down to reasonability *)
  let* clip := F32.mul (F32.of_Z 3) (THD_cliplevel (mkIm vnx vny vnz wf) (F32.lit 5 10)) in
  when (1 <? verb) (ININFO_message "  (unblurred) top clip=%g" [AFlt clip]) ;;
  let* wf := map (fun w => if F32.ltb clip w then clip else w) wf in
  (* blur a little: median then Gaussian *)
  let* mmm := map (fun w => F32.ltb F32.zero w) wf in
  let* wim := if F32.ltb F32.zero wt_medsmooth
             then mri_medianfilter (mkIm vnx vny vnz wf) wt_medsmooth (Some mmm)
             else mkIm vnx vny vnz wf in
  let* wf := far wim in
  let* wf := if F32.ltb F32.zero wt_gausmooth
            then FIR_blur_volume_3d (im_nx wim) (im_ny wim) (im_nz wim) wf wt_gausmooth
            else wf in
  (* clip off small values, and keep only the largest cluster *)
  let* clip := F32.mul (F32.lit 5 100) (mri_max (mkIm vnx vny vnz wf)) in
  let* clip2 := F32.mul (F32.lit 33 100) (THD_cliplevel (mkIm vnx vny vnz wf) (F32.lit 33 100)) in
  let* clip := fMAX clip clip2 in
  when (1 <? verb) (ININFO_message "  (blurred) bot clip=%g" [AFlt clip]) ;;
  let* mmm := map (fun w => F32.leb clip w) wf in
  let* mmm := THD_mask_clust vnx vny vnz mmm in
  let* mmm := THD_mask_erode vnx vny vnz mmm in
  let* mmm := THD_mask_clust vnx vny vnz mmm in
  let* wf := imap (fun q w => if default false (mmm !! q) then w else F32.zero) wf in
  (* convert weight to 0..1 range *)
  let* clip := fold_left fMAX wf F32.zero in
  (if F32.eqb clip F32.zero
   then ERROR_exit "Can't compute autoweight: max value seen as 0" []
   else ret tt) ;;
  let* clip := F32.div F32.one clip in
  let* wf := map (fun w => F32.mul w clip) wf in
  (* take a power? *)
  do wf <-
    (if F32.ltb F32.zero apow && negb (F32.eqb apow F32.one) then
       when (1 <? verb) (ININFO_message "  raising to %g power" [AFlt apow]) ;;
       ret (map (fun w => if F32.ltb F32.zero w then powf w apow else w) wf)
     else ret wf) ;
  (* binarize (acod==2)?  boxize (acod==3)? *)
  if (acod =? 2) || (acod =? 3) then
    when (1 <? verb) (ININFO_message "  binarizing" []) ;;
    let* wf := map (fun w => if negb (F32.eqb w F32.zero) then F32.one else w) wf in
    do wf <-
      (if 0 <? ndil then
         when (1 <? verb) (ININFO_message "  dilating" []) ;;
         let* mmm := map (fun w => negb (F32.eqb w F32.zero)) wf in
         let* mmm := Nat.iter (Z.to_nat ndil)
                      (fun m => THD_mask_fillin_once vnx vny vnz (THD_mask_dilate vnx vny vnz m))
                      mmm in
         ret (map (fun b : bool => if b then F32.one else F32.zero) mmm)
       else ret wf) ;
    if acod =? 3 then
      let '(xm, xp, (ym, yp), (zm, zp)) := MRI_autobbox (mkIm vnx vny vnz wf) in
      let* xm := if xm - BPAD <? 1 then 1 else xm - BPAD in
      let* ym := if ym - BPAD <? 1 then 1 else ym - BPAD in
      let* zm := if zm - BPAD <? 1 then 1 else zm - BPAD in
      let* xp := if vnx - 2 <? xp + BPAD then vnx - 2 else xp + BPAD in
      let* yp := if vny - 2 <? yp + BPAD then vny - 2 else yp + BPAD in
      let* zp := if vnz - 2 <? zp + BPAD then vnz - 2 else zp + BPAD in
      when (1 <? verb)
           (ININFO_message "  box=%d..%d X %d..%d X %d..%d = %d voxels"
              [AInt xm; AInt xp; AInt ym; AInt yp; AInt zm; AInt zp;
               AInt ((xp - xm + 1) * (yp - ym + 1) * (zp - zm + 1))]) ;;
      ret (mkIm vnx vny vnz
             (imap (fun q w =>
                      if (xm <=? vox_i vnx vny q) && (vox_i vnx vny q <=? xp)
                         && (ym <=? vox_j vnx vny q) && (vox_j vnx vny q <=? yp)
                         && (zm <=? vox_k vnx vny q) && (vox_k vnx vny q <=? zp)
                      then F32.one else w) wf))
    else ret (mkIm vnx vny vnz wf)
  else ret (mkIm vnx vny vnz wf).

End Weightize.

(** ** [main]: scanning the command line *)

Section Options.
Context `{X : Extern}.

(** [if( ++nopt >= argc ) ERROR_exit(...)]: the option needs one more
    word on the command line. *)
Definition need_arg (fmt : string) (args : list farg) (rest : list string)
    : M (string * list string) :=
  match rest with
  | [] => ERROR_exit fmt args
  | v :: r => ret (v, r)
  end.

(** [(int)strtod(str,NULL)] *)
Definition strtod_int (v : string) : Z := int_of_float (strtod v).
(** [(float)strtod(str,NULL)] *)
Definition strtod_float (v : string) : F32.float := F32.of_double (strtod v).

(** The [-workhard:a:b] and [-superhard] syntax: [wpt] is the text after
    the first 9 characters of the option. *)
Definition hard_range (wpt : string) : Z * Z :=
  if Ascii.eqb (strat wpt 0) ":" && isdigit (strat wpt 1) then
    let* wpt := strdrop 1 wpt in
    let* h2 := strtod_int wpt in
    match strchr wpt ":" with
    | Some cpt =>
        if isdigit (strat cpt 1) then (h2, strtod_int (strdrop 1 cpt)) else (0, h2)
    | None => (0, h2)
    end
  else (0, 66).

Definition continue (s : state) (rest : list string) : M (state * list string) :=
  ret (s, rest).

(** One turn of the loop over the command line: [a] is [argv[nopt]] and
    [rest] the words after it; the result is the new state and the words
    that are left. *)
Definition parse_option (a : string) (rest : list string) (s : state)
    : M (state * list string) :=
  if strcaseeq a "-help" || streq a "-h" then exit 0
  else if strcaseeq a "-verb" then continue (seti Hverb (s.[Hverb] + 1) s) rest
  else if strcaseeq a "-quiet" then continue (seti Hverb 0 s) rest
  else if strcaseeq a "-nowarp" then continue (seti nowarp 1 s) rest
  else if strcaseeq a "-iwarp" then continue (seti nowarpi 0 s) rest
  else if strcaseeq a "-nodset" then continue (seti nodset 1 s) rest
  else if strcaseeq a "-noneg" then continue (seti noneg 1 s) rest
  else if strcaseeq a "-nopad" then continue (seti zeropad 0 s) rest
  else if strcaseeq a "-nopadWARP" then continue (seti zeropad_warp 0 s) rest
  else if strcaseeq a "-expad" then
    do vr <- need_arg "need arg after %s" [AStr a] rest ;
    let* v := strtod_int vr.1 in
    continue (seti expad (if v <? 0 then 0 else v) s) vr.2
  else if strcaseeq a "-minpad" then
    do vr <- need_arg "need arg after %s" [AStr a] rest ;
    let* v := strtod_int vr.1 in
    continue (seti minpad (if v <? 0 then 0 else v) s) vr.2
  else if strcaseeq a "-allineate" || strcaseeq a "-allin" then
    continue (seti do_allin 1 s) rest
  else if strcaseeq a "-allinkeep" then continue (seti keep_allin 1 s) rest
  else if strcaseeq a "-allinkill" then continue (seti keep_allin 0 s) rest
  else if strcaseeq a "-allinfast" || strcaseeq a "-allfast" then
    continue (seti do_allin 2 s) rest
  else if strcaseeq a "-allineate_opts" || strcaseeq a "-allopt" then
    do vr <- need_arg "need arg after %s" [AStr a] rest ;
    continue (sets allopt (Some vr.1) s) vr.2
  else if strcaseeq a "-resample" || strcaseeq a "-resam" then
    continue (seti do_resam 1 s) rest
  else if strcaseeq a "-plusminus" || streq a "+-" then
    continue (seti do_plusminus (s.[do_plusminus] + 1) s) rest
  else if strcaseeq a "-pmNAMES" then
    match rest with
    | p :: m :: r => continue (sets minusname (Some m) (sets plusname (Some p) s)) r
    | _ => ERROR_exit "need 2 args after %s" [AStr a]
    end
  else if strcaseeq a "-nowarps" then
    WARNING_message "-nowarps option is now deprecated: see the -help output" [] ;;
    continue (seti nowarpi 1 (seti nowarp 1 s)) rest
  else if strcaseeq a "-nowarpi" then
    WARNING_message "-nowarpi option is now deprecated: see the -help output" [] ;;
    continue (seti nowarpi 1 s) rest
  else if strcaseeq a "-patchmin" || strcaseeq a "-minpatch" then
    do vr <- need_arg "need arg after %s" [AStr a] rest ;
    let* v := strtod_int vr.1 in
    continue (seti minpatch (if v <? NGMIN then NGMIN
                             else if Z.rem v 2 =? 0 then v - 1 else v) s) vr.2
  else if strcaseeq a "-inilev" then
    (if truthy s.[duplo] then ERROR_exit "Cannot use -inilev with -duplo :-(" []
     else ret tt) ;;
    do vr <- need_arg "need arg after %s" [AStr a] rest ;
    let* v := strtod_int vr.1 in
    continue (seti ilev (if v <? 0 then 0 else if 19 <? v then 19 else v) s) vr.2
  else if strcaseeq a "-maxlev" then
    (if truthy s.[duplo] then ERROR_exit "Cannot use -maxlev with -duplo :-(" []
     else ret tt) ;;
    do vr <- need_arg "need arg after %s" [AStr a] rest ;
    let* v := strtod_int vr.1 in
    continue (seti mlev (if v <? 0 then 0 else if 99 <? v then 99 else v) s) vr.2
  else if strcaseeq a "-iniwarp" then
    (if truthy s.[duplo] then ERROR_exit "Cannot use -iniwarp with -duplo :-(" []
     else ret tt) ;;
    (if notnull (s.s[iwname]) then ERROR_exit "Cannot use -iniwarp twice :-(" []
     else ret tt) ;;
    do vr <- need_arg "need arg after %s" [AStr a] rest ;
    continue (sets iwname (Some vr.1) s) vr.2
  else if strcaseeq a "-weight" then
    (if notnull (imgs s wbim) then ERROR_exit "Cannot use -weight twice :-(" []
     else ret tt) ;;
    do vr <- need_arg "need arg after %s" [AStr a] rest ;
    do q <- THD_open_dataset vr.1 ;
    match q with
    | None => ERROR_exit "Cannot open -weight dataset :-(" []
    | Some qset =>
        CHECK_LOAD_ERROR qset ;;
        continue (setm wbim (Some (THD_extract_float_brick 0 qset)) s) vr.2
    end
  else if strcaseeq a "-duplo" then
    (if notnull (s.s[iwname]) then ERROR_exit "Cannot use -duplo with -iniwarp :-(" []
     else ret tt) ;;
    (if negb (s.[ilev] =? 0) || (s.[mlev] <? 99)
     then ERROR_exit "Cannot use -duplo with -inilev or -maxlev :-(" []
     else ret tt) ;;
    continue (seti duplo 1 s) rest
  else if strncaseeq a "-workhard" 9 then
    let* h := hard_range (strdrop 9 a) in
    continue (seti Hworkhard2 h.2 (seti Hworkhard1 h.1 s)) rest
  else if strcaseeq a "-zeasy" then continue (seti Hzeasy 1 s) rest
  else if strcaseeq a "-noQ" then continue (seti Hznoq 1 s) rest
  else if strcaseeq a "-superhard" then
    let* h := hard_range (strdrop 9 a) in
    continue (seti Hsuperhard2 h.2 (seti Hsuperhard1 h.1 s)) rest
  else if strcaseeq a "-Qfinal" then continue (seti Hqfinal 1 s) rest
  else if strcaseeq a "-Qonly" then continue (seti Hqonly 1 s) rest
  else if strcaseeq a "-qsave" then
    WARNING_message "-qsave option is not compiled into this copy of 3dQwarp :-(" [] ;;
    continue s rest
  else if strcaseeq a "-noXdis" then
    continue (seti flags (Z.lor s.[flags] NWARP_NOXDIS_FLAG) s) rest
  else if strcaseeq a "-noYdis" then
    continue (seti flags (Z.lor s.[flags] NWARP_NOYDIS_FLAG) s) rest
  else if strcaseeq a "-noZdis" then
    continue (seti flags (Z.lor s.[flags] NWARP_NOZDIS_FLAG) s) rest
  else if strcaseeq a "-base" then
    (if notnull (dsets s bset) then ERROR_exit "Can't use -base twice!" [] else ret tt) ;;
    do vr <- need_arg "need arg after -base" [] rest ;
    do q <- THD_open_dataset vr.1 ;
    match q with
    | None => ERROR_exit "Can't open -base" []
    | Some d => continue (sets bsname (Some vr.1) (setd bset (Some d) s)) vr.2
    end
  else if strcaseeq a "-source" then
    (if notnull (dsets s sset) then ERROR_exit "Can't use -source twice!" [] else ret tt) ;;
    do vr <- need_arg "need arg after -source" [] rest ;
    do q <- THD_open_dataset vr.1 ;
    match q with
    | None => ERROR_exit "Can't open -source" []
    | Some d =>
        continue (setd sstrue (Some d) (sets ssname (Some vr.1) (setd sset (Some d) s))) vr.2
    end
  else if strcaseeq a "-emask" then
    (if notnull (Hemask s) then ERROR_exit "Can't use -emask twice!" [] else ret tt) ;;
    do vr <- need_arg "need arg after -emask" [] rest ;
    do q <- THD_open_dataset vr.1 ;
    match q with
    | None => ERROR_exit "Can't open -emask" []
    | Some eset =>
        CHECK_LOAD_ERROR eset ;;
        match THD_makemask eset with
        | None => ERROR_exit "Can't make -emask for some reason :-(" []
        | Some mk =>
            continue (sets esname (Some vr.1)
                        (seti nevox (DSET_NVOX eset) (set_Hemask (Some mk) s))) vr.2
        end
    end
  else if strcaseeq a "-blur" then
    do vr <- need_arg "need arg after -blur" [] rest ;
    (if isnumeric (strat vr.1 0) then ret tt
     else ERROR_exit "value after '-blur' must be a number: '%s'" [AStr vr.1]) ;;
    let* val1 := strtod_float vr.1 in
    match vr.2 with
    | v2 :: r2 =>
        if isnumeric (strat v2 0) && negb (isalpha (strat v2 1))
        then continue (setf Hblur_s (strtod_float v2) (setf Hblur_b val1 s)) r2
        else continue (setf Hblur_s val1 (setf Hblur_b val1 s)) vr.2
    | [] => continue (setf Hblur_s val1 (setf Hblur_b val1 s)) vr.2
    end
  else if strcaseeq a "-nopenalty" then continue (setf Hpen_fac F64.zero s) rest
  else if strncaseeq a "-useweight" 10 || strcaseeq a "-use_weight" then
    let* s := seti auto_weight 1 s in
    let* s := if Ascii.eqb (strat a 10) "*" && Ascii.eqb (strat a 11) "*"
                && isnumeric (strat a 12)
             then setf auto_wpow (strtod_float (strdrop 12 a)) s else s in
    when (truthy s.[Hverb] && negb (F32.eqb s.f[auto_wpow] F32.one))
         (INFO_message "-useweight is now the default" []) ;;
    continue s rest
  else if strcaseeq a "-noweight" then continue (seti auto_weight 2 s) rest
  else if strcaseeq a "-penfac" then
    do vr <- need_arg "need arg after -penfac" [] rest ;
    let* val := strtod vr.1 in
    if F64.leb val F64.zero then
      INFO_message "-penfac turns the penalty off" [] ;;
      continue (setf Hpen_fac F64.zero s) vr.2
    else continue (setf Hpen_fac (F64.mul Hpen_fbase val) s) vr.2
  else if strcaseeq a "-pencut" then
    do vr <- need_arg "need arg after -pencut" [] rest ;
    let* val := strtod vr.1 in
    if F64.ltb val F64.zero || F64.ltb (F64.of_Z 10) val then
      INFO_message "-pencut %g is illegal -- replaced with 1.0" [AFlt val] ;;
      continue (setf Hpen_cut F32.one s) vr.2
    else if F64.ltb (F64.of_Z 1) val then
      continue (setf Hpen_cut (F32.of_double (F64.mul (F64.lit 1 10) val)) s) vr.2
    else continue (setf Hpen_cut (F32.of_double val) s) vr.2
  else if strcaseeq a "-penold" then continue (seti Hpen_old 1 s) rest
  else if strcaseeq a "-prefix" then
    do vr <- need_arg "need arg after -prefix" [] rest ;
    continue (sets prefix (Some vr.1) s) vr.2
  else if strcaseeq a "-hel" then continue (seti meth GA_MATCH_HELLINGER_SCALAR s) rest
  else if strcaseeq a "-mi" then continue (seti meth GA_MATCH_KULLBACK_SCALAR s) rest
  else if strcaseeq a "-nmi" then continue (seti meth GA_MATCH_NORMUTIN_SCALAR s) rest
  else if strcaseeq a "-pcl" then continue (seti meth GA_MATCH_PEARCLP_SCALAR s) rest
  else if strcaseeq a "-pear" then continue (seti meth GA_MATCH_PEARSON_SCALAR s) rest
  else if strcaseeq a "-lpc" then
    continue (seti mlev 0 (seti meth_is_lpc 1 (seti Hzeasy 1
                (seti meth GA_MATCH_PEARSON_LOCALS s)))) rest
  else if strcaseeq a "-lpa" then continue (seti meth GA_MATCH_PEARSON_LOCALA s) rest
  else
    ERROR_message "Totally bogus option '%s'" [AStr a] ;;
    exit 1.

End Options.

(** ** [main]: from the command line to the input images *)

Section Inputs.
Context `{X : Extern}.

(** The initial values of the variables of [main] and of the globals. *)
Definition init_ints (v : ivar) : Z :=
  match v with
  | meth => GA_MATCH_PEARCLP_SCALAR
  | nowarpi | keep_allin | zeropad | zeropad_warp | auto_weight => 1
  | mlev => 666
  | auto_dilation => 5
  | Hngmin => Hngmin_default
  | Hverb | Hworkhard1 | Hworkhard2 | Hsuperhard1 | Hsuperhard2
  | Hzeasy | Hznoq | Hqfinal | Hqonly | Hpen_old
  | S2BIM_ilev | S2BIM_mlev => Hglobal_init v
  | _ => 0
  end.

Definition init_flts (v : fvar) : spec_float :=
  match v with
  | Hblur_b | Hblur_s => F32.lit 2345 1000
  | auto_wpow => F32.one
  | Hpen_fac | Hpen_cut => fglobal_init v
  | _ => F32.zero
  end.

Definition init_strs (v : svar) : option string :=
  match v with
  | prefix => Some "Qwarp"%string
  | plusname => Some "PLUS"%string
  | minusname => Some "MINUS"%string
  | _ => None
  end.

Definition init_state : state :=
  mkState init_ints init_flts init_strs (fun _ => None) (fun _ => None)
          (fun _ => None) None None [].

(** A NULL pointer is dereferenced: the program is killed by the system. *)
Definition crash {A} : M A := exit 139.

(** The value of a string variable that is known not to be NULL. *)
Definition str (s : state) (x : svar) : string := default ""%string (s.s[x]).

(** The loop [while( nopt < argc && argv[nopt][0] == '-' )]. The fuel is
    the number of words: each turn takes at least one. *)
Fixpoint parse_loop (fuel : nat) (args : list string) (s : state)
    : M (state * list string) :=
  match fuel, args with
  | S f, a :: rest =>
      if Ascii.eqb (strat a 0) "-"
      then do sr <- parse_option a rest s ; parse_loop f sr.2 sr.1
      else ret (s, args)
  | _, _ => ret (s, args)
  end.

(** [argv] is the command line without the program name. *)
Definition parse_options (argv : list string) : M (state * list string) :=
  (if decide (argv = []) then exit 0 else ret tt) ;;
  do sr <- parse_loop (length argv) argv init_state ;
  (if (length argv <? 2)%nat
   then ERROR_exit "Too few options, use -help for details" [] else ret tt) ;;
  (* make a 'clean' prefix *)
  let* pc := str sr.1 prefix in
  let* pc := strcut (strcut (strcut (strcut pc ".nii") "+orig") "+acpc") "+tlrc" in
  ret (sets prefix_clean (Some pc) sr.1, sr.2).

(** [ERROR_message(...) ; nbad++] *)
Definition bad (fmt : string) (s : state) : M state :=
  ERROR_message fmt [] ;; ret (seti nbad (s.[nbad] + 1) s).

(** The checks after the options: [rest] are the words left on the
    command line. *)
Definition check_errors (rest : list string) (s : state) : M state :=
  let* s := seti nbad 0 s in
  do s <- (if s.[flags] =? NWARP_NODISP_FLAG
           then bad "too many -no?dis flags ==> nothing to warp!" s else ret s) ;
  do s <- (if negb (notnull (dsets s bset)) && negb (notnull (dsets s sset))
              && (length rest <? 2)%nat
           then bad "need 2 args after all options, for base and source dataset names" s
           else ret s) ;
  do s <- (if truthy s.[do_allin] && truthy s.[do_resam] then
             INFO_message "%s turns off -resample"
               [AStr (if s.[do_allin] =? 1 then "-allineate" else "-allinfast")] ;;
             ret (seti do_resam 0 s)
           else ret s) ;
  do s <- (if truthy s.[do_allin] && truthy s.[do_plusminus]
           then bad "You cannot use -allineate and -plusminus together :-(" s else ret s) ;
  do s <- (if truthy s.[do_allin] && notnull s.s[iwname]
           then bad "You cannot use -allineate and -iniwarp together :-(" s else ret s) ;
  do s <- (if truthy s.[do_allin] && (0 <? s.[ilev])
           then bad "You cannot use -allineate and -inilev together :-(" s else ret s) ;
  do s <- (if notnull s.s[iwname] && truthy s.[duplo]
           then bad "You cannot combine -iniwarp and -duplo !! :-((" s else ret s) ;
  do s <- (if (negb (s.[ilev] =? 0) || (s.[mlev] <? 99)) && truthy s.[duplo]
           then bad "You cannot combine -inilev or -maxlev and -duplo !! :-((" s
           else ret s) ;
  do s <- (if notnull (dsets s bset) && negb (notnull (dsets s sset))
           then bad "You can't use -base without -source!" s
           else if negb (notnull (dsets s bset)) && notnull (dsets s sset)
           then bad "You can't use -source without -base!" s
           else ret s) ;
  (* any fatal errors flagged above, then it's time to go fatal *)
  (if 0 <? s.[nbad]
   then ERROR_exit "Cannot continue after above error%s"
          [AStr (if s.[nbad] =? 1 then "" else "s")]
   else ret tt) ;;
  (* other checks that aren't fatal, just to let the user beware *)
  when (truthy s.[meth_is_lpc] && (0 <? s.[mlev]))
       (WARNING_message "Use of '-maxlev 0' is recommended with '-lpc'" []) ;;
  do s <- (if truthy s.[do_plusminus] && truthy s.[duplo] then
             WARNING_message
               "Alas, -plusminus does not work with -duplo -- turning -duplo off" [] ;;
             ret (seti duplo 0 s)
           else ret s) ;
  if truthy s.[Hznoq] && truthy s.[Hqonly] then
    WARNING_message "-znoQ and -Qonly cannot be combined: turning off -znoQ" [] ;;
    ret (seti Hznoq 0 s)
  else if truthy s.[Hznoq] && truthy s.[Hqfinal] then
    WARNING_message "-znoQ and -Qfinal cannot be combined: turning off -znoQ" [] ;;
    ret (seti Hznoq 0 s)
  else ret s.

(** Open the base and the source datasets, if the options did not. *)
Definition read_inputs (rest : list string) (s : state) : M (state * list string) :=
  do sr <-
    (if notnull (dsets s bset) then ret (s, rest) else
       match rest with
       | a :: r =>
           do q <- THD_open_dataset a ;
           match q with
           | None => ERROR_exit "Can't open base dataset" []
           | Some d => ret (sets bsname (Some a) (setd bset (Some d) s), r)
           end
       | [] => ERROR_exit "Can't open base dataset" []
       end) ;
  let* s := sr.1 in let* rest := sr.2 in
  match dsets s bset with
  | None => crash
  | Some b =>
    when (1 <? DSET_NVALS b)
         (INFO_message "base dataset has more than 1 sub-brick: ignoring all but the first" []) ;;
    do sr <-
      (if notnull (dsets s sset) then ret (s, rest) else
         match rest with
         | a :: r =>
             do q <- THD_open_dataset a ;
             match q with
             | None => ERROR_exit "Can't open source dataset" []
             | Some d =>
                 ret (setd sstrue (Some d) (sets ssname (Some a) (setd sset (Some d) s)), r)
             end
         | [] => ERROR_exit "Can't open source dataset" []
         end) ;
    let* s := sr.1 in let* rest := sr.2 in
    match dsets s sset with
    | None => crash
    | Some sd =>
      when (1 <? DSET_NVALS sd)
           (INFO_message "source dataset has more than 1 sub-brick: ignoring all but the first" []) ;;
      if truthy s.[do_resam] && EQUIV_GRIDXYZ b sd then
        INFO_message "-resample is not needed (datasets on same 3D grid) -- turning it off" [] ;;
        ret (seti do_resam 0 s, rest)
      else ret (s, rest)
    end
  end.

End Inputs.

(** ** Running 3dAllineate *)

Section Allineate.
Context `{X : Extern}.

(** [ss = system(cmd)] *)
Definition run_system (cmd : string) : M Z :=
  fun w => let* r := system cmd (w_fs w) in
           (Ret r.1, mkWorld r.2 (w_log w ++ [Subprocess cmd r.1])).

(** Run 3dAllineate; the result is stored in Qunstr.nii and
    Qunstr.aff12.1D. The function returns [Qunstr]. *)
Definition Qallineate (verb : Z) (basname srcname : string)
    (emkname allopt : option string) : M string :=
  let* Qunstr := UNIQ_idcode in
  (* setup the basic command *)
  let* cmd := ("3dAllineate -base " +:+ basname +:+ " -source " +:+ srcname
              +:+ " -prefix " +:+ Qunstr +:+ ".nii -1Dmatrix_save " +:+ Qunstr
              +:+ " -cmass -final wsinc5 -float -master BASE") in
  (* add options to the command string *)
  let* cmd := (if verb =? 0 then cmd +:+ " -quiet"
              else if (verb =? 3) || (verb =? 2) then cmd +:+ " -verb"
              else cmd) in
  let* cmd := match emkname with
             | Some e => (cmd +:+ " -emask " +:+ e)
             | None => cmd
             end in
  let* cmd := match allopt with
             | Some o => if negb (String.eqb o "") then (cmd +:+ " " +:+ o) else cmd
             | None => cmd
             end in
  let* cmd := match allopt with
             | Some o => if notnull (strstr o "-fineblur") then cmd
                         else (cmd +:+ " -fineblur 4.44")
             | None => (cmd +:+ " -fineblur 4.44")
             end in
  INFO_message "Starting 3dAllineate (affine register) command: %s" [AStr cmd] ;;
  INFO_message "###########################################################" [] ;;
  do ss <- run_system cmd ;
  (if negb (ss =? 0) then ERROR_exit "3dQwarp: 3dAllineate command failed :-(" []
   else ret tt) ;;
  ret Qunstr.

(** Just use 3dAllineate for resampling (no registration). *)
Definition Qallin_resample (basname srcname : string) : M string :=
  let* Qunstr := UNIQ_idcode in
  let* cmd := ("3dAllineate -master " +:+ basname +:+ " -source " +:+ srcname
              +:+ " -prefix " +:+ Qunstr
              +:+ ".nii -final wsinc5 -float -quiet -1Dparam_apply '1D: 12@0'\'") in
  INFO_message "Starting 3dAllineate (resample only) command: %s" [AStr cmd] ;;
  INFO_message "###########################################################" [] ;;
  do ss <- run_system cmd ;
  (if negb (ss =? 0) then ERROR_exit "3dQwarp: 3dAllineate command failed :-(" []
   else ret tt) ;;
  ret Qunstr.

(** [strcat(allopt,extra)], on a buffer that is allocated empty when
    [allopt] is NULL. *)
Definition allopt_cat (o : option string) (extra : string) : option string :=
  Some (default ""%string o +:+ extra).

(** The 3dAllineate prolegomenon of [main]. *)
Definition main_allineate (s : state) : M state :=
  do s <- (if negb (truthy s.[do_allin]) && notnull s.s[allopt] then
             WARNING_message
               "-allineate_opts is ignored: no -allineate option was given!" [] ;;
             ret (sets allopt None s)
           else ret s) ;
  if truthy s.[do_allin] || truthy s.[do_resam] then
    let* s := if truthy s.[do_allin] && truthy s.[noneg]
             then sets allopt (allopt_cat s.s[allopt] " -zclip") s else s in
    let* s := if s.[do_allin] =? 2
             then sets allopt (allopt_cat s.s[allopt] " -norefinal -onepass -conv 1.0") s
             else s in
    (* run 3dAllineate now now now *)
    do Qun <- (if truthy s.[do_allin]
               then Qallineate s.[Hverb] (str s bsname) (str s ssname) s.s[esname] s.s[allopt]
               else Qallin_resample (str s bsname) (str s ssname)) ;
    let* s := sets Qunstr (Some Qun) s in
    (* try to load the results: dataset first (in NIfTI format) *)
    let* qs := (Qun +:+ ".nii") in
    do found <- THD_is_file qs ;
    do qs <- (if negb found then
                let* ns := (qs +:+ ".gz") in
                do foundz <- THD_is_file ns ;
                if negb foundz then
                  ERROR_message "Can't find 3dAllineate output '%s' or '%s' :-("
                    [AStr qs; AStr ns] ;;
                  ret qs
                else ret ns
              else ret qs) ;
    do rs <- (if truthy s.[keep_allin] then
                let* ns := (str s prefix_clean +:+ "_Allin.nii") in
                let* ns := if STRING_HAS_SUFFIX qs ".gz" then (ns +:+ ".gz") else ns in
                rename qs ns ;; ret ns
              else ret qs) ;
    INFO_message "3dQwarp: replacing source dataset with 3dAllineate result %s" [AStr rs] ;;
    do q <- THD_open_dataset rs ;
    match q with
    | None => ERROR_exit "Can't open replacement source dataset %s :-(" [AStr rs]
    | Some d =>
      let* s := setd sset (Some d) s in
      CHECK_LOAD_ERROR d ;;
      when (negb (truthy s.[keep_allin])) (remove qs) ;;
      (* load alignment matrix, to be used after warping *)
      if truthy s.[do_allin] then
        let* qs := (Qun +:+ ".aff12.1D") in
        do z <- mri_read_1D qs ;
        match z with
        | None => ERROR_exit "Can't open 3dAllineate's .aff12.1D file??" []
        | Some qar =>
          (if (length qar <? 12)%nat
           then ERROR_exit "3dAllineate's .aff12.1D file has incorrect format??" []
           else ret tt) ;;
          let* s := set_allin_matrix (take 12 qar) s in
          (* save the magnitude of the shifts *)
          let* s := setf dzal (F32.abs (default F32.zero (qar !! 11%nat)))
                     (setf dyal (F32.abs (default F32.zero (qar !! 7%nat)))
                        (setf dxal (F32.abs (default F32.zero (qar !! 3%nat))) s)) in
          (if negb (truthy s.[keep_allin]) then
             remove qs ;;
             when (truthy s.[Hverb])
                  (ININFO_message "3dAllineate output files have been deleted" [])
           else
             rename qs (str s prefix_clean +:+ "_Allin.aff12.1D") ;;
             when (truthy s.[Hverb])
                  (ININFO_message "3dAllineate output files have been renamed" [])) ;;
          ret s
        end
      else ret s
    end
  else ret s.

End Allineate.


(** ** [main]: checking and preparing the images *)

Section Prepare.
Context `{X : Extern}.

Definition any_positive (l : list Z) : bool := existsb (fun z => 0 <? z) l.

(** check dataset for stupid errors *)
Definition main_check_grids (s : state) : M unit :=
  match dsets s bset, dsets s sset with
  | Some b, Some sd =>
      (if negb (EQUIV_GRIDXYZ b sd)
       then ERROR_exit "base-source dataset grid mismatch :-( : try the -resample option" []
       else ret tt) ;;
      if EQUIV_DSETS b sd
      then ERROR_exit
             "base & source datasets are identical :-( : are you trying something sneaky?" []
      else ret tt
  | _, _ => crash
  end.

(** construct the initial warp dataset, if any *)
Definition main_iniwarp (s : state) : M state :=
  match s.s[iwname], dsets s bset with
  | Some iw, Some b =>
      (* take care of case when just a .1D file is input here *)
      let* iw := if notnull (strstr iw ".1D") && negb (notnull (strchr iw " "))
                then "IDENT(" +:+ str s bsname +:+ ") " +:+ iw else iw in
      let* s := sets iwname (Some iw) s in
      do fs <- get_fs ;
      match IW3D_read_catenated_warp iw fs with
      | None => ERROR_exit "Cannot open -iniwarp %s" [AStr iw]
      | Some iws =>
          let* s := setd iwset (Some iws) s in
          (if (DSET_NVALS iws <? 3) || negb (DSET_BRICK_TYPE_is_float iws)
           then ERROR_exit "-iniwarp %s is not in the right format :-(" []
           else ret tt) ;;
          (* compute how much bset must be padded to fit the iniwarp *)
          let* qp := THD_conformist iws b in
          let ijkpad (i : nat) := default 0 (qp.2 !! i) in
          (if qp.1 <? 0
           then ERROR_exit "-iniwarp grid does not conform with base dataset grid" []
           else ret tt) ;;
          (if any_positive (map ijkpad [0; 1; 2; 3; 4; 5]%nat)
           then ERROR_exit
                  "-iniwarp grid conforms to but does not contain base dataset grid" []
           else ret tt) ;;
          let* s := seti iwpad_zp (ijkpad 11%nat) (seti iwpad_zm (ijkpad 10%nat)
                     (seti iwpad_yp (ijkpad 9%nat) (seti iwpad_ym (ijkpad 8%nat)
                        (seti iwpad_xp (ijkpad 7%nat) (seti iwpad_xm (ijkpad 6%nat) s))))) in
          let* big := any_positive [s.[iwpad_xm]; s.[iwpad_xp]; s.[iwpad_ym];
                                   s.[iwpad_yp]; s.[iwpad_zm]; s.[iwpad_zp]] in
          (if negb (truthy s.[zeropad]) && big
           then ERROR_exit
                  "-iniwarp grid is bigger than base dataset grid AND you used -nopad" []
           else ret tt) ;;
          when ((1 <? s.[Hverb]) && big)
               (INFO_message
                  "-iniwarp requires dataset to be padded at least %d %d  %d %d  %d %d voxels"
                  [AInt s.[iwpad_xm]; AInt s.[iwpad_xp]; AInt s.[iwpad_ym];
                   AInt s.[iwpad_yp]; AInt s.[iwpad_zm]; AInt s.[iwpad_zp]]) ;;
          ret s
      end
  | None, _ => ret s
  | _, None => crash
  end.

(** load datasets *)
Definition main_load (s : state) : M state :=
  match dsets s bset, dsets s sset with
  | Some b, Some sd =>
      CHECK_LOAD_ERROR b ;;
      let* s := setm bim (Some (THD_extract_float_brick 0 b)) s in
      when (1 <? DSET_NVALS b)
           (INFO_message "base dataset has more than 1 sub-brick: ignoring all but the first" []) ;;
      CHECK_LOAD_ERROR sd ;;
      let* s := setm sim (Some (THD_extract_float_brick 0 sd)) s in
      (if (0 <? s.[nevox]) && negb (s.[nevox] =? DSET_NVOX b)
       then ERROR_exit "-emask doesn't match base dataset grid :-(" []
       else ret tt) ;;
      ret s
  | _, _ => crash
  end.

(** The loop that replaces the negative voxels by 0 and counts them. *)
Definition zero_negatives (ar : list F32.float) : list F32.float :=
  map (fun v => if F32.ltb v F32.zero then F32.zero else v) ar.
Definition count_negatives (ar : list F32.float) : Z :=
  Z.of_nat (length (filter (fun v => F32.ltb v F32.zero = true) ar)).

(** deal with negative values *)
Definition main_negative (s : state) : M state :=
  match imgs s bim, imgs s sim with
  | Some b, Some sm =>
      let* s := setf bmin (mri_min b) s in
      do s <- (if F32.ltb s.f[bmin] F32.zero && truthy s.[noneg] then
                 INFO_message "-noneg converted %d base voxels to 0"
                   [AInt (count_negatives (far b))] ;;
                 ret (setf bmin F32.zero
                        (setm bim (Some (mkIm (im_nx b) (im_ny b) (im_nz b)
                                              (zero_negatives (far b)))) s))
               else ret s) ;
      let* s := setf smin (mri_min sm) s in
      do s <- (if F32.ltb s.f[smin] F32.zero && truthy s.[noneg] then
                 INFO_message "-noneg converted %d source voxels to 0"
                   [AInt (count_negatives (far sm))] ;;
                 ret (setf smin F32.zero
                        (setm sim (Some (mkIm (im_nx sm) (im_ny sm) (im_nz sm)
                                              (zero_negatives (far sm)))) s))
               else ret s) ;
      if (F32.ltb s.f[bmin] F32.zero || F32.ltb s.f[smin] F32.zero)
         && (s.[meth] =? GA_MATCH_PEARCLP_SCALAR) then
        INFO_message "negative values in %s ==> using strict Pearson correlation"
          [AStr (if F32.ltb s.f[bmin] F32.zero && F32.ltb s.f[smin] F32.zero
                 then "base and source"
                 else if F32.ltb s.f[bmin] F32.zero then "base" else "source")] ;;
        ret (seti meth GA_MATCH_PEARSON_SCALAR s)
      else ret s
  | _, _ => crash
  end.

End Prepare.

(** ** [main]: zero-padding the inputs *)

Section Zeropad.
Context `{X : Extern}.

(** [if( v < lo ) v = lo] *)
Definition at_least (lo v : Z) : Z := if v <? lo then lo else v.

(** The six pad amounts, in the order xm xp ym yp zm zp. *)
Definition pads (s : state) : list Z :=
  [s.[pad_xm]; s.[pad_xp]; s.[pad_ym]; s.[pad_yp]; s.[pad_zm]; s.[pad_zp]].

(** [mri_zeropad_3D] on an image variable of [main]; the result replaces
    the image. *)
Definition zeropad_image (x : mvar) (sign : Z) (s : state) : M state :=
  match imgs s x with
  | Some im =>
      match mri_zeropad_3D (sign * s.[pad_xm]) (sign * s.[pad_xp])
                           (sign * s.[pad_ym]) (sign * s.[pad_yp])
                           (sign * s.[pad_zm]) (sign * s.[pad_zp]) im with
      | Some q => ret (setm x (Some q) s)
      | None => crash
      end
  | None => crash
  end.

(** dimensions of the universe, and: do we need to zeropad datasets? *)
Definition main_zeropad (s : state) : M state :=
  match dsets s bset, imgs s bim with
  | Some b, Some bi =>
    let* s := seti nz (DSET_NZ b) (seti nzold (DSET_NZ b)
               (seti ny (DSET_NY b) (seti nyold (DSET_NY b)
                  (seti nx (DSET_NX b) (seti nxold (DSET_NX b) s))))) in
    let* s := setf dz (F32.abs (DSET_DZ b)) (setf dy (F32.abs (DSET_DY b))
               (setf dx (F32.abs (DSET_DX b)) s)) in
    let* s := if (0 <? s.[expad]) || (0 <? s.[minpad]) then seti zeropad 1 s else s in
    if truthy s.[zeropad] then
      let* mpad_min := 9 in
      (* set threshold on base, then pad on bounding box *)
      let* cv := F32.mul (F32.lit 33 100) (THD_cliplevel bi (F32.lit 22 100)) in
      let* qim := mkIm (im_nx bi) (im_ny bi) (im_nz bi)
                      (map (fun v => if F32.ltb v cv then F32.zero else v) (far bi)) in
      let* bb := MRI_autobbox qim in
      let* bpad_xm := bb.1.1.1 in let* bpad_xp := bb.1.1.2 in
      let* bpad_ym := bb.1.2.1 in let* bpad_yp := bb.1.2.2 in
      let* bpad_zm := bb.2.1 in let* bpad_zp := bb.2.2 in
      when (1 <? s.[Hverb])
           (INFO_message "Zero-pad: base dataset autobox = %d..%d  %d..%d  %d..%d"
              [AInt bpad_xm; AInt bpad_xp; AInt bpad_ym; AInt bpad_yp;
               AInt bpad_zm; AInt bpad_zp]) ;;
      (* do NOT use the source to define zero pad amount *)
      let* spad_xm := bpad_xm in let* spad_ym := bpad_ym in let* spad_zm := bpad_zm in
      let* spad_xp := bpad_xp in let* spad_yp := bpad_yp in let* spad_zp := bpad_zp in
      (* these variables are the box in which the data is contained *)
      let* s := seti pad_xp (MAX bpad_xp spad_xp) (seti pad_xm (MIN bpad_xm spad_xm) s) in
      let* s := seti pad_yp (MAX bpad_yp spad_yp) (seti pad_ym (MIN bpad_ym spad_ym) s) in
      let* s := seti pad_zp (MAX bpad_zp spad_zp) (seti pad_zm (MIN bpad_zm spad_zm) s) in
      (* extend pad size for 3dAllineate shifts? *)
      let* sm :=
        if truthy s.[do_allin] then
          let* dm := fMIN (fMIN s.f[dx] s.f[dy]) s.f[dz] in
          let* s := setf dzal (F32.div s.f[dzal] dm) (setf dyal (F32.div s.f[dyal] dm)
                     (setf dxal (F32.div s.f[dxal] dm) s)) in
          let* dm := fMAX (fMAX s.f[dxal] s.f[dyal]) s.f[dzal] in
          (s, wrap (mpad_min + int_of_rintf (F32.mul (F32.lit 10111 10000) dm)))
        else (s, mpad_min) in
      let* s := sm.1 in let* mpad_min := sm.2 in
      (* define minimum padding for each direction *)
      let* mpad_x := MAX (int_of_rintf (F32.mul (F32.lit 1111 10000) (F32.of_Z (im_nx bi)))) mpad_min in
      let* mpad_y := MAX (int_of_rintf (F32.mul (F32.lit 1111 10000) (F32.of_Z (im_ny bi)))) mpad_min in
      let* mpad_z := MAX (int_of_rintf (F32.mul (F32.lit 1111 10000) (F32.of_Z (im_nz bi)))) mpad_min in
      (* compute padding so at least mpad_Q all-zero slices on each Q-face *)
      let* s := seti pad_xm (at_least 0 (wrap (mpad_x - s.[pad_xm]))) s in
      let* s := seti pad_ym (at_least 0 (wrap (mpad_y - s.[pad_ym]))) s in
      let* s := seti pad_zm (at_least 0 (wrap (mpad_z - s.[pad_zm]))) s in
      let* s := seti pad_xp (at_least 0 (wrap (mpad_x - wrap (wrap (im_nx bi - 1) - s.[pad_xp])))) s in
      let* s := seti pad_yp (at_least 0 (wrap (mpad_y - wrap (wrap (im_ny bi - 1) - s.[pad_yp])))) s in
      let* s := seti pad_zp (at_least 0 (wrap (mpad_z - wrap (wrap (im_nz bi - 1) - s.[pad_zp])))) s in
      when ((1 <? s.[Hverb]) && any_positive (pads s))
           (ININFO_message "dataset padding needs at least %d %d  %d %d  %d %d voxels"
              (map AInt (pads s))) ;;
      (* make sure padding is at least what is needed to fit the initial warp *)
      let* s := seti pad_xm (at_least s.[iwpad_xm] s.[pad_xm]) s in
      let* s := seti pad_xp (at_least s.[iwpad_xp] s.[pad_xp]) s in
      let* s := seti pad_ym (at_least s.[iwpad_ym] s.[pad_ym]) s in
      let* s := seti pad_yp (at_least s.[iwpad_yp] s.[pad_yp]) s in
      let* s := seti pad_zm (at_least s.[iwpad_zm] s.[pad_zm]) s in
      let* s := seti pad_zp (at_least s.[iwpad_zp] s.[pad_zp]) s in
      (* minimum padding allowed? *)
      let* s := seti pad_xm (at_least s.[minpad] s.[pad_xm]) s in
      let* s := seti pad_xp (at_least s.[minpad] s.[pad_xp]) s in
      let* s := seti pad_ym (at_least s.[minpad] s.[pad_ym]) s in
      let* s := seti pad_yp (at_least s.[minpad] s.[pad_yp]) s in
      let* s := seti pad_zm (at_least s.[minpad] s.[pad_zm]) s in
      let* s := seti pad_zp (at_least s.[minpad] s.[pad_zp]) s in
      (* extra padding ordered by the cautious user *)
      let* s := if 0 <? s.[expad] then
                 seti pad_zp (wrap (s.[pad_zp] + s.[expad]))
                   (seti pad_zm (wrap (s.[pad_zm] + s.[expad]))
                      (seti pad_yp (wrap (s.[pad_yp] + s.[expad]))
                         (seti pad_ym (wrap (s.[pad_ym] + s.[expad]))
                            (seti pad_xp (wrap (s.[pad_xp] + s.[expad]))
                               (seti pad_xm (wrap (s.[pad_xm] + s.[expad])) s)))))
               else s in
      (* but no z-padding for 2D image! *)
      do s <- (if im_nz bi =? 1 then
                 let* s := seti pad_zm 0 (seti pad_zp 0 s) in
                 (if (0 <? s.[iwpad_zm]) || (0 <? s.[iwpad_zp])
                  then ERROR_exit
                         "-iniwarp required padding in 3D but base dataset is 2D ?!?" []
                  else ret tt) ;;
                 ret s
               else ret s) ;
      (* flag to mark if any zero padding is done *)
      let* s := seti zeropad (of_bool (any_positive (pads s))) s in
      do s <-
        (if truthy s.[zeropad] then
           when (truthy s.[Hverb])
                (INFO_message
                   "Dataset zero-pad: xbot=%d xtop=%d  ybot=%d ytop=%d  zbot=%d ztop=%d voxels"
                   (map AInt (pads s))) ;;
           (* replace base image *)
           let* s := seti nzold (im_nz bi) (seti nyold (im_ny bi) (seti nxold (im_nx bi) s)) in
           do s <- zeropad_image bim 1 s ;
           (* replace source image *)
           do s <- zeropad_image sim 1 s ;
           (* also zeropad emask *)
           match Hemask s with
           | Some em =>
               match EDIT_volpad false s.[pad_xm] s.[pad_xp] s.[pad_ym] s.[pad_yp]
                                 s.[pad_zm] s.[pad_zp] s.[nxold] s.[nyold] s.[nzold] em with
               | None => ERROR_exit "zeropad of emask fails !?!" []
               | Some ezp =>
                   ret (seti nevox (match imgs s bim with
                                    | Some q => im_nvox q | None => 0 end)
                          (set_Hemask (Some ezp) s))
               end
           | None => ret s
           end
         else ret s) ;
      (* altered dimensions of universe *)
      match imgs s bim with
      | Some q => ret (seti nz (im_nz q) (seti ny (im_ny q) (seti nx (im_nx q) s)))
      | None => crash
      end
    else ret s
  | _, _ => crash
  end.

End Zeropad.

(** ** [main]: setup, weight volume, optimization *)

Section Optimize.
Context `{X : Extern}.

(** setup initial warp, if any (e.g., make it match bset) *)
Definition main_setup_iniwarp (s : state) : M state :=
  match dsets s iwset with
  | Some iws =>
      CHECK_LOAD_ERROR iws ;;
      (* we need to pad the initial warp by pad_?? - iwpad_?? *)
      let* s := seti iwpad_xp (wrap (s.[pad_xp] - s.[iwpad_xp]))
                 (seti iwpad_xm (wrap (s.[pad_xm] - s.[iwpad_xm])) s) in
      let* s := seti iwpad_yp (wrap (s.[pad_yp] - s.[iwpad_yp]))
                 (seti iwpad_ym (wrap (s.[pad_ym] - s.[iwpad_ym])) s) in
      let* s := seti iwpad_zp (wrap (s.[pad_zp] - s.[iwpad_zp]))
                 (seti iwpad_zm (wrap (s.[pad_zm] - s.[iwpad_zm])) s) in
      (* convert input dataset to index warp *)
      match IW3D_from_dataset iws with
      | None => ERROR_exit "Cannot create 3D warp from -iniwarp dataset :-(" []
      | Some w =>
          let* s := setd iwset None (set_S2BIM_iwarp (Some w) s) in
          (* pad (actually, extend in size by linear extrapolation), if needed *)
          if any_positive [s.[iwpad_xm]; s.[iwpad_xp]; s.[iwpad_ym];
                           s.[iwpad_yp]; s.[iwpad_zm]; s.[iwpad_zp]] then
            let* QQ := IW3D_extend w s.[iwpad_xm] s.[iwpad_xp] s.[iwpad_ym]
                                  s.[iwpad_yp] s.[iwpad_zm] s.[iwpad_zp] in
            when (truthy s.[Hverb])
                 (ININFO_message
                    "Extended/padded iniwarp to match base volume: %d %d  %d %d  %d %d voxels"
                    [AInt s.[iwpad_xm]; AInt s.[iwpad_xp]; AInt s.[iwpad_ym];
                     AInt s.[iwpad_yp]; AInt s.[iwpad_zm]; AInt s.[iwpad_zp]]) ;;
            ret (set_S2BIM_iwarp (Some QQ) s)
          else ret s
      end
  | None => ret (set_S2BIM_iwarp None s)
  end.

(** other initial setup stuff *)
Definition main_setup (s : state) : M state :=
  let* s := seti S2BIM_mlev (MAX s.[mlev] s.[ilev]) (seti S2BIM_ilev s.[ilev] s) in
  (* find largest dimension bigger than min grid allowed for warping *)
  let* s := seti nnn 0 s in
  let* s := if NGMIN <=? s.[nx] then seti nnn s.[nx] s else s in
  let* s := if (NGMIN <=? s.[ny]) && (s.[nnn] <? s.[ny]) then seti nnn s.[ny] s else s in
  let* s := if (NGMIN <=? s.[nz]) && (s.[nnn] <? s.[nz]) then seti nnn s.[nz] s else s in
  (if s.[nnn] =? 0
   then ERROR_exit "dataset grid size %d x %d x %d is too small for warping"
          [AInt s.[nx]; AInt s.[ny]; AInt s.[nz]]
   else ret tt) ;;
  (* minimum patch size *)
  let* s := if 0 <? s.[minpatch] then seti Hngmin s.[minpatch] s else s in
  if truthy s.[duplo]
     && ((s.[nx] <? wrap (3 * s.[Hngmin])) || (s.[ny] <? wrap (3 * s.[Hngmin]))
         || (s.[nz] <? wrap (3 * s.[Hngmin])))
  then
    INFO_message "-duplo disabled since dataset is small: %d x %d x %d"
      [AInt s.[nx]; AInt s.[ny]; AInt s.[nz]] ;;
    ININFO_message " smallest size allowed for -duplo is    %d x %d x %d"
      [AInt (wrap (3 * s.[Hngmin])); AInt (wrap (3 * s.[Hngmin]));
       AInt (wrap (3 * s.[Hngmin]))] ;;
    ININFO_message " ['small' is relative to the minimum patch size you set = %d]"
      [AInt s.[Hngmin]] ;;
    ret (seti duplo 0 s)
  else ret s.

(** create weight volume *)
Definition main_weight (s : state) : M state :=
  match imgs s wbim, imgs s bim with
  | None, Some bi =>
      (* construct from base image *)
      do w <- mri_weightize s.[Hverb] bi s.[auto_weight] s.[auto_dilation]
                            s.f[auto_wclip] s.f[auto_wpow] ;
      ret (setm wbim (Some w) s)
  | Some _, _ =>
      (* just read user input *)
      do s <- (if truthy s.[zeropad] then zeropad_image wbim 1 s else ret s) ;
      match imgs s wbim with
      | Some w =>
          if negb (im_nx w =? s.[nx]) || negb (im_ny w =? s.[ny]) || negb (im_nz w =? s.[nz])
          then ERROR_exit "-weight image doesn't match -base image grid" []
          else ret s
      | None => crash
      end
  | None, None => crash
  end.

(** The loop that rescales the weights. *)
Definition scale_weights (fac : F32.float) (wt : list F32.float) : list F32.float :=
  map (fun w => if F32.leb w F32.zero then F32.zero else F32.mul fac w) wt.

(** scale weight volume so max value is 1 (and is all non-negative) *)
Definition main_scale_weight (s : state) : M state :=
  match imgs s wbim with
  | Some w =>
      let* fac := mri_max w in
      (if F32.leb fac F32.zero then ERROR_exit "weight volume is not positive?!" []
       else ret tt) ;;
      let* fac := F32.div F32.one fac in
      ret (setm wbim (Some (mkIm (im_nx w) (im_ny w) (im_nz w) (scale_weights fac (far w)))) s)
  | None => crash
  end.

(** blur base here if so ordered (source is blurred in warpomatic) *)
Definition main_blur_base (s : state) : M state :=
  match imgs s bim with
  | Some bi =>
      if F32.leb (F32.lit 5 10) s.f[Hblur_b] && negb (truthy s.[do_plusminus]) then
        when (1 <? s.[Hverb])
             (ININFO_message "   blurring base image %.3g voxels FWHM" [AFlt s.f[Hblur_b]]) ;;
        ret (setm bim (Some (mri_float_blur3D (FWHM_TO_SIGMA s.f[Hblur_b]) bi)) s)
      else if F32.leb s.f[Hblur_b] (SFopp F32.one) && negb (truthy s.[do_plusminus]) then
        when (1 <? s.[Hverb])
             (ININFO_message "   median-izing base image %.3g voxels" [AFlt (SFopp s.f[Hblur_b])]) ;;
        ret (setm bim (Some (mri_medianfilter bi (SFopp s.f[Hblur_b]) None)) s)
      else ret s
  | None => crash
  end.

(** A call of one of the warp-optimizing functions of mri_nwarp.c, on the
    grid of the base image and with the minimum patch size [Hngmin] (a
    global variable of mri_nwarp.c) that is in force. *)
Definition optimizing (engine : string) (bi : MRI_IMAGE) (s : state) : M unit :=
  emit (Optimize engine (im_nx bi) (im_ny bi) (im_nz bi) s.[Hngmin]).

(** do some actual work! *)
Definition main_optimize (s : state) : M state :=
  match imgs s bim, imgs s wbim, imgs s sim, dsets s bset, dsets s sset with
  | Some bi, Some wi, Some si, Some b, Some sd =>
      when (truthy s.[Hverb])
           (INFO_message "+++++++++++ Begin warp optimization:  base=%s  source=%s"
              [AStr (DSET_HEADNAME b); AStr (DSET_HEADNAME sd)]) ;;
      do s <-
        (if truthy s.[do_plusminus] then
           (* special case of plusminus warp *)
           optimizing "IW3D_warp_s2bim_plusminus" bi s ;;
           let* sbww := IW3D_warp_s2bim_plusminus s bi wi si s.[meth] s.[flags] in
           ret (setw qiw sbww.2 (setw oiw sbww.1 s))
         else
           (* the standard case *)
           let* s := setw qiw None s in
           if truthy s.[duplo] then
             optimizing "IW3D_warp_s2bim_duplo" bi s ;;
             ret (setw oiw (IW3D_warp_s2bim_duplo s bi wi si s.[meth] s.[flags]) s)
           else
             optimizing "IW3D_warp_s2bim" bi s ;;
             ret (setw oiw (IW3D_warp_s2bim s bi wi si s.[meth] s.[flags]) s)) ;
      (* check for errorosities *)
      (if notnull (ipws s oiw) then ret tt else ERROR_exit "s2bim fails" []) ;;
      INFO_message "========== total number of parameters 'optimized' = %d" [] ;;
      ret (setm wbim None s)
  | _, _, _, _, _ => crash
  end.

End Optimize.

(** ** [main]: post-processing and output *)

Section Output.
Context `{X : Extern}.

(** The un-zero-padding of one result: the image is cropped when it is
    bigger than the original grid, the warp when [-nopadWARP] was given. *)
Definition unzeropad_result (talk : bool) (s : state) (o : Image_plus_Warp)
    : M Image_plus_Warp :=
  (* crop the output image (maybe) *)
  do o <-
    (if (s.[nxold] <? im_nx (iw_im o)) || (s.[nyold] <? im_ny (iw_im o))
        || (s.[nzold] <? im_nz (iw_im o)) then
       when (talk && (1 <? s.[Hverb]))
            (INFO_message "un-zero-padding output volume back to original base grid" []) ;;
       match mri_zeropad_3D (- s.[pad_xm]) (- s.[pad_xp]) (- s.[pad_ym]) (- s.[pad_yp])
                            (- s.[pad_zm]) (- s.[pad_zp]) (iw_im o) with
       | Some q => ret (mkIW q (iw_warp o))
       | None => crash
       end
     else ret o) ;
  (* crop the output warp (maybe) *)
  if negb (truthy s.[zeropad_warp]) then
    when (talk && (1 <? s.[Hverb]))
         (ININFO_message "un-zero-padding warp back to original base grid" []) ;;
    ret (mkIW (iw_im o)
              (IW3D_extend (iw_warp o) (- s.[pad_xm]) (- s.[pad_xp]) (- s.[pad_ym])
                           (- s.[pad_yp]) (- s.[pad_zm]) (- s.[pad_zp])))
  else ret o.

(** un-zeropad the output stuff, if needed and desired *)
Definition main_unzeropad (s : state) : M state :=
  if truthy s.[zeropad] then
    match ipws s oiw with
    | Some o =>
        do o <- unzeropad_result true s o ;
        let* s := setw oiw (Some o) s in
        (* same stuff for the plusminus warp results as well *)
        match ipws s qiw with
        | Some q => do q <- unzeropad_result false s q ; ret (setw qiw (Some q) s)
        | None => ret s
        end
    | None => crash
    end
  else ret s.

(** [IW3D_adopt_dataset(warp,dset)] *)
Definition IW3D_adopt_dataset (w : IndexWarp3D) (d : option THD_3dim_dataset)
    : IndexWarp3D :=
  mkWarp (iw_nx w) (iw_ny w) (iw_nz w) (iw_xd w) (iw_yd w) (iw_zd w)
         (match d with
          | Some d => Some (DSET_NX d, DSET_NY d, DSET_NZ d)
          | None => iw_geom w
          end).

(** [THD_zeropad(dset,...,ZPAD_IJK|ZPAD_EMPTY)]: an empty dataset on the
    enlarged grid. *)
Definition THD_zeropad (d : THD_3dim_dataset) (xm xp ym yp zm zp : Z)
    : THD_3dim_dataset :=
  mkDset (DSET_NX d + xm + xp) (DSET_NY d + ym + yp) (DSET_NZ d + zm + zp)
         (DSET_DX d) (DSET_DY d) (DSET_DZ d) [] "" "BSET_zeropadded" false.

Definition adopt (x : wvar) (s : state) : state :=
  match ipws s x with
  | Some o => setw x (Some (mkIW (iw_im o) (IW3D_adopt_dataset (iw_warp o) (dsets s adset)))) s
  | None => s
  end.

(** make the warps adopt a dataset to specify their extrinsic geometry *)
Definition main_adopt (s : state) : M state :=
  match dsets s bset with
  | Some b =>
      let* s := if negb (truthy s.[zeropad_warp]) then setd adset (Some b) s
               else setd adset (Some (THD_zeropad b s.[pad_xm] s.[pad_xp] s.[pad_ym]
                                                  s.[pad_yp] s.[pad_zm] s.[pad_zp])) s in
      ret (adopt qiw (adopt oiw s))
  | None => crash
  end.

(** Special case of pre-3dAllineate: adjust output warp and image *)
Definition main_allin_adjust (s : state) : M state :=
  if truthy s.[do_allin] || truthy s.[do_resam] then
    match ipws s oiw, dsets s bset, dsets s sstrue with
    | Some o, Some b, Some st =>
        (* adjust warp for 3dAllineate matrix that came earlier *)
        let* o := if truthy s.[do_allin]
                 then mkIW (iw_im o)
                           (IW3D_adopt_dataset
                              (IW3D_compose_w1m2 (iw_warp o) (allin_matrix s))
                              (dsets s adset))
                 else o in
        let* s := setw oiw (Some o) s in
        (* directly warp from original source dataset to output image *)
        if negb (truthy s.[nodset]) then
          match THD_nwarp_dataset (iw_warp o) st b with
          | None => ERROR_exit "Can't warp from original dataset for some reason :-(" []
          | Some iset =>
              let* iim := THD_extract_float_brick 0 iset in
              (* clipping *)
              let* iim := if truthy s.[noneg] && F32.ltb (mri_min iim) F32.zero
                         then mkIm (im_nx iim) (im_ny iim) (im_nz iim)
                                   (zero_negatives (far iim))
                         else iim in
              ret (setw oiw (Some (mkIW iim (iw_warp o))) s)
          end
        else ret s
    | _, _, _ => crash
    end
  else ret s.

Definition write_image (name : string) (b : THD_3dim_dataset) (im : MRI_IMAGE) : M unit :=
  DSET_write name (DSET_NX b) (DSET_NY b) (DSET_NZ b) (im_nx im) (im_ny im) (im_nz im).

Definition write_warp (name : string) (w : IndexWarp3D) : M unit :=
  DSET_write name (iw_nx w) (iw_ny w) (iw_nz w) (iw_nx w) (iw_ny w) (iw_nz w).

(** finally, output some results to pacify the user *)
Definition main_output (s : state) : M unit :=
  match ipws s oiw, dsets s bset with
  | Some o, Some b =>
      let* pre := str s prefix in
      (* output warped dataset *)
      (if negb (truthy s.[nodset]) then
         let* qprefix := if truthy s.[do_plusminus]
                        then modify_afni_prefix pre ("_" +:+ str s plusname) else pre in
         write_image qprefix b (iw_im o) ;;
         match ipws s qiw with
         | Some q =>
             when (truthy s.[do_plusminus])
                  (write_image (modify_afni_prefix pre ("_" +:+ str s minusname)) b (iw_im q))
         | None => ret tt
         end
       else ret tt) ;;
      (* output the warp itself *)
      (if negb (truthy s.[nowarp]) then
         let* qprefix := if truthy s.[do_plusminus]
                        then modify_afni_prefix pre ("_" +:+ str s plusname +:+ "_WARP")
                        else modify_afni_prefix pre "_WARP" in
         write_warp qprefix (iw_warp o) ;;
         match ipws s qiw with
         | Some q =>
             when (truthy s.[do_plusminus])
                  (write_warp (modify_afni_prefix pre ("_" +:+ str s minusname +:+ "_WARP"))
                              (iw_warp q))
         | None => ret tt
         end
       else ret tt) ;;
      (* output the inverse warp *)
      (if negb (truthy s.[nowarpi]) && negb (truthy s.[do_plusminus]) then
         when (truthy s.[Hverb]) (INFO_message "Inverting warp" []) ;;
         let* owwi := IW3D_adopt_dataset (IW3D_invert (iw_warp o)) (dsets s adset) in
         write_warp (modify_afni_prefix pre "_WARPINV") owwi
       else ret tt) ;;
      INFO_message "===== clock time =%s" []
  | _, _ => crash
  end.

(** Everything in [main] before the section "other initial setup stuff". *)
Definition main_front (argv : list string) : M state :=
  do sr <- parse_options argv ;
  do s <- check_errors sr.2 sr.1 ;
  do sr <- read_inputs sr.2 s ;
  do s <- main_allineate sr.1 ;
  main_check_grids s ;;
  do s <- main_iniwarp s ;
  do s <- main_load s ;
  do s <- main_negative s ;
  do s <- main_zeropad s ;
  main_setup_iniwarp s.

(** The rest of [main]. *)
Definition main_back (s : state) : M unit :=
  do s <- main_setup s ;
  do s <- main_weight s ;
  do s <- main_scale_weight s ;
  do s <- main_blur_base s ;
  do s <- main_optimize s ;
  do s <- main_unzeropad s ;
  do s <- main_adopt s ;
  do s <- main_allin_adjust s ;
  main_output s ;;
  exit 0.

(** [main], on the command line without the program name: the exit
    status and the world that the program leaves. *)
Definition main (argv : list string) (w : world) : Z * world :=
  match (do s <- main_front argv ; main_back s) w with
  | (Exit n, w') => (n, w')
  | (Ret _, w') => (0, w')
  end.

End Output.

(** ** A small concrete world, on which the model runs *)

Module Demo.

(** A decimal integer at the start of a string, as [strtod] reads it
    (fractions and exponents are not needed by the examples). *)
Fixpoint digits (acc : Z) (s : string) : Z :=
  match s with
  | String c r =>
      if isdigit c then digits (10 * acc + Z.of_nat (nat_of_ascii c) - 48) r else acc
  | EmptyString => acc
  end.

Definition strtod_dec (s : string) : F64.float :=
  match s with
  | String "-" r => F64.of_Z (- digits 0 r)
  | String "+" r => F64.of_Z (digits 0 r)
  | _ => F64.of_Z (digits 0 s)
  end.

Definition same_grid (a b : THD_3dim_dataset) : bool :=
  (DSET_NX a =? DSET_NX b) && (DSET_NY a =? DSET_NY b) && (DSET_NZ a =? DSET_NZ b).

Definition extend (w : IndexWarp3D) (xm xp ym yp zm zp : Z) : IndexWarp3D :=
  mkWarp (iw_nx w + xm + xp) (iw_ny w + ym + yp) (iw_nz w + zm + zp) [] [] [] (iw_geom w).

(** An optimizer that finds the identity warp: the warped image is the
    source image, on the grid it was given. *)
Definition s2bim (s : state) (bi wi si : MRI_IMAGE) (m f : Z) : option Image_plus_Warp :=
  Some (mkIW si (mkWarp (im_nx bi) (im_ny bi) (im_nz bi) [] [] [] None)).

Definition nwarp (w : IndexWarp3D) (src master : THD_3dim_dataset)
    : option THD_3dim_dataset :=
  Some (mkDset (DSET_NX master) (DSET_NY master) (DSET_NZ master)
               (DSET_DX master) (DSET_DY master) (DSET_DZ master)
               [replicate (Z.to_nat (DSET_NVOX master)) F32.zero] "" "warped" true).

(** The collaborators, with a subprocess that exits with [status] and
    turns the file system [fs] into [run fs]. *)
Definition extern (status : Z) (run : gmap string file -> gmap string file) : Extern := {|
  strtod := strtod_dec;
  Hglobal_init := fun v => match v with Hverb => 1 | _ => 0 end;
  fglobal_init := fun _ => F32.zero;
  Hpen_fbase := F64.of_Z 1;
  UNIQ_idcode := "XYZ_uniq";
  system := fun _ fs => (status, run fs);
  EQUIV_GRIDXYZ := same_grid;
  EQUIV_DSETS := fun a b => String.eqb (DSET_idcode a) (DSET_idcode b);
  THD_makemask := fun d =>
    Some (map (fun v => negb (F32.eqb v F32.zero)) (default [] (DSET_bricks d !! 0%nat)));
  IW3D_read_catenated_warp := fun _ _ => None;
  DSET_BRICK_TYPE_is_float := fun _ => true;
  THD_conformist := fun _ _ => (0, replicate 12 0);
  THD_cliplevel := fun im _ => mri_max im;
  MRI_autobbox := fun im => ((0, im_nx im - 1), (0, im_ny im - 1), (0, im_nz im - 1));
  IW3D_from_dataset := fun _ => None;
  IW3D_extend := extend;
  mri_medianfilter := fun im _ _ => im;
  FIR_blur_volume_3d := fun _ _ _ v _ => v;
  THD_mask_clust := fun _ _ _ m => m;
  THD_mask_erode := fun _ _ _ m => m;
  THD_mask_dilate := fun _ _ _ m => m;
  THD_mask_fillin_once := fun _ _ _ m => m;
  powf := fun x _ => x;
  FWHM_TO_SIGMA := fun x => x;
  mri_float_blur3D := fun _ im => im;
  IW3D_warp_s2bim := s2bim;
  IW3D_warp_s2bim_duplo := s2bim;
  IW3D_warp_s2bim_plusminus := fun s bi wi si m f => (s2bim s bi wi si m f, s2bim s bi wi si m f);
  IW3D_compose_w1m2 := fun w _ => w;
  THD_nwarp_dataset := nwarp;
  IW3D_invert := fun w => w;
  modify_afni_prefix := fun p suf => p +:+ suf
|}.

(** Datasets with one voxel, and the files that hold them. *)
Definition dset1 (name : string) (v : Z) : THD_3dim_dataset :=
  mkDset 1 1 1 F32.one F32.one F32.one [[F32.of_Z v]] name name true.

(** A dataset of 12 x 1 x 1 voxels, all of value [v]. *)
Definition dset12 (name : string) (v : Z) : THD_3dim_dataset :=
  mkDset 12 1 1 F32.one F32.one F32.one [replicate 12 (F32.of_Z v)] name name true.

Definition files : gmap string file :=
  <["base" := FDataset (dset1 "base" 5)]>
    (<["src" := FDataset (dset1 "src" 7)]>
       (<["neg" := FDataset (dset1 "neg" (-3))]>
          (<["wide" := FDataset (dset12 "wide" 2)]> ∅))).

Definition world0 : world := mkWorld files [].

(** The collaborators with a subprocess that succeeds and writes nothing. *)
Definition X0 : Extern := extern 0 (fun fs => fs).

End Demo.

(** ** Vocabulary of the specifications *)

(** Weakest preconditions for the monad of [main]: the computation [m]
    started in world [w] either returns a value that satisfies [Q] or exits
    the program in a world that satisfies [E]. *)
Definition wp {A} (m : M A) (w : world) (Q : A -> world -> Prop) (E : world -> Prop) : Prop :=
  match m w with
  | (Ret a, w') => Q a w'
  | (Exit _, w') => E w'
  end.

(** The image has a voxel below zero. *)
Definition has_negative (ar : list F32.float) : bool :=
  existsb (fun v => F32.ltb v F32.zero) ar.

(** The number is below zero: minus infinity, or finite with the sign set. *)
Definition negative (x : spec_float) : bool :=
  match x with
  | S754_infinity true | S754_finite true _ _ => true
  | _ => false
  end.

(** The sign bit of the number is not set (or it is not a number). *)
Definition sign_clear (x : spec_float) : Prop :=
  match x with
  | S754_zero sg | S754_infinity sg | S754_finite sg _ _ => sg = false
  | S754_nan => True
  end.

(** An event that is neither an optimization nor the output of a dataset. *)
Definition quiet_event (e : event) : Prop :=
  match e with
  | Message _ _ _ | Subprocess _ _ => True
  | Optimize _ _ _ _ _ | Written _ _ _ _ _ _ _ => False
  end.

(** Every event of the log satisfies [P]. *)
Definition logged (P : event -> Prop) (w : world) : Prop := Forall P (w_log w).

(** Nothing was optimized and no dataset was written so far. *)
Definition quiet (w : world) : Prop := logged quiet_event w.

(** An event that is no output of a dataset. *)
Definition unwritten_event (e : event) : Prop :=
  match e with
  | Written _ _ _ _ _ _ _ => False
  | _ => True
  end.

(** The optimization ran with a minimum patch size that is odd and at
    least [NGMIN]. *)
Definition patch_event (e : event) : Prop :=
  match e with
  | Optimize _ _ _ _ ng => NGMIN <= ng /\ Z.odd ng = true
  | _ => True
  end.

(** The data of a dataset that was written are on the grid of its header. *)
Definition on_grid_event (e : event) : Prop :=
  match e with
  | Written _ gx gy gz bx by_ bz => bx = gx /\ by_ = gy /\ bz = gz
  | _ => True
  end.

(** The value of [minpatch] is the initial 0 or an odd number from [NGMIN] on. *)
Definition minpatch_ok (s : state) : Prop :=
  s.[minpatch] = 0 \/ (NGMIN <= s.[minpatch] /\ Z.odd s.[minpatch] = true).

(** What [-minpatch] makes of its argument. *)
Definition minpatch_clamp (v : Z) : Z :=
  if v <? NGMIN then NGMIN else if Z.rem v 2 =? 0 then v - 1 else v.

(** What [-maxlev] makes of its argument. *)
Definition maxlev_clamp (v : Z) : Z :=
  if v <? 0 then 0 else if 99 <? v then 99 else v.

(** The assignments of the option [-lpc]. *)
Definition lpc_effect (s : state) : state :=
  seti mlev 0 (seti meth_is_lpc 1 (seti Hzeasy 1 (seti meth GA_MATCH_PEARSON_LOCALS s))).

(** Before the setup: [minpatch] is as the options leave it and [Hngmin]
    has its initial value. *)
Definition ngmin_inv (s : state) : Prop :=
  minpatch_ok s /\ s.[Hngmin] = Hngmin_default.

(** The minimum patch size in use is odd and at least [NGMIN]. *)
Definition ngmin_used (s : state) : Prop :=
  NGMIN <= s.[Hngmin] /\ Z.odd s.[Hngmin] = true.

(** The image is a volume: its array holds nx*ny*nz voxels. *)
Definition volume (im : MRI_IMAGE) : Prop :=
  0 < im_nx im /\ 0 < im_ny im /\ 0 < im_nz im
  /\ im_nvox im = im_nx im * im_ny im * im_nz im.

(** Examples of images and states, for the concrete instances below. *)
Definition im3 : MRI_IMAGE :=
  mkIm 3 1 1 [F32.of_Z 4; F32.of_Z (-2); F32.of_Z 0].
Definition im41 : MRI_IMAGE := mkIm 1 1 1 [F32.of_Z 41].
Definition with_images (b sm : MRI_IMAGE) : state :=
  setm sim (Some sm) (setm bim (Some b) (@init_state Demo.X0)).
Definition with_weight (wt : MRI_IMAGE) : state :=
  setm wbim (Some wt) (@init_state Demo.X0).

(** The number of voxels below zero. *)
Definition negatives (ar : list F32.float) : Z :=
  Z.of_nat (length (filter (fun v => negative v = true) ar)).

(** The image [q] is the image [im] with every voxel below zero replaced
    by zero: the grid and the number of voxels are those of [im], and a
    voxel that is not below zero is as it was. *)
Definition clipped (im q : MRI_IMAGE) : Prop :=
  im_nx q = im_nx im /\ im_ny q = im_ny im /\ im_nz q = im_nz im
  /\ length (far q) = length (far im)
  /\ forall (i : nat) v, far im !! i = Some v ->
                         far q !! i = Some (if negative v then F32.zero else v).

(** What [-noneg] reports on the image called [name]. *)
Definition converted (name : string) (ar : list F32.float) : list event :=
  if has_negative ar
  then [Message INFO ("-noneg converted %d " +:+ name +:+ " voxels to 0") [AInt (negatives ar)]]
  else [].

(** The images whose negative values are reported. *)
Definition negative_images (b sm : MRI_IMAGE) : string :=
  if has_negative (far b) && has_negative (far sm) then "base and source"
  else if has_negative (far b) then "base" else "source".

Definition with_noneg (b sm : MRI_IMAGE) : state :=
  seti noneg 1 (with_images b sm).

(** Weight volumes whose maximum is the smallest positive number, and
    plus infinity. *)
Definition im_tiny : MRI_IMAGE := mkIm 1 1 1 [S754_finite false 1 (-149)].
Definition im_inf : MRI_IMAGE := mkIm 2 1 1 [S754_infinity false; F32.of_Z 3].

(** A weight volume without a voxel above zero. *)
Definition im_zero : MRI_IMAGE := mkIm 2 1 1 [F32.zero; F32.of_Z (-1)].

(** The errors that the checks after the options count, in their order. *)
Definition fatal_errors (rest : list string) (s : state) : list bool :=
  [ s.[flags] =? NWARP_NODISP_FLAG;
    negb (notnull (dsets s bset)) && negb (notnull (dsets s sset)) && (length rest <? 2)%nat;
    truthy s.[do_allin] && truthy s.[do_plusminus];
    truthy s.[do_allin] && notnull s.s[iwname];
    truthy s.[do_allin] && (0 <? s.[ilev]);
    notnull s.s[iwname] && truthy s.[duplo];
    (negb (s.[ilev] =? 0) || (s.[mlev] <? 99)) && truthy s.[duplo];
    notnull (dsets s bset) && negb (notnull (dsets s sset));
    negb (notnull (dsets s bset)) && notnull (dsets s sset) ].

Definition fatal_error (rest : list string) (s : state) : bool :=
  existsb id (fatal_errors rest s).

(** The conflicts that are resolved by turning an option off. *)
Definition resolve (s : state) : state :=
  let* s := seti nbad 0 s in
  let* s := if truthy s.[do_allin] && truthy s.[do_resam] then seti do_resam 0 s else s in
  let* s := if truthy s.[do_plusminus] && truthy s.[duplo] then seti duplo 0 s else s in
  if truthy s.[Hznoq] && truthy s.[Hqonly] then seti Hznoq 0 s
  else if truthy s.[Hznoq] && truthy s.[Hqfinal] then seti Hznoq 0 s
  else s.

(** A message that is no error. *)
Definition mild (e : event) : Prop :=
  match e with
  | Message INFO _ _ | Message ININFO _ _ | Message WARNING _ _ => True
  | _ => False
  end.

(** The variables that the error checks read have their values of [s]. *)
Definition agree (s s' : state) : Prop :=
  s'.[flags] = s.[flags] /\ s'.[do_allin] = s.[do_allin]
  /\ s'.[do_plusminus] = s.[do_plusminus] /\ s'.[ilev] = s.[ilev]
  /\ s'.[mlev] = s.[mlev] /\ s'.[duplo] = s.[duplo]
  /\ s'.s[iwname] = s.s[iwname] /\ dsets s' = dsets s.

(** After a check of the condition [c] in the state [sp]: the count of
    errors did not go down, and stayed only if [c] is false. *)
Definition step_inv (s sp : state) (c : bool) (s' : state) : Prop :=
  agree s s' /\ sp.[nbad] <= s'.[nbad] /\ (s'.[nbad] <= sp.[nbad] -> c = false).

(** The computation leaves the program with status 1 only. *)
Definition exits1 {A} (m : M A) : Prop :=
  forall w n w', m w = (Exit n, w') -> n = 1.

(** The command line that [Qallineate] hands to [system]. *)
Definition Qallineate_command `{X : Extern} (verb : Z) (basname srcname : string)
    (emkname allopt : option string) : string :=
  let* cmd := ("3dAllineate -base " +:+ basname +:+ " -source " +:+ srcname
              +:+ " -prefix " +:+ UNIQ_idcode +:+ ".nii -1Dmatrix_save " +:+ UNIQ_idcode
              +:+ " -cmass -final wsinc5 -float -master BASE") in
  let* cmd := (if verb =? 0 then cmd +:+ " -quiet"
              else if (verb =? 3) || (verb =? 2) then cmd +:+ " -verb"
              else cmd) in
  let* cmd := match emkname with
             | Some e => (cmd +:+ " -emask " +:+ e)
             | None => cmd
             end in
  let* cmd := match allopt with
             | Some o => if negb (String.eqb o "") then (cmd +:+ " " +:+ o) else cmd
             | None => cmd
             end in
  match allopt with
  | Some o => if notnull (strstr o "-fineblur") then cmd
              else (cmd +:+ " -fineblur 4.44")
  | None => (cmd +:+ " -fineblur 4.44")
  end.

(** The command line that [Qallin_resample] hands to [system]. *)
Definition Qallin_resample_command `{X : Extern} (basname srcname : string) : string :=
  "3dAllineate -master " +:+ basname +:+ " -source " +:+ srcname
  +:+ " -prefix " +:+ UNIQ_idcode
  +:+ ".nii -final wsinc5 -float -quiet -1Dparam_apply '1D: 12@0'\'".

(** The options that the prolegomenon of [main] hands to [Qallineate]:
    those of [-allineate_opts], with [-zclip] under [-noneg] and with the
    options of [-allfast]. *)
Definition allineate_opts (s : state) : option string :=
  let* o := if negb (truthy s.[do_allin]) && notnull s.s[allopt] then None else s.s[allopt] in
  let* o := if truthy s.[do_allin] && truthy s.[noneg] then allopt_cat o " -zclip" else o in
  if s.[do_allin] =? 2 then allopt_cat o " -norefinal -onepass -conv 1.0" else o.

(** The command that the prolegomenon of [main] runs in the state [s]. *)
Definition allineate_command `{X : Extern} (s : state) : string :=
  if truthy s.[do_allin]
  then Qallineate_command s.[Hverb] (str s bsname) (str s ssname) s.s[esname]
                          (allineate_opts s)
  else Qallin_resample_command (str s bsname) (str s ssname).

(** The collaborators [X] with another subprocess: [sys] gives the exit
    status and the files that a command leaves. *)
Definition with_system (X : Extern)
    (sys : string -> gmap string file -> Z * gmap string file) : Extern := {|
  strtod := @strtod X;
  Hglobal_init := @Hglobal_init X;
  fglobal_init := @fglobal_init X;
  Hpen_fbase := @Hpen_fbase X;
  UNIQ_idcode := @UNIQ_idcode X;
  system := sys;
  EQUIV_GRIDXYZ := @EQUIV_GRIDXYZ X;
  EQUIV_DSETS := @EQUIV_DSETS X;
  THD_makemask := @THD_makemask X;
  IW3D_read_catenated_warp := @IW3D_read_catenated_warp X;
  DSET_BRICK_TYPE_is_float := @DSET_BRICK_TYPE_is_float X;
  THD_conformist := @THD_conformist X;
  THD_cliplevel := @THD_cliplevel X;
  MRI_autobbox := @MRI_autobbox X;
  IW3D_from_dataset := @IW3D_from_dataset X;
  IW3D_extend := @IW3D_extend X;
  mri_medianfilter := @mri_medianfilter X;
  FIR_blur_volume_3d := @FIR_blur_volume_3d X;
  THD_mask_clust := @THD_mask_clust X;
  THD_mask_erode := @THD_mask_erode X;
  THD_mask_dilate := @THD_mask_dilate X;
  THD_mask_fillin_once := @THD_mask_fillin_once X;
  powf := @powf X;
  FWHM_TO_SIGMA := @FWHM_TO_SIGMA X;
  mri_float_blur3D := @mri_float_blur3D X;
  IW3D_warp_s2bim := @IW3D_warp_s2bim X;
  IW3D_warp_s2bim_duplo := @IW3D_warp_s2bim_duplo X;
  IW3D_warp_s2bim_plusminus := @IW3D_warp_s2bim_plusminus X;
  IW3D_compose_w1m2 := @IW3D_compose_w1m2 X;
  THD_nwarp_dataset := @THD_nwarp_dataset X;
  IW3D_invert := @IW3D_invert X;
  modify_afni_prefix := @modify_afni_prefix X
|}.

(** A subprocess that fails on the commands that start with [3dAllineate],
    and one that runs them and leaves the dataset [d] and a matrix in the
    files named after [id]; other commands do nothing. *)
Definition failing_allineate : Extern :=
  with_system Demo.X0
    (fun cmd fs => (if String.prefix "3dAllineate " cmd then 1 else 0, fs)).

Definition working_allineate (id : string) (d : THD_3dim_dataset) : Extern :=
  with_system Demo.X0
    (fun cmd fs =>
       (0, if String.prefix "3dAllineate -base " cmd
           then <[id +:+ ".aff12.1D" := F1D (replicate 12 F32.zero)]>
                  (<[id +:+ ".nii" := FDataset d]> fs)
           else fs)).

(** The image is on the grid of [nx] x [ny] x [nz] voxels. *)
Definition on_grid (im : MRI_IMAGE) (gx gy gz : Z) : Prop :=
  im_nx im = gx /\ im_ny im = gy /\ im_nz im = gz.

(** The image is on the grid that the zero-padding made: the grid before,
    with the pad amounts added. *)
Definition on_padded_grid (s : state) (im : MRI_IMAGE) : Prop :=
  on_grid im (s.[nxold] + s.[pad_xm] + s.[pad_xp]) (s.[nyold] + s.[pad_ym] + s.[pad_yp])
          (s.[nzold] + s.[pad_zm] + s.[pad_zp]).

(** The weight is 1 or zero. *)
Definition binary_weight (v : F32.float) : Prop :=
  v = F32.one \/ F32.eqb v F32.zero = true.

(** A call of the optimization. *)
Definition is_optimize (e : event) : Prop :=
  match e with
  | Optimize _ _ _ _ _ => True
  | _ => False
  end.

(** The first event of the log that is no message and no subprocess is a
    call of the optimization. *)
Definition started (w : world) : Prop :=
  exists l1 e l2, w_log w = l1 ++ e :: l2 /\ Forall quiet_event l1 /\ is_optimize e.

(** The minimum patch size that the setup puts in force: the value of
    [-minpatch] when one was given, the initial [Hngmin] otherwise. *)
Definition patch_floor (s : state) : Z :=
  if 0 <? s.[minpatch] then s.[minpatch] else s.[Hngmin].

(** The optimization ran with the minimum patch size [m]. *)
Definition floor_event (m : Z) (e : event) : Prop :=
  match e with
  | Optimize _ _ _ _ ng => ng = m
  | _ => True
  end.

(** The two variables of the minimum patch size have the values [m] and [h]. *)
Definition floor_inv (m h : Z) (s : state) : Prop :=
  s.[minpatch] = m /\ s.[Hngmin] = h.

(** Modelled from the spec: the levels of the patch scheduler (the level
    engine of mri_nwarp.c, which is not among the sources). Level 0 has
    one patch, the whole volume; the patch size of a further level is 0.75
    times the patch size of the level before (here rounded down, the spec
    gives no rounding); a level whose patch size would fall below the
    minimum patch size is not attempted, and no level after it, nor a
    level beyond the maximum level. [level_sizes ngmin levels size] is the
    list of the patch sizes of the levels that follow a level of patch
    size [size], when [levels] more levels are allowed. *)
Fixpoint level_sizes (ngmin : Z) (levels : nat) (size : Z) : list Z :=
  match levels with
  | O => []
  | S n =>
      let* next := 3 * size / 4 in
      if next <? ngmin then [] else next :: level_sizes ngmin n next
  end.

(** No level after level 0 that the optimization schedules has a patch
    size below the minimum patch size it was called with, nor below the
    hard floor [NGMIN]. *)
Definition scheduled_event (e : event) : Prop :=
  match e with
  | Optimize _ _ _ _ ng =>
      forall levels size,
        Forall (fun p => NGMIN <= p /\ ng <= p) (level_sizes ng levels size)
  | _ => True
  end.

(** * Properties *)

(** ** Stores *)

Lemma upd_eq {K V} `{EqDecision K} (x : K) (v : V) (f : K -> V) : upd x v f x = v.
Proof. unfold upd. case_decide; congruence. Qed.

Lemma upd_ne {K V} `{EqDecision K} (x y : K) (v : V) (f : K -> V) :
  x <> y -> upd x v f y = f y.
Proof. unfold upd. intros. case_decide; congruence. Qed.

Lemma geti_seti_eq x v s : (seti x v s).[x] = v.
Proof. apply upd_eq. Qed.

Lemma geti_seti_ne x y v s : x <> y -> (seti x v s).[y] = s.[y].
Proof. apply upd_ne. Qed.

(** ** Weakest preconditions *)

Lemma wp_ret {A} (a : A) w Q E : Q a w -> wp (ret a) w Q E.
Proof. exact id. Qed.

Lemma wp_bind {A B} (m : M A) (k : A -> M B) w Q E :
  wp m w (fun a w' => wp (k a) w' Q E) E -> wp (bind m k) w Q E.
Proof. unfold wp, bind. destruct (m w) as [[a|n] w']; exact id. Qed.

Lemma wp_emit e w Q E :
  Q tt (mkWorld (w_fs w) (w_log w ++ [e])) -> wp (emit e) w Q E.
Proof. exact id. Qed.

Lemma wp_exit {A} n w (Q : A -> world -> Prop) E : E w -> wp (exit n) w Q E.
Proof. exact id. Qed.

Lemma wp_get_fs w Q E : Q (w_fs w) w -> wp get_fs w Q E.
Proof. exact id. Qed.

Lemma wp_put_fs fs w Q E : Q tt (mkWorld fs (w_log w)) -> wp (put_fs fs) w Q E.
Proof. exact id. Qed.

Lemma wp_mono {A} (m : M A) w (Q Q' : A -> world -> Prop) (E E' : world -> Prop) :
  wp m w Q E -> (forall a w', Q a w' -> Q' a w') -> (forall w', E w' -> E' w') ->
  wp m w Q' E'.
Proof. unfold wp. destruct (m w) as [[a|n] w']; auto. Qed.

Lemma wp_bind_inv {A B} (I : A -> world -> Prop) (m : M A) (k : A -> M B) w Q E :
  wp m w I E -> (forall a w', I a w' -> wp (k a) w' Q E) -> wp (bind m k) w Q E.
Proof. intros H1 H2. apply wp_bind. eapply wp_mono; [exact H1 | exact H2 | auto]. Qed.

Lemma wp_Let {A B} (v : A) (k : A -> M B) w Q E :
  (forall y, y = v -> wp (k y) w Q E) -> wp (Let v k) w Q E.
Proof. intros H. exact (H v eq_refl). Qed.

Lemma wp_ret_elim {A} (m : M A) w Q E a w' : wp m w Q E -> m w = (Ret a, w') -> Q a w'.
Proof. unfold wp. intros H Hm. now rewrite Hm in H. Qed.

Lemma wp_exit_elim {A} (m : M A) w Q E n w' : wp m w Q E -> m w = (Exit n, w') -> E w'.
Proof. unfold wp. intros H Hm. now rewrite Hm in H. Qed.

Lemma logged_emit P w fs e :
  P e -> logged P w -> logged P (mkWorld fs (w_log w ++ [e])).
Proof. intros He H. apply Forall_app. split; [exact H|]. repeat constructor. exact He. Qed.

Lemma logged_put_fs P w fs : logged P w -> logged P (mkWorld fs (w_log w)).
Proof. exact id. Qed.

Lemma logged_mono (P Q : event -> Prop) w :
  (forall e, P e -> Q e) -> logged P w -> logged Q w.
Proof. intros H HP. exact (Forall_impl _ _ _ HP H). Qed.

Create HintDb monad discriminated.
Create HintDb wpspec discriminated.
#[global] Hint Unfold continue need_arg when ERROR_exit
  INFO_message ININFO_message WARNING_message ERROR_message bad crash
  THD_is_file THD_open_dataset mri_read_1D rename remove CHECK_LOAD_ERROR : monad.

Ltac split_hyps :=
  repeat match goal with
         | H : _ /\ _ |- _ => destruct H
         end.

(* the value bound by a let is named; [onlet] is given its equation *)
Ltac wp_let onlet :=
  let y := fresh "v" in
  let Hy := fresh "L" y in
  apply wp_Let; intros y Hy; cbv beta; onlet Hy.

(* one step of the generation of verification conditions; [inv] is the
   invariant of the states, kept with the invariant [W] of the worlds at
   every sequencing *)
Ltac wp_step W inv onlet :=
  lazymatch goal with
  | |- wp (ret _) _ _ _ => apply wp_ret
  | |- wp (emit _) _ _ _ => apply wp_emit
  | |- wp (exit _) _ _ _ => apply wp_exit
  | |- wp get_fs _ _ _ => apply wp_get_fs
  | |- wp (put_fs _) _ _ _ => apply wp_put_fs
  | |- wp (@bind ?A _ ?m _) _ _ _ =>
      lazymatch m with
      | emit _ => apply wp_bind
      | get_fs => apply wp_bind
      | put_fs _ => apply wp_bind
      | ret _ => apply wp_bind
      | _ =>
          lazymatch A with
          | state =>
              apply (wp_bind_inv (fun (a : state) (w' : world) => W w' /\ inv a))
          | (state * ?B)%type =>
              apply (wp_bind_inv (fun (a : state * B) (w' : world) => W w' /\ inv a.1))
          | _ => apply (wp_bind_inv (fun (_ : A) (w' : world) => W w'))
          end; [| intros ? ? ?; split_hyps]
      end
  | |- wp (Let _ _) _ _ _ => wp_let onlet
  | |- wp (if ?c then _ else _) _ _ _ => destruct c eqn:?
  | |- wp (match ?x with _ => _ end) _ _ _ => destruct x eqn:?
  | |- wp _ _ _ _ =>
      first [ solve [eauto 3 with wpspec] | progress autounfold with monad ]
  end.

Ltac store :=
  cbn [ints flts imgs strs dsets ipws Hemask S2BIM_iwarp allin_matrix
       seti setf setm sets setd setw set_Hemask set_S2BIM_iwarp set_allin_matrix
       fst snd];
  repeat first [ rewrite (@upd_eq ivar) | rewrite (@upd_eq fvar)
               | rewrite (@upd_eq mvar) | rewrite (@upd_eq svar)
               | rewrite (@upd_eq dvar) | rewrite (@upd_eq wvar)
               | rewrite (@upd_ne ivar) by discriminate
               | rewrite (@upd_ne fvar) by discriminate
               | rewrite (@upd_ne mvar) by discriminate
               | rewrite (@upd_ne svar) by discriminate
               | rewrite (@upd_ne dvar) by discriminate
               | rewrite (@upd_ne wvar) by discriminate ].

(* the invariant of a world built from a world that has it; [ev] proves
   the property of the new events *)
Ltac logged_solve ev :=
  repeat first [ assumption
               | apply logged_put_fs
               | apply logged_emit; [solve [ev] |] ].

(* the invariants on the minimum patch size, of a state built from states
   that have them *)
Ltac ngmin_solve :=
  split_hyps;
  repeat match goal with
         | H : ngmin_inv _ |- _ => destruct H as [? ?]
         | H : ngmin_used _ |- _ => destruct H as [? ?]
         end;
  unfold ngmin_inv, ngmin_used, minpatch_ok;
  repeat first
    [ progress store
    | progress unfold Let
    | match goal with
      | |- context [if ?c then _ else _] => destruct c
      | |- context [match ?c with _ => _ end] => destruct c
      | L : ?v = _ |- context [?v] => is_var v; rewrite L
      end ];
  unfold minpatch_ok in *; auto.

(* the invariant [inv] of a state bound by a let, from its equation [H] *)
Ltac inv_let inv solver H :=
  lazymatch type of H with
  | ?y = _ =>
      lazymatch type of y with
      | state =>
          let K := fresh "K" in
          assert (K : inv y) by (rewrite H; solver);
          clear H
      | _ => idtac
      end
  end.

Ltac ngmin_let H := inv_let ngmin_inv ngmin_solve H.
Ltac used_let H := inv_let ngmin_used ngmin_solve H.

Ltac ngmin_leaf :=
  split_hyps;
  lazymatch goal with
  | |- logged _ _ /\ _ => split; [logged_solve ltac:(auto 2) | ngmin_solve]
  | |- logged _ _ => logged_solve ltac:(auto 2)
  | |- _ => idtac
  end.

Ltac ngmin_run W := repeat wp_step W ngmin_inv ngmin_let; ngmin_leaf.
Ltac used_run W := repeat wp_step W ngmin_used used_let; ngmin_leaf.

(* a variable that the new state has from a state with the invariant *)
Ltac frame_solve :=
  cbv beta in *; split_hyps;
  repeat first
    [ progress store
    | match goal with
      | |- context [if ?c then _ else _] => destruct c
      | |- context [match ?c with _ => _ end] => destruct c
      end ];
  auto.


(** ** Signs of floating-point numbers *)

Lemma ltb_zero_zero : F32.ltb F32.zero F32.zero = false.
Proof. reflexivity. Qed.

(** A number is below zero when it is minus infinity or finite with the
    sign bit set. *)
Lemma SFltb_zero (x : spec_float) : SFltb x F32.zero = negative x.
Proof. destruct x as [sx|sx| |sx mx ex]; try destruct sx; reflexivity. Qed.

Lemma SFltb_negative (x y : spec_float) :
  SFltb x y = true -> negative y = true -> negative x = true.
Proof.
  destruct x as [sx|sx| |sx mx ex], y as [sy|sy| |sy my ey];
    try destruct sx; try destruct sy;
    unfold SFltb, SFcompare, negative; intros H1 H2;
    first [reflexivity | discriminate H1 | discriminate H2].
Qed.

Lemma SFltb_false_negative (x y : spec_float) :
  y <> S754_nan -> SFltb x y = false -> negative x = true -> negative y = true.
Proof.
  destruct x as [sx|sx| |sx mx ex], y as [sy|sy| |sy my ey];
    try destruct sx; try destruct sy;
    unfold SFltb, SFcompare, negative; intros H0 H1 H2;
    first [reflexivity | discriminate H1 | discriminate H2 | congruence].
Qed.

(** The smaller of two numbers is negative when one of them is. *)
Lemma fMIN_negative (acc x : spec_float) :
  acc <> S754_nan ->
  SFltb (fMIN acc x) F32.zero = SFltb acc F32.zero || SFltb x F32.zero.
Proof.
  intros Hn. rewrite !SFltb_zero. unfold fMIN.
  destruct (SFltb x acc) eqn:E.
  - destruct (negative acc) eqn:Ea; [|reflexivity].
    cbn [orb]. eapply SFltb_negative; eassumption.
  - destruct (negative x) eqn:Ex; [|now rewrite orb_false_r].
    rewrite orb_true_r. eapply SFltb_false_negative; eassumption.
Qed.

Lemma fMIN_not_nan (acc x : spec_float) : acc <> S754_nan -> fMIN acc x <> S754_nan.
Proof.
  intros Hn. unfold fMIN. destruct (SFltb x acc) eqn:E; [|exact Hn].
  intros ->. destruct acc; discriminate E.
Qed.

Lemma fold_fMIN_negative (l : list spec_float) : forall acc,
  acc <> S754_nan ->
  SFltb (fold_left fMIN l acc) F32.zero = SFltb acc F32.zero || has_negative l.
Proof.
  induction l as [|x l IH]; intros acc Hn; cbn [fold_left has_negative existsb].
  - now rewrite orb_false_r.
  - rewrite IH by now apply fMIN_not_nan.
    rewrite fMIN_negative by exact Hn. unfold has_negative, F32.ltb.
    now rewrite orb_assoc.
Qed.

Lemma huge_not_nan : huge <> S754_nan.
Proof. vm_compute. discriminate. Qed.

Lemma huge_not_negative : SFltb huge F32.zero = false.
Proof. vm_compute. reflexivity. Qed.

(** [mri_min] is below zero exactly when the image has a negative voxel. *)
Lemma mri_min_negative (im : MRI_IMAGE) :
  F32.ltb (mri_min im) F32.zero = has_negative (far im).
Proof.
  unfold mri_min, F32.ltb. rewrite fold_fMIN_negative by exact huge_not_nan.
  now rewrite huge_not_negative.
Qed.

Lemma zero_negatives_clean (ar : list F32.float) :
  has_negative (zero_negatives ar) = false.
Proof.
  induction ar as [|v ar IH]; [reflexivity|].
  cbn [zero_negatives map has_negative existsb].
  fold (zero_negatives ar). fold (has_negative (zero_negatives ar)).
  rewrite IH, orb_false_r.
  destruct (F32.ltb v F32.zero) eqn:E; [reflexivity | exact E].
Qed.

Lemma count_negatives_positive (ar : list F32.float) :
  has_negative ar = true -> 0 < count_negatives ar.
Proof.
  unfold count_negatives.
  induction ar as [|v ar IH]; [discriminate|].
  cbn [has_negative existsb]. rewrite filter_cons.
  destruct (F32.ltb v F32.zero) eqn:E.
  - intros _. rewrite decide_True by reflexivity. cbn [length]. lia.
  - cbn [orb]. intros H. rewrite decide_False by congruence. exact (IH H).
Qed.

Lemma zero_negatives_id (ar : list F32.float) :
  has_negative ar = false -> zero_negatives ar = ar.
Proof.
  induction ar as [|v ar IH]; [reflexivity|].
  cbn [has_negative existsb zero_negatives map]. intros H.
  apply orb_false_elim in H as [Hv Har]. rewrite Hv. f_equal. exact (IH Har).
Qed.

(** ** Negative values *)

Lemma count_negatives_negatives (ar : list F32.float) : count_negatives ar = negatives ar.
Proof.
  unfold count_negatives, negatives. f_equal.
  induction ar as [|v ar IH]; [reflexivity|].
  rewrite !filter_cons. unfold F32.ltb, F32.zero in *. rewrite SFltb_zero.
  destruct (negative v) eqn:E.
  - rewrite !decide_True by reflexivity. cbn [length]. now rewrite IH.
  - rewrite !decide_False by discriminate. exact IH.
Qed.

Lemma zero_negatives_lookup (ar : list F32.float) : forall (i : nat) v,
  ar !! i = Some v ->
  zero_negatives ar !! i = Some (if negative v then F32.zero else v).
Proof.
  induction ar as [|x ar IH]; intros [|i] v H; try discriminate H.
  - injection H as ->. cbn. unfold F32.ltb. now rewrite SFltb_zero.
  - exact (IH i v H).
Qed.

Lemma zero_negatives_length (ar : list F32.float) :
  length (zero_negatives ar) = length ar.
Proof. apply length_map. Qed.

Lemma has_negative_Forall (ar : list F32.float) :
  has_negative ar = false -> Forall (fun v => negative v = false) ar.
Proof.
  induction ar as [|v ar IH]; [constructor|].
  cbn [has_negative existsb]. intros H. apply orb_false_elim in H as [Hv Har].
  constructor; [| exact (IH Har)].
  unfold F32.ltb in Hv. now rewrite SFltb_zero in Hv.
Qed.

Lemma clipped_zero_negatives (im : MRI_IMAGE) :
  clipped im (mkIm (im_nx im) (im_ny im) (im_nz im) (zero_negatives (far im))).
Proof.
  repeat split; cbn [im_nx im_ny im_nz far].
  - apply zero_negatives_length.
  - apply zero_negatives_lookup.
Qed.

Lemma clipped_refl (im : MRI_IMAGE) : has_negative (far im) = false -> clipped im im.
Proof.
  intros H. repeat split. intros i v Hv.
  pose proof (has_negative_Forall _ H) as F.
  rewrite Forall_lookup in F. now rewrite (F i v Hv).
Qed.

Section Negative.
Context `{X : Extern}.

(** C1. Without [-noneg], a negative voxel in the base or in the source
    turns the clipped Pearson method into strict Pearson, the substitution
    is reported with the images that have negative values, and the images
    stay as they are. With [-noneg], each image with a negative voxel gets
    these voxels replaced by zero, voxel for voxel on the same grid, and
    their number is reported; an image without one is not touched; no
    voxel below zero is left, and the method is left as it is. *)
Theorem negative_values_handling (s : state) (w : world) (b sm : MRI_IMAGE) :
  imgs s bim = Some b -> imgs s sim = Some sm ->
  (truthy s.[noneg] = false -> s.[meth] = GA_MATCH_PEARCLP_SCALAR ->
   has_negative (far b) || has_negative (far sm) = true ->
   exists s',
     main_negative s w =
       (Ret s',
        mkWorld (w_fs w)
          (w_log w ++
           [Message INFO "negative values in %s ==> using strict Pearson correlation"
              [AStr (negative_images b sm)]]))
     /\ s'.[meth] = GA_MATCH_PEARSON_SCALAR
     /\ imgs s' bim = Some b /\ imgs s' sim = Some sm)
  /\
  (truthy s.[noneg] = true ->
   exists s' b' sm',
     main_negative s w =
       (Ret s',
        mkWorld (w_fs w)
          (w_log w ++ converted "base" (far b) ++ converted "source" (far sm)))
     /\ s'.[meth] = s.[meth]
     /\ imgs s' bim = Some b' /\ imgs s' sim = Some sm'
     /\ clipped b b' /\ clipped sm sm'
     /\ (has_negative (far b) = false -> b' = b)
     /\ (has_negative (far sm) = false -> sm' = sm)
     /\ Forall (fun v => negative v = false) (far b')
     /\ Forall (fun v => negative v = false) (far sm')).
Proof.
  intros Hb Hsm. split.
  - intros Hnn Hmeth Hneg.
    unfold main_negative. rewrite Hb, Hsm.
    unfold Let, bind, ret, INFO_message, emit. store.
    rewrite !mri_min_negative, Hnn, !andb_false_r. store.
    rewrite !mri_min_negative, Hnn, !andb_false_r. store.
    rewrite !mri_min_negative, Hneg, Hmeth.
    change (GA_MATCH_PEARCLP_SCALAR =? GA_MATCH_PEARCLP_SCALAR) with true.
    cbn [andb]. eexists. split; [reflexivity|]. store.
    repeat split; assumption.
  - intros Hnn. destruct w as [fs lg].
    unfold main_negative. rewrite Hb, Hsm.
    unfold Let, bind, ret, INFO_message, emit, converted. store.
    rewrite !mri_min_negative, Hnn, !andb_true_r, !count_negatives_negatives.
    destruct (has_negative (far b)) eqn:Eb; store;
      rewrite !mri_min_negative, ?Hsm, ?Hnn, ?andb_true_r;
      destruct (has_negative (far sm)) eqn:Es; store;
      rewrite ?Hsm; store;
      rewrite ?ltb_zero_zero, ?mri_min_negative, ?Eb, ?Es; cbn [orb andb];
      (do 3 eexists; split;
       [ cbn [w_fs w_log]; rewrite <- ?app_assoc, ?app_nil_r; reflexivity
       | store; rewrite ?Hb, ?Hsm; split; [reflexivity|];
         split; [reflexivity|]; split; [reflexivity|];
         split; [first [apply clipped_zero_negatives | now apply clipped_refl]|];
         split; [first [apply clipped_zero_negatives | now apply clipped_refl]|];
         split; [first [discriminate | reflexivity]|];
         split; [first [discriminate | reflexivity]|];
         split; apply has_negative_Forall; cbn [far];
         first [apply zero_negatives_clean | assumption] ]).
Qed.
End Negative.

Lemma negative_values_handling_witness :
  (exists s',
     main_negative (with_images im41 im3) Demo.world0 =
       (Ret s',
        mkWorld (w_fs Demo.world0)
          (w_log Demo.world0 ++
           [Message INFO "negative values in %s ==> using strict Pearson correlation"
              [AStr "source"]]))
     /\ s'.[meth] = GA_MATCH_PEARSON_SCALAR
     /\ imgs s' bim = Some im41 /\ imgs s' sim = Some im3)
  /\
  (exists s' b' sm',
     main_negative (with_noneg im41 im3) Demo.world0 =
       (Ret s',
        mkWorld (w_fs Demo.world0)
          (w_log Demo.world0
           ++ [Message INFO "-noneg converted %d source voxels to 0" [AInt 1]]))
     /\ s'.[meth] = (with_noneg im41 im3).[meth]
     /\ imgs s' bim = Some b' /\ imgs s' sim = Some sm'
     /\ clipped im41 b' /\ clipped im3 sm'
     /\ (has_negative (far im41) = false -> b' = im41)
     /\ (has_negative (far im3) = false -> sm' = im3)
     /\ Forall (fun v => negative v = false) (far b')
     /\ Forall (fun v => negative v = false) (far sm')).
Proof.
  split.
  - destruct (negative_values_handling (with_images im41 im3) Demo.world0 im41 im3
                eq_refl eq_refl) as [H _].
    apply H; vm_compute; reflexivity.
  - destruct (negative_values_handling (with_noneg im41 im3) Demo.world0 im41 im3
                eq_refl eq_refl) as [_ H].
    apply H. vm_compute. reflexivity.
Defined.

(** ** The weight volume *)

Lemma binary_round_aux_sign (prec emax : Z) (sx : bool) (mx ex : Z) (lx : location) :
  match binary_round_aux prec emax sx mx ex lx with
  | S754_zero sg | S754_infinity sg | S754_finite sg _ _ => sg = sx
  | S754_nan => True
  end.
Proof.
  unfold binary_round_aux.
  destruct (shr_fexp prec emax mx ex lx) as [mrs' e'].
  destruct (shr_fexp prec emax _ e' loc_Exact) as [mrs'' e''].
  destruct (shr_m mrs''); [reflexivity | | exact I].
  destruct (e'' <=? emax - prec); reflexivity.
Qed.

Lemma SFmul_sign_clear (prec emax : Z) (x y : spec_float) :
  sign_clear x -> sign_clear y -> sign_clear (SFmul prec emax x y).
Proof.
  destruct x as [sx|sx| |sx mx ex], y as [sy|sy| |sy my ey];
    cbn [sign_clear SFmul]; intros Hx Hy; subst; try reflexivity; try exact I.
  pose proof (binary_round_aux_sign prec emax (xorb false false)
                (Z.pos (mx * my)) (ex + ey) loc_Exact) as H.
  unfold sign_clear. destruct (binary_round_aux _ _ _ _ _ _); exact H || exact I.
Qed.

Lemma SFdiv_sign_clear (prec emax : Z) (x y : spec_float) :
  sign_clear x -> sign_clear y -> sign_clear (SFdiv prec emax x y).
Proof.
  destruct x as [sx|sx| |sx mx ex], y as [sy|sy| |sy my ey];
    cbn [sign_clear SFdiv]; intros Hx Hy; subst; try reflexivity; try exact I.
  destruct (SFdiv_core_binary prec emax (Z.pos mx) ex (Z.pos my) ey) as [[mz ez] lz].
  pose proof (binary_round_aux_sign prec emax (xorb false false) mz ez lz) as H.
  unfold sign_clear. destruct (binary_round_aux _ _ _ _ _ _); exact H || exact I.
Qed.

Lemma SFleb_zero_sign_clear (x : spec_float) : SFleb x F32.zero = false -> sign_clear x.
Proof.
  destruct x as [sx|sx| |sx mx ex]; try destruct sx;
    unfold SFleb, SFcompare, sign_clear, F32.zero; intros H;
    first [reflexivity | exact I | discriminate H].
Qed.

Lemma sign_clear_not_negative (x : spec_float) : sign_clear x -> SFltb x F32.zero = false.
Proof.
  destruct x as [sx|sx| |sx mx ex]; cbn [sign_clear]; intros H; subst; reflexivity.
Qed.

Lemma one_sign_clear : sign_clear F32.one.
Proof. vm_compute. reflexivity. Qed.

(** No weight is below zero after the rescaling, whatever the factor that
    was derived from a maximum above zero. *)
Lemma scale_weights_not_negative (m : F32.float) (wt : list F32.float) :
  F32.leb m F32.zero = false ->
  Forall (fun v => F32.ltb v F32.zero = false) (scale_weights (F32.div F32.one m) wt).
Proof.
  intros Hm. unfold scale_weights. apply Forall_fmap, Forall_forall. intros v _.
  unfold compose. cbn beta. destruct (F32.leb v F32.zero) eqn:E; [reflexivity|].
  apply sign_clear_not_negative, SFmul_sign_clear.
  - apply SFdiv_sign_clear; [exact one_sign_clear | now apply SFleb_zero_sign_clear].
  - now apply SFleb_zero_sign_clear.
Qed.

(** C2: the rescaling does not bring the maximum of the weight volume to
    1. A weight volume whose only voxel is 41 is rescaled to 0.99999994,
    the product of 41 with the rounded reciprocal of 41; with the maximum
    2^-149 the reciprocal overflows and the voxel becomes plus infinity;
    with the maximum plus infinity the reciprocal is 0 and the maximum
    becomes not-a-number. *)
Lemma weight_maximum_not_one :
  (main_scale_weight (with_weight im41) Demo.world0
     = (Ret (setm wbim (Some (mkIm 1 1 1 [S754_finite false 16777215 (-24)]))
                  (with_weight im41)), Demo.world0)
   /\ F32.eqb (S754_finite false 16777215 (-24)) F32.one = false
   /\ F32.ltb (S754_finite false 16777215 (-24)) F32.one = true)
  /\ main_scale_weight (with_weight im_tiny) Demo.world0
     = (Ret (setm wbim (Some (mkIm 1 1 1 [S754_infinity false])) (with_weight im_tiny)),
        Demo.world0)
  /\ main_scale_weight (with_weight im_inf) Demo.world0
     = (Ret (setm wbim (Some (mkIm 2 1 1 [S754_nan; S754_zero false])) (with_weight im_inf)),
        Demo.world0).
Proof. repeat split; vm_compute; reflexivity. Qed.

Lemma scale_weights_lookup (fac : F32.float) (wt : list F32.float) : forall (i : nat) v,
  wt !! i = Some v ->
  scale_weights fac wt !! i
  = Some (if F32.leb v F32.zero then F32.zero else F32.mul fac v).
Proof.
  induction wt as [|x wt IH]; intros [|i] v H; try discriminate H.
  - injection H as ->. reflexivity.
  - exact (IH i v H).
Qed.

Section Weight.
Context `{X : Extern}.

(** X10: the rescaling of the weight volume stops the program with the
    fatal message "weight volume is not positive?!" when the maximum is
    not above zero, and nothing else happens then; otherwise only the
    weight volume changes: it keeps its grid and its number of voxels, a
    voxel that is not above zero becomes zero, any other voxel is
    multiplied by the reciprocal of the maximum, and no voxel of the
    result is below zero. *)
Theorem weight_not_negative (s : state) (w : world) (wt : MRI_IMAGE) :
  imgs s wbim = Some wt ->
  (F32.leb (mri_max wt) F32.zero = true ->
   main_scale_weight s w =
     (Exit 1, mkWorld (w_fs w)
                (w_log w ++ [Message FATAL "weight volume is not positive?!" []])))
  /\
  (F32.leb (mri_max wt) F32.zero = false ->
   exists wt',
     main_scale_weight s w = (Ret (setm wbim (Some wt') s), w)
     /\ (im_nx wt', im_ny wt', im_nz wt') = (im_nx wt, im_ny wt, im_nz wt)
     /\ length (far wt') = length (far wt)
     /\ (forall (i : nat) v, far wt !! i = Some v ->
           far wt' !! i
           = Some (if F32.leb v F32.zero then F32.zero
                   else F32.mul (F32.div F32.one (mri_max wt)) v))
     /\ Forall (fun v => negative v = false) (far wt')).
Proof.
  intros Hw. unfold main_scale_weight. rewrite Hw. split; intros Hm.
  - unfold Let, bind, ERROR_exit, emit, exit. rewrite Hm. reflexivity.
  - unfold Let, bind, ret. rewrite Hm. eexists. split; [reflexivity|].
    cbn [im_nx im_ny im_nz far]. split; [reflexivity|].
    split; [apply length_map|]. split; [apply scale_weights_lookup|].
    eapply Forall_impl; [now apply scale_weights_not_negative|].
    cbv beta. intros v Hv. unfold F32.ltb, F32.zero in Hv. now rewrite SFltb_zero in Hv.
Qed.
End Weight.

Lemma weight_not_negative_witness :
  main_scale_weight (with_weight im_zero) Demo.world0
    = (Exit 1, mkWorld (w_fs Demo.world0)
                 (w_log Demo.world0 ++ [Message FATAL "weight volume is not positive?!" []]))
  /\ exists wt',
       main_scale_weight (with_weight im41) Demo.world0
         = (Ret (setm wbim (Some wt') (with_weight im41)), Demo.world0)
       /\ (im_nx wt', im_ny wt', im_nz wt') = (im_nx im41, im_ny im41, im_nz im41)
       /\ length (far wt') = length (far im41)
       /\ (forall (i : nat) v, far im41 !! i = Some v ->
             far wt' !! i
             = Some (if F32.leb v F32.zero then F32.zero
                     else F32.mul (F32.div F32.one (mri_max im41)) v))
       /\ Forall (fun v => negative v = false) (far wt').
Proof.
  split.
  - destruct (weight_not_negative (with_weight im_zero) Demo.world0 im_zero eq_refl) as [H _].
    apply H. vm_compute. reflexivity.
  - destruct (weight_not_negative (with_weight im41) Demo.world0 im41 eq_refl) as [_ H].
    apply H. vm_compute. reflexivity.
Defined.

(** ** Zero-padding *)

Lemma offset_split (vnx vny q : Z) :
  0 < vnx -> 0 < vny -> 0 <= q ->
  q = q mod vnx + ((q / vnx) mod vny) * vnx + (q / (vnx * vny)) * (vnx * vny)
  /\ 0 <= q mod vnx < vnx /\ 0 <= (q / vnx) mod vny < vny /\ 0 <= q / (vnx * vny).
Proof.
  intros Hx Hy Hq.
  assert (H1 := Z.div_mod q vnx ltac:(lia)).
  assert (H2 := Z.div_mod (q / vnx) vny ltac:(lia)).
  assert (H3 : q / (vnx * vny) = q / vnx / vny) by (rewrite Z.div_div; lia).
  assert (H4 := Z.mod_pos_bound q vnx Hx).
  assert (H5 := Z.mod_pos_bound (q / vnx) vny Hy).
  assert (H6 : 0 <= q / vnx) by (apply Z.div_pos; lia).
  assert (H7 : 0 <= q / vnx / vny) by (apply Z.div_pos; lia).
  rewrite H3. repeat split; first [lia | nia].
Qed.

Lemma offset_join (vnx vny i j k : Z) :
  0 <= i < vnx -> 0 <= j < vny -> 0 <= k ->
  let q := i + j * vnx + k * (vnx * vny) in
  q mod vnx = i /\ (q / vnx) mod vny = j /\ q / (vnx * vny) = k.
Proof.
  intros Hi Hj Hk q.
  assert (Eq : q = i + (j + k * vny) * vnx) by (unfold q; ring).
  assert (E1 : q mod vnx = i).
  { rewrite Eq, Z.mod_add by lia. apply Z.mod_small; lia. }
  assert (E2 : q / vnx = j + k * vny).
  { rewrite Eq, Z.div_add by lia. rewrite Z.div_small; lia. }
  repeat split; [exact E1 | |].
  - rewrite E2, Z.mod_add by lia. apply Z.mod_small; lia.
  - rewrite <- Z.div_div by lia. rewrite E2, Z.div_add by lia.
    rewrite Z.div_small; lia.
Qed.

Lemma offset_bound (vnx vny vnz q : Z) :
  0 < vnx -> 0 < vny -> 0 <= q < vnx * vny * vnz -> q / (vnx * vny) < vnz.
Proof.
  intros Hx Hy Hq. apply Z.div_lt_upper_bound; [apply Z.mul_pos_pos; lia | lia].
Qed.

Lemma offset_range (vnx vny vnz i j k : Z) :
  0 <= i < vnx -> 0 <= j < vny -> 0 <= k < vnz ->
  0 <= i + j * vnx + k * (vnx * vny) < vnx * vny * vnz.
Proof.
  intros Hi Hj Hk.
  assert (H0 : 0 < vnx * vny) by (apply Z.mul_pos_pos; lia).
  assert (H1 : 0 <= j * vnx) by (apply Z.mul_nonneg_nonneg; lia).
  assert (H2 : 0 <= k * (vnx * vny)) by (apply Z.mul_nonneg_nonneg; lia).
  assert (H3 : j * vnx <= (vny - 1) * vnx) by (apply Z.mul_le_mono_nonneg_r; lia).
  assert (H4 : k * (vnx * vny) <= (vnz - 1) * (vnx * vny))
    by (apply Z.mul_le_mono_nonneg_r; lia).
  split; [lia|].
  replace (vnx * vny * vnz) with ((vnz - 1) * (vnx * vny) + (vny - 1) * vnx + vnx) by ring.
  lia.
Qed.

Section Volpad.
Context {A : Type} (zero : A).

Lemma EDIT_volpad_roundtrip (xm xp ym yp zm zp vnx vny vnz : Z) (v : list A) :
  0 <= xm -> 0 <= xp -> 0 <= ym -> 0 <= yp -> 0 <= zm -> 0 <= zp ->
  0 < vnx -> 0 < vny -> 0 < vnz ->
  Z.of_nat (length v) = vnx * vny * vnz ->
  exists p,
    EDIT_volpad zero xm xp ym yp zm zp vnx vny vnz v = Some p
    /\ EDIT_volpad zero (- xm) (- xp) (- ym) (- yp) (- zm) (- zp)
         (vnx + xm + xp) (vny + ym + yp) (vnz + zm + zp) p = Some v.
Proof.
  intros Hxm Hxp Hym Hyp Hzm Hzp Hx Hy Hz Hlen.
  unfold EDIT_volpad at 1.
  set (nxn := vnx + xm + xp). set (nyn := vny + ym + yp). set (nzn := vnz + zm + zp).
  assert (Hn : (nxn <? 1) || (nyn <? 1) || (nzn <? 1) = false).
  { unfold nxn, nyn, nzn.
    repeat (apply orb_false_intro); apply Z.ltb_ge; lia. }
  rewrite Hn. eexists. split; [reflexivity|].
  unfold EDIT_volpad.
  replace (nxn + - xm + - xp) with vnx by (unfold nxn; lia).
  replace (nyn + - ym + - yp) with vny by (unfold nyn; lia).
  replace (nzn + - zm + - zp) with vnz by (unfold nzn; lia).
  assert (Hv : (vnx <? 1) || (vny <? 1) || (vnz <? 1) = false).
  { repeat (apply orb_false_intro); apply Z.ltb_ge; lia. }
  rewrite Hv. f_equal.
  apply list_eq. intros n.
  rewrite list_lookup_fmap.
  destruct (decide (n < length v)%nat) as [Hlt|Hge].
  - rewrite lookup_seq_lt by lia. cbn [fmap option_fmap option_map Nat.add].
    destruct (offset_split vnx vny (Z.of_nat n)) as (Eq & Hi & Hj & Hk); [lia..|].
    assert (Hk' := offset_bound vnx vny vnz (Z.of_nat n) Hx Hy ltac:(lia)).
    set (i := Z.of_nat n mod vnx) in *. set (j := (Z.of_nat n / vnx) mod vny) in *.
    set (k := Z.of_nat n / (vnx * vny)) in *.
    replace (i - - xm) with (i + xm) by lia.
    replace (j - - ym) with (j + ym) by lia.
    replace (k - - zm) with (k + zm) by lia.
    assert (Hin : (0 <=? i + xm) && (i + xm <? nxn) && (0 <=? j + ym) && (j + ym <? nyn)
                  && (0 <=? k + zm) && (k + zm <? nzn) = true).
    { unfold nxn, nyn, nzn.
      repeat (apply andb_true_intro; split); first [apply Z.leb_le | apply Z.ltb_lt]; lia. }
    rewrite Hin.
    set (q' := i + xm + (j + ym) * nxn + (k + zm) * (nxn * nyn)).
    assert (Hq' : 0 <= q' < nxn * nyn * nzn).
    { apply offset_range; unfold nxn, nyn, nzn; lia. }
    rewrite list_lookup_fmap, lookup_seq_lt by lia.
    cbn [fmap option_fmap option_map default Nat.add].
    rewrite Z2Nat.id by lia.
    destruct (offset_join nxn nyn (i + xm) (j + ym) (k + zm)) as (E1 & E2 & E3);
      [unfold nxn, nyn; lia..|].
    fold q' in E1, E2, E3. rewrite E1, E2, E3.
    replace (i + xm - xm) with i by lia.
    replace (j + ym - ym) with j by lia.
    replace (k + zm - zm) with k by lia.
    assert (Hin' : (0 <=? i) && (i <? vnx) && (0 <=? j) && (j <? vny)
                   && (0 <=? k) && (k <? vnz) = true).
    { repeat (apply andb_true_intro; split); first [apply Z.leb_le | apply Z.ltb_lt]; lia. }
    rewrite Hin'. rewrite <- Eq, Nat2Z.id.
    destruct (v !! n) eqn:E; [reflexivity|].
    apply lookup_ge_None in E. lia.
  - rewrite lookup_seq_ge by lia. cbn.
    symmetry. apply lookup_ge_None. lia.
Qed.
End Volpad.

(** C5. Zero-padding a volume by amounts that are not negative and then
    padding the result by the negated amounts gives the volume back, voxel
    for voxel. *)
Theorem zeropad_roundtrip (xm xp ym yp zm zp : Z) (im : MRI_IMAGE) :
  0 <= xm -> 0 <= xp -> 0 <= ym -> 0 <= yp -> 0 <= zm -> 0 <= zp ->
  volume im ->
  exists p,
    mri_zeropad_3D xm xp ym yp zm zp im = Some p
    /\ mri_zeropad_3D (- xm) (- xp) (- ym) (- yp) (- zm) (- zp) p = Some im.
Proof.
  intros Hxm Hxp Hym Hyp Hzm Hzp (Hx & Hy & Hz & Hlen).
  destruct (EDIT_volpad_roundtrip F32.zero xm xp ym yp zm zp
              (im_nx im) (im_ny im) (im_nz im) (far im)) as (p & Hp & Hq); try assumption.
  unfold mri_zeropad_3D. rewrite Hp. eexists. split; [reflexivity|].
  cbn [im_nx im_ny im_nz far]. rewrite Hq.
  destruct im as [a b c v]. cbn [im_nx im_ny im_nz far]. do 2 f_equal; lia.
Qed.

Lemma zeropad_roundtrip_witness :
  (0 <= 1 /\ 0 <= 2 /\ 0 <= 0 /\ 0 <= 1 /\ 0 <= 0 /\ 0 <= 0 /\ volume im3)
  /\ exists p,
       mri_zeropad_3D 1 2 0 1 0 0 im3 = Some p
       /\ mri_zeropad_3D (- 1) (- 2) (- 0) (- 1) (- 0) (- 0) p = Some im3.
Proof.
  assert (V : volume im3) by (repeat split; vm_compute; reflexivity).
  split; [repeat split; try lia; apply V|].
  apply (zeropad_roundtrip 1 2 0 1 0 0 im3); try lia. exact V.
Defined.

(** ** The command line *)

Lemma strlower_substring (s : string) : forall n m,
  strlower (substring n m s) = substring n m (strlower s).
Proof.
  induction s as [|c r IH]; intros [|n] [|m]; simpl; try reflexivity.
  - now rewrite IH.
  - apply IH.
  - apply IH.
Qed.

Lemma tolower_dash (c : ascii) : tolower c = "-"%char -> c = "-"%char.
Proof.
  destruct c as [[] [] [] [] [] [] [] []]; vm_compute; congruence.
Qed.

(** A word that is an option but for the case of its letters starts with
    a dash. *)
Lemma strlower_dash (a r : string) :
  strlower a = String "-" r -> Ascii.eqb (strat a 0) "-" = true.
Proof.
  destruct a as [|c a']; [discriminate|]. cbn [strlower]. intros H.
  injection H as Hc _. apply tolower_dash in Hc. subst c. reflexivity.
Qed.

Lemma strcaseeq_lower (a b : string) :
  strcaseeq a b = true -> strlower a = strlower b.
Proof. unfold strcaseeq. apply String.eqb_eq. Qed.

(* [String.eqb a b = false], for a word [a] whose lower case is known *)
Ltac streq_false H :=
  match goal with
  | |- String.eqb ?a ?b = false =>
      let E := fresh in
      destruct (String.eqb a b) eqn:E; [| reflexivity];
      apply String.eqb_eq in E; rewrite E in H; vm_compute in H; discriminate H
  end.

(* comparisons of closed strings are computed *)
Ltac eval_closed_eqb :=
  repeat match goal with
         | |- context [String.eqb ?x ?y] =>
             let b := eval vm_compute in (String.eqb x y) in
             match b with
             | true => change (String.eqb x y) with true
             | false => change (String.eqb x y) with false
             end
         end.

(* the branch of [parse_option] taken by the word [a], from
   [H : strlower a = "..."] *)
Ltac option_is H :=
  let a := match type of H with strlower ?a = _ => a end in
  let E1 := fresh in let E2 := fresh in
  assert (E1 : String.eqb a "-h" = false) by streq_false H;
  assert (E2 : String.eqb a "+-" = false) by streq_false H;
  unfold parse_option, strcaseeq, strncaseeq, streq;
  rewrite ?strlower_substring, ?E1, ?E2, ?H;
  eval_closed_eqb;
  cbn [orb andb negb].

Lemma minpatch_clamp_ok (v : Z) :
  NGMIN <= minpatch_clamp v /\ Z.odd (minpatch_clamp v) = true
  /\ (v < NGMIN -> minpatch_clamp v = NGMIN)
  /\ (NGMIN <= v -> Z.even v = true -> minpatch_clamp v = v - 1)
  /\ (NGMIN <= v -> Z.odd v = true -> minpatch_clamp v = v).
Proof.
  unfold minpatch_clamp, NGMIN.
  destruct (v <? 9) eqn:E1; [apply Z.ltb_lt in E1 | apply Z.ltb_ge in E1].
  - repeat split; try reflexivity; lia.
  - rewrite Z.rem_mod_nonneg, Zmod_even by lia.
    destruct (Z.even v) eqn:Ev; cbn [Z.eqb].
    + assert (Hk : exists k, v = 2 * k) by (apply Z.even_spec, Ev).
      destruct Hk as [k Hk].
      split; [lia|]. split; [|split; [lia|split; [lia|]]].
      * rewrite Z.odd_sub, <- Z.negb_even, Ev. reflexivity.
      * rewrite <- Z.negb_even, Ev. discriminate.
    + split; [lia|]. split; [|split; [lia|split; [discriminate|reflexivity]]].
      rewrite <- Z.negb_even, Ev. reflexivity.
Qed.

(** ** The stages of [main] *)

Section Stages.
Context `{X : Extern}.
Context (P : event -> Prop).
Context (PM : forall sev fmt args, P (Message sev fmt args)).
Context (PS : forall cmd status, P (Subprocess cmd status)).


Lemma check_errors_spec rest s w :
  logged P w -> ngmin_inv s ->
  wp (check_errors rest s) w (fun s' w' => logged P w' /\ ngmin_inv s') (logged P).
Proof.
  intros Hw Hs. cbv delta [check_errors]; cbv beta.
  ngmin_run (logged P).
Qed.

Lemma read_inputs_spec rest s w :
  logged P w -> ngmin_inv s ->
  wp (read_inputs rest s) w (fun sr w' => logged P w' /\ ngmin_inv sr.1) (logged P).
Proof.
  intros Hw Hs. cbv delta [read_inputs]; cbv beta.
  ngmin_run (logged P).
Qed.

Lemma run_system_spec cmd w :
  logged P w -> wp (run_system cmd) w (fun _ w' => logged P w') (logged P).
Proof. intros Hw. unfold wp, run_system. apply logged_emit; auto. Qed.
#[local] Hint Resolve run_system_spec : wpspec.

Lemma Qallineate_spec verb basname srcname emkname allopt w :
  logged P w ->
  wp (Qallineate verb basname srcname emkname allopt) w (fun _ w' => logged P w') (logged P).
Proof.
  intros Hw. cbv delta [Qallineate]; cbv beta.
  repeat wp_step (logged P) ngmin_inv ltac:(fun H => clear H); ngmin_leaf.
Qed.
#[local] Hint Resolve Qallineate_spec : wpspec.

Lemma Qallin_resample_spec basname srcname w :
  logged P w -> wp (Qallin_resample basname srcname) w (fun _ w' => logged P w') (logged P).
Proof.
  intros Hw. cbv delta [Qallin_resample]; cbv beta.
  repeat wp_step (logged P) ngmin_inv ltac:(fun H => clear H); ngmin_leaf.
Qed.
#[local] Hint Resolve Qallin_resample_spec : wpspec.

Lemma main_allineate_spec s w :
  logged P w -> ngmin_inv s ->
  wp (main_allineate s) w (fun s' w' => logged P w' /\ ngmin_inv s') (logged P).
Proof.
  intros Hw Hs. cbv delta [main_allineate]; cbv beta.
  ngmin_run (logged P).
Qed.

Lemma main_check_grids_spec s w :
  logged P w -> wp (main_check_grids s) w (fun _ w' => logged P w') (logged P).
Proof.
  intros Hw. cbv delta [main_check_grids]; cbv beta.
  ngmin_run (logged P).
Qed.

Lemma main_iniwarp_spec s w :
  logged P w -> ngmin_inv s ->
  wp (main_iniwarp s) w (fun s' w' => logged P w' /\ ngmin_inv s') (logged P).
Proof.
  intros Hw Hs. cbv delta [main_iniwarp]; cbv beta.
  ngmin_run (logged P).
Qed.

Lemma main_load_spec s w :
  logged P w -> ngmin_inv s ->
  wp (main_load s) w (fun s' w' => logged P w' /\ ngmin_inv s') (logged P).
Proof.
  intros Hw Hs. cbv delta [main_load]; cbv beta.
  ngmin_run (logged P).
Qed.

Lemma main_negative_spec s w :
  logged P w -> ngmin_inv s ->
  wp (main_negative s) w (fun s' w' => logged P w' /\ ngmin_inv s') (logged P).
Proof.
  intros Hw Hs. cbv delta [main_negative]; cbv beta.
  ngmin_run (logged P).
Qed.

Lemma zeropad_image_spec x sg s w :
  logged P w -> ngmin_inv s ->
  wp (zeropad_image x sg s) w (fun s' w' => logged P w' /\ ngmin_inv s') (logged P).
Proof.
  intros Hw Hs. cbv delta [zeropad_image]; cbv beta.
  ngmin_run (logged P).
Qed.
#[local] Hint Resolve zeropad_image_spec : wpspec.

Lemma main_zeropad_spec s w :
  logged P w -> ngmin_inv s ->
  wp (main_zeropad s) w (fun s' w' => logged P w' /\ ngmin_inv s') (logged P).
Proof.
  intros Hw Hs. cbv delta [main_zeropad]; cbv beta.
  ngmin_run (logged P).
Qed.

Lemma main_setup_iniwarp_spec s w :
  logged P w -> ngmin_inv s ->
  wp (main_setup_iniwarp s) w (fun s' w' => logged P w' /\ ngmin_inv s') (logged P).
Proof.
  intros Hw Hs. cbv delta [main_setup_iniwarp]; cbv beta.
  ngmin_run (logged P).
Qed.

Lemma parse_option_spec a rest s w :
  logged P w -> ngmin_inv s ->
  wp (parse_option a rest s) w (fun sr w' => logged P w' /\ ngmin_inv sr.1) (logged P).
Proof.
  intros Hw Hs. cbv delta [parse_option]; cbv beta.
  repeat wp_step (logged P) ngmin_inv ngmin_let.
  all: try solve [ngmin_leaf].
  split; [assumption|]. destruct Hs as [_ Hn].
  fold (minpatch_clamp v). destruct (minpatch_clamp_ok v) as (H1 & H2 & _).
  cbn [fst]. unfold ngmin_inv, minpatch_ok. store. auto.
Qed.

Lemma parse_loop_spec n : forall argv s w,
  logged P w -> ngmin_inv s ->
  wp (parse_loop n argv s) w (fun sr w' => logged P w' /\ ngmin_inv sr.1) (logged P).
Proof.
  induction n as [|n IH]; intros argv s w Hw Hs; cbn [parse_loop].
  - repeat wp_step (logged P) ngmin_inv ngmin_let; ngmin_leaf.
  - repeat wp_step (logged P) ngmin_inv ngmin_let; try solve [ngmin_leaf].
    now apply parse_option_spec.
Qed.

Lemma parse_options_spec argv w :
  logged P w ->
  wp (parse_options argv) w (fun sr w' => logged P w' /\ ngmin_inv sr.1) (logged P).
Proof.
  intros Hw. cbv delta [parse_options]; cbv beta.
  repeat wp_step (logged P) ngmin_inv ngmin_let; try solve [ngmin_leaf].
  apply parse_loop_spec; [assumption|]. split; [left|]; reflexivity.
Qed.

Lemma main_front_spec argv w :
  logged P w ->
  wp (main_front argv) w (fun s w' => logged P w' /\ ngmin_inv s) (logged P).
Proof.
  intros Hw. unfold main_front.
  eapply wp_bind_inv; [now apply parse_options_spec|]. intros sr w1 [Hw1 Hs1].
  eapply wp_bind_inv; [now apply check_errors_spec|]. cbv beta. intros s2 w2 [Hw2 Hs2].
  eapply wp_bind_inv; [now apply read_inputs_spec|]. cbv beta. intros sr3 w3 [Hw3 Hs3].
  eapply wp_bind_inv; [now apply main_allineate_spec|]. cbv beta. intros s4 w4 [Hw4 Hs4].
  eapply wp_bind_inv; [now apply main_check_grids_spec|]. cbv beta. intros _ w5 Hw5.
  eapply wp_bind_inv; [now apply main_iniwarp_spec|]. cbv beta. intros s6 w6 [Hw6 Hs6].
  eapply wp_bind_inv; [now apply main_load_spec|]. cbv beta. intros s7 w7 [Hw7 Hs7].
  eapply wp_bind_inv; [now apply main_negative_spec|]. cbv beta. intros s8 w8 [Hw8 Hs8].
  eapply wp_bind_inv; [now apply main_zeropad_spec|]. cbv beta. intros s9 w9 [Hw9 Hs9].
  now apply main_setup_iniwarp_spec.
Qed.

(** *** The stages from the setup to the optimization *)

Lemma main_setup_spec s w :
  logged P w -> ngmin_inv s ->
  wp (main_setup s) w (fun s' w' => logged P w' /\ ngmin_used s') (logged P).
Proof.
  intros Hw Hs. cbv delta [main_setup]; cbv beta.
  repeat wp_step (logged P) ngmin_inv ngmin_let; try solve [ngmin_leaf].
  apply wp_Let. intros s0 Hs0. cbv beta.
  assert (K4 : ngmin_used s0).
  { rewrite Hs0. destruct K3 as [[Hz|[Hge Hodd]] Hd]; unfold ngmin_used.
    - rewrite Hz. cbn [Z.ltb Z.compare]. rewrite Hd. now vm_compute.
    - destruct (0 <? v3.[minpatch]); store; [auto|]. rewrite Hd. now vm_compute. }
  clear Hs0. used_run (logged P).
Qed.

Lemma mri_weightize_spec verb im acod ndil aclip apow w :
  logged P w ->
  wp (mri_weightize verb im acod ndil aclip apow) w (fun _ w' => logged P w') (logged P).
Proof.
  intros Hw. cbv delta [mri_weightize]; cbv beta.
  repeat wp_step (logged P) ngmin_used ltac:(fun H => clear H); ngmin_leaf.
Qed.
#[local] Hint Resolve mri_weightize_spec : wpspec.

Lemma zeropad_image_used x sg s w :
  logged P w -> ngmin_used s ->
  wp (zeropad_image x sg s) w (fun s' w' => logged P w' /\ ngmin_used s') (logged P).
Proof. intros Hw Hs. cbv delta [zeropad_image]; cbv beta. used_run (logged P). Qed.
#[local] Hint Resolve zeropad_image_used : wpspec.

Lemma main_weight_spec s w :
  logged P w -> ngmin_used s ->
  wp (main_weight s) w (fun s' w' => logged P w' /\ ngmin_used s') (logged P).
Proof. intros Hw Hs. cbv delta [main_weight]; cbv beta. used_run (logged P). Qed.

Lemma main_scale_weight_spec s w :
  logged P w -> ngmin_used s ->
  wp (main_scale_weight s) w (fun s' w' => logged P w' /\ ngmin_used s') (logged P).
Proof. intros Hw Hs. cbv delta [main_scale_weight]; cbv beta. used_run (logged P). Qed.

Lemma main_blur_base_spec s w :
  logged P w -> ngmin_used s ->
  wp (main_blur_base s) w (fun s' w' => logged P w' /\ ngmin_used s') (logged P).
Proof. intros Hw Hs. cbv delta [main_blur_base]; cbv beta. used_run (logged P). Qed.

Lemma main_back_to_optimize s w :
  logged P w -> ngmin_inv s ->
  wp (do s <- main_setup s ; do s <- main_weight s ; do s <- main_scale_weight s ;
      main_blur_base s) w
     (fun s' w' => logged P w' /\ ngmin_used s') (logged P).
Proof.
  intros Hw Hs.
  eapply wp_bind_inv; [now apply main_setup_spec|]. cbv beta. intros s1 w1 [Hw1 Hs1].
  eapply wp_bind_inv; [now apply main_weight_spec|]. cbv beta. intros s2 w2 [Hw2 Hs2].
  eapply wp_bind_inv; [now apply main_scale_weight_spec|]. cbv beta. intros s3 w3 [Hw3 Hs3].
  now apply main_blur_base_spec.
Qed.

(** *** The optimization and the output *)

Section Results.
Context (PO : forall engine gx gy gz ng,
           NGMIN <= ng -> Z.odd ng = true -> P (Optimize engine gx gy gz ng)).
Context (PW : forall name gx gy gz bx by_ bz, P (Written name gx gy gz bx by_ bz)).

Lemma main_optimize_spec s w :
  logged P w -> ngmin_used s ->
  wp (main_optimize s) w (fun _ w' => logged P w') (logged P).
Proof.
  intros Hw Hs. cbv delta [main_optimize optimizing]; cbv beta.
  repeat wp_step (logged P) ngmin_used used_let; ngmin_leaf.
  all: try match goal with
           | K : ngmin_used ?v |- _ =>
               apply logged_emit; [apply PO; apply K | assumption]
           end.
Qed.

Lemma unzeropad_result_spec talk s o w :
  logged P w -> wp (unzeropad_result talk s o) w (fun _ w' => logged P w') (logged P).
Proof.
  intros Hw. cbv delta [unzeropad_result]; cbv beta.
  repeat wp_step (logged P) (fun _ : state => True) ltac:(fun H => clear H); ngmin_leaf.
Qed.
#[local] Hint Resolve unzeropad_result_spec : wpspec.

Lemma main_unzeropad_spec s w :
  logged P w -> wp (main_unzeropad s) w (fun _ w' => logged P w') (logged P).
Proof.
  intros Hw. cbv delta [main_unzeropad]; cbv beta.
  repeat wp_step (logged P) (fun _ : state => True) ltac:(fun H => clear H); ngmin_leaf.
Qed.

Lemma main_adopt_spec s w :
  logged P w -> wp (main_adopt s) w (fun _ w' => logged P w') (logged P).
Proof.
  intros Hw. cbv delta [main_adopt]; cbv beta.
  repeat wp_step (logged P) (fun _ : state => True) ltac:(fun H => clear H); ngmin_leaf.
Qed.

Lemma main_allin_adjust_spec s w :
  logged P w -> wp (main_allin_adjust s) w (fun _ w' => logged P w') (logged P).
Proof.
  intros Hw. cbv delta [main_allin_adjust]; cbv beta.
  repeat wp_step (logged P) (fun _ : state => True) ltac:(fun H => clear H); ngmin_leaf.
Qed.

Lemma DSET_write_spec name gx gy gz bx by_ bz w :
  logged P w ->
  wp (DSET_write name gx gy gz bx by_ bz) w (fun _ w' => logged P w') (logged P).
Proof.
  intros Hw. cbv delta [DSET_write]; cbv beta.
  repeat wp_step (logged P) (fun _ : state => True) ltac:(fun H => clear H); ngmin_leaf.
Qed.
#[local] Hint Resolve DSET_write_spec : wpspec.

Lemma main_output_spec s w :
  logged P w -> wp (main_output s) w (fun _ w' => logged P w') (logged P).
Proof.
  intros Hw. cbv delta [main_output write_image write_warp]; cbv beta.
  repeat wp_step (logged P) (fun _ : state => True) ltac:(fun H => clear H); ngmin_leaf.
Qed.

Lemma main_back_spec s w :
  logged P w -> ngmin_inv s ->
  wp (main_back s) w (fun _ w' => logged P w') (logged P).
Proof.
  intros Hw Hs. unfold main_back.
  eapply wp_bind_inv; [now apply main_setup_spec|]. cbv beta. intros s1 w1 [Hw1 Hs1].
  eapply wp_bind_inv; [now apply main_weight_spec|]. cbv beta. intros s2 w2 [Hw2 Hs2].
  eapply wp_bind_inv; [now apply main_scale_weight_spec|]. cbv beta. intros s3 w3 [Hw3 Hs3].
  eapply wp_bind_inv; [now apply main_blur_base_spec|]. cbv beta. intros s4 w4 [Hw4 Hs4].
  eapply wp_bind_inv; [now apply main_optimize_spec|]. cbv beta. intros s5 w5 Hw5.
  eapply wp_bind_inv; [now apply main_unzeropad_spec|]. cbv beta. intros s6 w6 Hw6.
  eapply wp_bind_inv; [now apply main_adopt_spec|]. cbv beta. intros s7 w7 Hw7.
  eapply wp_bind_inv; [now apply main_allin_adjust_spec|]. cbv beta. intros s8 w8 Hw8.
  eapply wp_bind_inv; [now apply main_output_spec|]. cbv beta. intros _ w9 Hw9.
  now apply wp_exit.
Qed.

Lemma main_logged argv w : logged P w -> logged P (main argv w).2.
Proof.
  intros Hw.
  assert (H : wp (do s <- main_front argv ; main_back s) w
                 (fun _ w' => logged P w') (logged P)).
  { eapply wp_bind_inv; [now apply main_front_spec|]. cbv beta.
    intros s1 w1 [Hw1 Hs1]. now apply main_back_spec. }
  unfold main. unfold wp in H.
  destruct ((do s <- main_front argv ; main_back s) w) as [[[]|n] w']; exact H.
Qed.

End Results.
End Stages.


(** ** The order of the options *)

Section Order.
Context `{X : Extern}.

Lemma parse_option_lpc a rest s w :
  strcaseeq a "-lpc" = true ->
  parse_option a rest s w = (Ret (lpc_effect s, rest), w).
Proof.
  intros H. apply strcaseeq_lower in H. vm_compute (strlower "-lpc") in H.
  option_is H. reflexivity.
Qed.

Lemma parse_option_maxlev a v rest s w :
  strcaseeq a "-maxlev" = true -> s.[duplo] = 0 ->
  parse_option a (v :: rest) s w
  = (Ret (seti mlev (maxlev_clamp (strtod_int v)) s, rest), w).
Proof.
  intros H Hd. apply strcaseeq_lower in H. vm_compute (strlower "-maxlev") in H.
  option_is H. unfold truthy. rewrite Hd. reflexivity.
Qed.

Lemma parse_option_mlev a rest s w :
  strcaseeq a "-lpc" = false -> strcaseeq a "-maxlev" = false ->
  wp (parse_option a rest s) w (fun sr _ => sr.1.[mlev] = s.[mlev]) (fun _ => True).
Proof.
  intros H1 H2. cbv delta [parse_option]; cbv beta.
  repeat wp_step (fun _ : world => True) (fun s' : state => s'.[mlev] = s.[mlev])
    ltac:(fun H => inv_let (fun s' : state => s'.[mlev] = s.[mlev]) frame_solve H).
  all: try solve [split_hyps; try split; try discriminate; frame_solve].
Qed.

Lemma parse_loop_step n a rest s w :
  Ascii.eqb (strat a 0) "-" = true ->
  parse_loop (S n) (a :: rest) s w
  = (do sr <- parse_option a rest s ; parse_loop n sr.2 sr.1) w.
Proof. intros H. cbn [parse_loop]. now rewrite H. Qed.

Lemma strcaseeq_dash a r :
  strcaseeq a (String "-" r) = true -> Ascii.eqb (strat a 0) "-" = true.
Proof.
  intros H. apply strcaseeq_lower in H. cbn [strlower] in H.
  change (tolower "-") with "-"%char in H. eapply strlower_dash, H.
Qed.

End Order.

Lemma logged_true w : logged (fun _ => True) w.
Proof. apply Forall_forall. auto. Qed.

Lemma parse_option_minpatch `{X : Extern} a v rest s w :
  strcaseeq a "-minpatch" = true \/ strcaseeq a "-patchmin" = true ->
  parse_option a (v :: rest) s w
  = (Ret (seti minpatch (minpatch_clamp (strtod_int v)) s, rest), w).
Proof.
  intros [H|H]; apply strcaseeq_lower in H.
  - vm_compute (strlower "-minpatch") in H. option_is H. reflexivity.
  - vm_compute (strlower "-patchmin") in H. option_is H. reflexivity.
Qed.

(** C7: when all three dimensions of the (possibly zero-padded) base grid
    are below [NGMIN], the run ends with exit status 1 right after the fatal
    message "dataset grid size ... is too small for warping"; up to then no
    optimization was called and no dataset was written. *)
Theorem grid_too_small `{X : Extern} argv w s w1 :
  quiet w ->
  main_front argv w = (Ret s, w1) ->
  s.[nx] < NGMIN -> s.[ny] < NGMIN -> s.[nz] < NGMIN ->
  main argv w
  = (1, mkWorld (w_fs w1)
          (w_log w1 ++ [Message FATAL "dataset grid size %d x %d x %d is too small for warping"
                          [AInt s.[nx]; AInt s.[ny]; AInt s.[nz]]]))
  /\ quiet (main argv w).2.
Proof.
  intros Hw Hf Hx Hy Hz.
  assert (Hq : quiet w1).
  { pose proof (main_front_spec quiet_event (fun _ _ _ => I) (fun _ _ => I) argv w Hw) as H.
    apply (wp_ret_elim _ _ _ _ _ _ H Hf). }
  assert (E : main argv w
    = (1, mkWorld (w_fs w1)
          (w_log w1 ++ [Message FATAL "dataset grid size %d x %d x %d is too small for warping"
                          [AInt s.[nx]; AInt s.[ny]; AInt s.[nz]]]))).
  { unfold main, bind at 1. rewrite Hf.
    unfold main_back, bind at 1. unfold main_setup, Let. store.
    apply Z.leb_gt in Hx, Hy, Hz.
    rewrite Hx. cbv iota. store. rewrite Hy. cbn [andb]. cbv iota. store.
    rewrite Hz. cbn [andb]. cbv iota. store. reflexivity. }
  split; [exact E|]. rewrite E. cbn [snd].
  apply logged_emit; [exact I | exact Hq].
Qed.

Lemma grid_too_small_witness :
  (@main Demo.X0 ["-nopad"; "base"; "src"] Demo.world0).1 = 1
  /\ quiet (@main Demo.X0 ["-nopad"; "base"; "src"] Demo.world0).2.
Proof.
  pose (r := @main_front Demo.X0 ["-nopad"; "base"; "src"] Demo.world0).
  pose (s := match r.1 with Ret s => s | Exit _ => @init_state Demo.X0 end).
  destruct (@grid_too_small Demo.X0 ["-nopad"; "base"; "src"] Demo.world0 s r.2) as [E Q].
  - constructor.
  - vm_compute. reflexivity.
  - vm_compute. reflexivity.
  - vm_compute. reflexivity.
  - vm_compute. reflexivity.
  - split; [rewrite E; reflexivity | exact Q].
Defined.

(** C9: the option [-lpc] sets the maximum level [mlev] to 0 (with the
    method and two flags) and prints nothing; the option [-maxlev] sets it
    to its argument, clamped to 0..99; no other option changes it. The
    options are taken from left to right, so [-maxlev v] after [-lpc] leaves
    [mlev] at the clamped [v], and [-lpc] after [-maxlev v] leaves it at 0
    without any message. *)
Theorem lpc_maxlev_order `{X : Extern} :
  (forall n a rest s w,
     strcaseeq a "-lpc" = true ->
     parse_loop (S n) (a :: rest) s w = parse_loop n rest (lpc_effect s) w
     /\ (lpc_effect s).[mlev] = 0)
  /\ (forall n a v rest s w,
        strcaseeq a "-maxlev" = true -> s.[duplo] = 0 ->
        parse_loop (S n) (a :: v :: rest) s w
        = parse_loop n rest (seti mlev (maxlev_clamp (strtod_int v)) s) w)
  /\ (forall a rest s w s' rest' w',
        strcaseeq a "-lpc" = false -> strcaseeq a "-maxlev" = false ->
        parse_option a rest s w = (Ret (s', rest'), w') -> s'.[mlev] = s.[mlev])
  /\ (forall n a b v rest s w,
        strcaseeq a "-lpc" = true -> strcaseeq b "-maxlev" = true -> s.[duplo] = 0 ->
        exists s', parse_loop (S (S n)) (a :: b :: v :: rest) s w = parse_loop n rest s' w
                   /\ s'.[mlev] = maxlev_clamp (strtod_int v))
  /\ (forall n a b v rest s w,
        strcaseeq a "-lpc" = true -> strcaseeq b "-maxlev" = true -> s.[duplo] = 0 ->
        exists s', parse_loop (S (S n)) (b :: v :: a :: rest) s w = parse_loop n rest s' w
                   /\ s'.[mlev] = 0).
Proof.
  assert (L : forall n a rest s w, strcaseeq a "-lpc" = true ->
            parse_loop (S n) (a :: rest) s w = parse_loop n rest (lpc_effect s) w).
  { intros n a rest s w H. rewrite parse_loop_step by (eapply strcaseeq_dash, H).
    unfold bind. now rewrite parse_option_lpc. }
  assert (V : forall n a v rest s w, strcaseeq a "-maxlev" = true -> s.[duplo] = 0 ->
            parse_loop (S n) (a :: v :: rest) s w
            = parse_loop n rest (seti mlev (maxlev_clamp (strtod_int v)) s) w).
  { intros n a v rest s w H Hd. rewrite parse_loop_step by (eapply strcaseeq_dash, H).
    unfold bind. now rewrite parse_option_maxlev. }
  repeat split.
  - now apply L.
  - exact V.
  - intros a rest s w s' rest' w' H1 H2 E.
    exact (wp_ret_elim _ _ _ _ _ _ (parse_option_mlev a rest s w H1 H2) E).
  - intros n a b v rest s w Ha Hb Hd. eexists. split.
    + rewrite L by assumption. rewrite V by assumption. reflexivity.
    + apply geti_seti_eq.
  - intros n a b v rest s w Ha Hb Hd. eexists. split.
    + rewrite V by assumption. rewrite L by assumption. reflexivity.
    + reflexivity.
Qed.

Lemma lpc_maxlev_order_witness :
  (exists s', @parse_loop Demo.X0 2 ["-lpc"; "-maxlev"; "5"] (@init_state Demo.X0) Demo.world0
              = @parse_loop Demo.X0 0 [] s' Demo.world0
              /\ s'.[mlev] = @maxlev_clamp (@strtod_int Demo.X0 "5"))
  /\ (exists s', @parse_loop Demo.X0 2 ["-maxlev"; "5"; "-lpc"] (@init_state Demo.X0) Demo.world0
                 = @parse_loop Demo.X0 0 [] s' Demo.world0
                 /\ s'.[mlev] = 0).
Proof.
  destruct (@lpc_maxlev_order Demo.X0) as (_ & _ & _ & H1 & H2). split.
  - apply (H1 0%nat "-lpc" "-maxlev" "5" [] (@init_state Demo.X0) Demo.world0); reflexivity.
  - apply (H2 0%nat "-lpc" "-maxlev" "5" [] (@init_state Demo.X0) Demo.world0); reflexivity.
Defined.

(** ** Stores, by computation *)

(* the value of the variable [x] in the store of kind [P] of the state [S],
   found by a walk over the assignments that built [S] *)
Ltac known_names x y :=
  let _ := match goal with _ => is_constructor x; is_constructor y end in idtac.

Ltac look P S x :=
  lazymatch S with
  | seti ?y ?v ?S' =>
      lazymatch P with
      | ints => lazymatch x with
                | y => v
                | _ => let _ := match goal with _ => is_constructor x; is_constructor y end in
                       look P S' x
                end
      | _ => look P S' x
      end
  | setf ?y ?v ?S' =>
      lazymatch P with
      | flts => lazymatch x with
                | y => v
                | _ => let _ := match goal with _ => is_constructor x; is_constructor y end in
                       look P S' x
                end
      | _ => look P S' x
      end
  | sets ?y ?v ?S' =>
      lazymatch P with
      | strs => lazymatch x with
                | y => v
                | _ => let _ := match goal with _ => is_constructor x; is_constructor y end in
                       look P S' x
                end
      | _ => look P S' x
      end
  | setd ?y ?v ?S' =>
      lazymatch P with
      | dsets => lazymatch x with
                 | y => v
                 | _ => let _ := match goal with _ => is_constructor x; is_constructor y end in
                        look P S' x
                 end
      | _ => look P S' x
      end
  | setm ?y ?v ?S' =>
      lazymatch P with
      | imgs => lazymatch x with
                | y => v
                | _ => let _ := match goal with _ => is_constructor x; is_constructor y end in
                       look P S' x
                end
      | _ => look P S' x
      end
  | setw ?y ?v ?S' =>
      lazymatch P with
      | ipws => lazymatch x with
                | y => v
                | _ => let _ := match goal with _ => is_constructor x; is_constructor y end in
                       look P S' x
                end
      | _ => look P S' x
      end
  | set_Hemask _ ?S' => look P S' x
  | set_S2BIM_iwarp _ ?S' => look P S' x
  | set_allin_matrix _ ?S' => look P S' x
  | _ => constr:(P S x)
  end.

(* the same for the three variables that are no stores *)
Ltac look0 P S :=
  lazymatch S with
  | seti _ _ ?S' => look0 P S'
  | setf _ _ ?S' => look0 P S'
  | sets _ _ ?S' => look0 P S'
  | setd _ _ ?S' => look0 P S'
  | setm _ _ ?S' => look0 P S'
  | setw _ _ ?S' => look0 P S'
  | set_Hemask ?v ?S' =>
      lazymatch P with Hemask => v | _ => look0 P S' end
  | set_S2BIM_iwarp ?v ?S' =>
      lazymatch P with S2BIM_iwarp => v | _ => look0 P S' end
  | set_allin_matrix ?v ?S' =>
      lazymatch P with allin_matrix => v | _ => look0 P S' end
  | _ => constr:(P S)
  end.

Ltac built S :=
  lazymatch S with
  | seti _ _ _ => idtac | setf _ _ _ => idtac | sets _ _ _ => idtac
  | setd _ _ _ => idtac | setm _ _ _ => idtac | setw _ _ _ => idtac
  | set_Hemask _ _ => idtac | set_S2BIM_iwarp _ _ => idtac
  | set_allin_matrix _ _ => idtac
  end.

Ltac store_look P :=
  repeat match goal with
         | |- context [P ?S ?x] =>
             built S; let r := look P S x in change (P S x) with r
         end.

Ltac store_look0 P :=
  repeat match goal with
         | |- context [P ?S] =>
             built S; let r := look0 P S in change (P S) with r
         end.

Ltac store ::=
  cbn [fst snd];
  store_look ints; store_look flts; store_look strs; store_look dsets;
  store_look imgs; store_look ipws;
  store_look0 Hemask; store_look0 S2BIM_iwarp; store_look0 allin_matrix;
  cbn [fst snd].

(** ** Computations with known conditions, and their exit status *)

Lemma exits1_ret {A} (a : A) : exits1 (ret a).
Proof. intros w n w' H. discriminate H. Qed.

Lemma exits1_emit e : exits1 (emit e).
Proof. intros w n w' H. discriminate H. Qed.

Lemma exits1_exit {A} : exits1 (@exit A 1).
Proof. intros w n w' H. injection H as <- _. reflexivity. Qed.

Lemma exits1_bind {A B} (m : M A) (k : A -> M B) :
  exits1 m -> (forall a, exits1 (k a)) -> exits1 (bind m k).
Proof.
  intros Hm Hk w n w' H. unfold bind in H.
  destruct (m w) as [[a|n'] w1] eqn:E.
  - exact (Hk a _ _ _ H).
  - injection H as <- _. exact (Hm _ _ _ E).
Qed.

Lemma exits1_Let {A B} (v : A) (k : A -> M B) : (forall y, exits1 (k y)) -> exits1 (Let v k).
Proof. intros H. apply H. Qed.

Lemma exits1_get_fs : exits1 get_fs.
Proof. intros w n w' H. discriminate H. Qed.

Lemma exits1_put_fs fs : exits1 (put_fs fs).
Proof. intros w n w' H. discriminate H. Qed.

Lemma exits1_run_system `{X : Extern} cmd : exits1 (run_system cmd).
Proof. intros w n w' H. discriminate H. Qed.

Lemma wp_run_system `{X : Extern} cmd w (Q : Z -> world -> Prop) E :
  Q (system cmd (w_fs w)).1
    (mkWorld (system cmd (w_fs w)).2 (w_log w ++ [Subprocess cmd (system cmd (w_fs w)).1])) ->
  wp (run_system cmd) w Q E.
Proof. exact id. Qed.

Lemma wp_trivial {A} (m : M A) w (Q : Prop) : Q -> wp m w (fun _ _ => Q) (fun _ => True).
Proof. intros H. unfold wp. destruct (m w) as [[a|n] w']; auto. Qed.

Ltac exits1_run :=
  repeat first
    [ apply exits1_ret | apply exits1_emit | apply exits1_exit
    | apply exits1_run_system | apply exits1_get_fs | apply exits1_put_fs
    | apply exits1_bind; [| intros ?] | apply exits1_Let; intros ?
    | match goal with
      | |- exits1 (if ?c then _ else _) => destruct c
      | |- exits1 (match ?c with _ => _ end) => destruct c
      end
    | progress autounfold with monad ].

(* the steps of a computation whose conditions are known: [onif c] is
   tried on the condition of a conditional before its cases are taken; a
   state that a let binds is substituted, after the cases of its
   conditional, and another value is named *)
Ltac wp_exact onif :=
  repeat lazymatch goal with
         | |- wp (ret _) _ _ _ => apply wp_ret
         | |- wp (emit _) _ _ _ => apply wp_emit; cbn [w_fs w_log]
         | |- wp (exit _) _ _ _ => apply wp_exit
         | |- wp get_fs _ _ _ => apply wp_get_fs; cbn [w_fs w_log]
         | |- wp (put_fs _) _ _ _ => apply wp_put_fs; cbn [w_fs w_log]
         | |- wp (run_system _) _ _ _ => apply wp_run_system; cbn [w_fs w_log]
         | |- wp (bind _ _) _ _ _ => apply wp_bind
         | |- wp (@Let ?A _ ?v _) _ _ _ =>
             lazymatch A with
             | state =>
                 lazymatch v with
                 | if ?c then _ else _ =>
                     first [ progress store | onif c | destruct c eqn:? ]
                 | _ => apply wp_Let; intros ? ->; cbv beta
                 end
             | _ => apply wp_Let; intros ? ?; cbv beta
             end
         | |- wp (if ?c then _ else _) _ _ _ =>
             first [ progress store | onif c | destruct c eqn:? ]
         | |- wp (match ?c with _ => _ end) _ _ _ =>
             first [ progress store | onif c | destruct c eqn:? ]
         | |- wp _ _ _ _ => progress autounfold with monad
         end.

(* a condition that is known from a hypothesis or by computation *)
Ltac known c :=
  first
    [ match goal with
      | H : c = ?b |- _ => rewrite H
      end
    | let b := eval vm_compute in c in
      lazymatch b with
      | true => change c with true
      | false => change c with false
      end ];
  cbv iota.

(* as [wp_exact], for a property of the state alone: what is done between
   two states for the world only is passed over *)
Ltac wp_state onif :=
  repeat lazymatch goal with
         | |- wp (ret _) _ _ _ => apply wp_ret
         | |- wp (exit _) _ _ _ => apply wp_exit
         | |- wp (@bind unit _ _ _) _ _ _ =>
             apply (wp_bind_inv (fun _ _ => True));
             [ apply wp_trivial; exact I | intros [] ? _ ]
         | |- wp (bind _ _) _ _ _ => apply wp_bind
         | |- wp (@Let ?A _ ?v _) _ _ _ =>
             lazymatch A with
             | state =>
                 lazymatch v with
                 | if ?c then _ else _ =>
                     first [ progress store | onif c | destruct c eqn:? ]
                 | _ => apply wp_Let; intros ? ->; cbv beta; store
                 end
             | (state * _)%type =>
                 lazymatch v with
                 | if ?c then _ else _ =>
                     first [ progress store | onif c | destruct c eqn:? ]
                 | _ =>
                     let y := fresh "y" in
                     let Hy := fresh "H" y in
                     apply wp_Let; intros y Hy; cbv beta;
                     unfold Let in Hy; subst y; store
                 end
             | _ => apply wp_Let; intros ? ?; cbv beta
             end
         | |- wp (if ?c then _ else _) _ _ _ =>
             first [ progress store | onif c | destruct c eqn:? ]
         | |- wp (match ?c with _ => _ end) _ _ _ =>
             first [ progress store | onif c | destruct c eqn:? ]
         | |- wp _ _ _ _ => progress autounfold with monad
         end.

(** ** The checks after the options *)

Section Checks.
Context `{X : Extern}.

Lemma bad_step s sp (c c' : bool) msg w :
  agree s sp -> c' = c ->
  wp (if c' then bad msg sp else ret sp) w (fun s' _ => step_inv s sp c s') (fun _ => True).
Proof.
  intros A ->. unfold step_inv, agree in *. destruct c; unfold bad, ERROR_message, bind, emit, ret, wp; store.
  - split; [exact A|]. split; lia.
  - split; [exact A|]. split; [lia|reflexivity].
Qed.

Lemma bad_step2 s sp (c1 c2 c1' c2' : bool) m1 m2 w :
  agree s sp -> c1' = c1 -> c2' = c2 ->
  wp (if c1' then bad m1 sp else if c2' then bad m2 sp else ret sp) w
     (fun s' _ => step_inv s sp (c1 || c2) s') (fun _ => True).
Proof.
  intros A -> ->. unfold step_inv, agree in *. destruct c1, c2; unfold bad, ERROR_message, bind, emit, ret, wp; store;
    (split; [exact A|]); split; try lia; reflexivity.
Qed.

Lemma resam_step s sp w :
  agree s sp ->
  wp (if truthy sp.[do_allin] && truthy sp.[do_resam] then
        INFO_message "%s turns off -resample"
          [AStr (if sp.[do_allin] =? 1 then "-allineate" else "-allinfast")] ;;
        ret (seti do_resam 0 sp)
      else ret sp) w
     (fun s' _ => agree s s' /\ s'.[nbad] = sp.[nbad]) (fun _ => True).
Proof.
  intros A. unfold agree in *.
  destruct (truthy sp.[do_allin] && truthy sp.[do_resam]);
    unfold INFO_message, bind, emit, ret, wp; store; split; auto.
Qed.

(* the check of the condition [c], started in the state [sp] *)
Ltac check_step s sp A c :=
  eapply wp_bind_inv;
  [ apply (bad_step s sp c);
    [ exact A | unfold agree in A; split_hyps; congruence ]
  | cbv beta; intros ? ? (? & ? & ?) ].

Lemma check_errors_returns rest s w :
  wp (check_errors rest s) w (fun _ _ => fatal_error rest s = false) (fun _ => True).
Proof.
  cbv delta [check_errors]; cbv beta.
  apply wp_Let. intros s0 E0. cbv beta.
  assert (A0 : agree s s0) by (rewrite E0; unfold agree; store; repeat split).
  assert (N0 : s0.[nbad] = 0) by (rewrite E0; store; reflexivity).
  clear E0.
  check_step s s0 A0 (s.[flags] =? NWARP_NODISP_FLAG).
  rename a into s1. rename H into A1.
  check_step s s1 A1 (negb (notnull (dsets s bset)) && negb (notnull (dsets s sset))
                      && (length rest <? 2)%nat).
  rename a into s2. rename H into A2.
  eapply wp_bind_inv; [apply (resam_step s s2); exact A2|].
  cbv beta. intros s3 w3 (A3 & N3).
  check_step s s3 A3 (truthy s.[do_allin] && truthy s.[do_plusminus]).
  rename a into s4. rename H into A4.
  check_step s s4 A4 (truthy s.[do_allin] && notnull s.s[iwname]).
  rename a into s5. rename H into A5.
  check_step s s5 A5 (truthy s.[do_allin] && (0 <? s.[ilev])).
  rename a into s6. rename H into A6.
  check_step s s6 A6 (notnull s.s[iwname] && truthy s.[duplo]).
  rename a into s7. rename H into A7.
  check_step s s7 A7 ((negb (s.[ilev] =? 0) || (s.[mlev] <? 99)) && truthy s.[duplo]).
  rename a into s8. rename H into A8.
  eapply wp_bind_inv.
  { apply (bad_step2 s s8 (notnull (dsets s bset) && negb (notnull (dsets s sset)))
                          (negb (notnull (dsets s bset)) && notnull (dsets s sset)));
      [exact A8| |]; unfold agree in A8; split_hyps; congruence. }
  cbv beta. intros s9 w9 (A9 & L9 & C9).
  apply wp_bind. destruct (0 <? s9.[nbad]) eqn:E.
  { unfold ERROR_exit. apply wp_bind, wp_emit, wp_exit. exact I. }
  apply wp_ret. apply wp_trivial.
  apply Z.ltb_ge in E.
  unfold fatal_error, fatal_errors. cbn [existsb id].
  repeat match goal with
         | H : _ -> _ = false |- _ => rewrite H by lia; clear H
         end.
  apply orb_false_iff in C9 as [-> ->]; [reflexivity | lia].
Qed.

Lemma check_errors_exits1 rest s : exits1 (check_errors rest s).
Proof. cbv delta [check_errors]; cbv beta. exits1_run. Qed.


Lemma check_errors_resolves rest s w :
  fatal_error rest s = false ->
  wp (check_errors rest s) w
     (fun s' w' => s' = resolve s /\ w_fs w' = w_fs w
                   /\ exists msgs, w_log w' = w_log w ++ msgs /\ Forall mild msgs)
     (fun _ => False).
Proof.
  unfold fatal_error, fatal_errors. cbn [existsb id]. intros H.
  repeat match type of H with
         | _ || _ = false => apply orb_false_iff in H as [? H]
         end.
  cbv delta [check_errors]; cbv beta.
  wp_exact known.
  all: split;
    [ unfold resolve, Let; store;
      repeat (match goal with
              | H : ?c = _ |- context [if ?c then _ else _] => rewrite H
              end; store);
      reflexivity
    | split; [reflexivity|];
      first [ exists []; rewrite app_nil_r; split; [reflexivity | constructor]
            | rewrite <- ?app_assoc; eexists; split; [reflexivity | repeat constructor] ] ].
Qed.

(** X1: the checks after the options either find one of the errors that
    they count, and then leave the program with status 1, or return the
    state in which the conflicts that are no errors are resolved
    ([-resample] off under [-allineate], [-duplo] off under [-plusminus],
    [-znoQ] off under [-Qonly] or [-Qfinal]), after messages that are no
    errors. *)
Theorem check_errors_outcome rest s w :
  (fatal_error rest s = false ->
   exists msgs, check_errors rest s w
                = (Ret (resolve s), mkWorld (w_fs w) (w_log w ++ msgs))
                /\ Forall mild msgs)
  /\ (fatal_error rest s = true ->
      exists w', check_errors rest s w = (Exit 1, w')).
Proof.
  split; intros H.
  - pose proof (check_errors_resolves rest s w H) as R. unfold wp in R.
    destruct (check_errors rest s w) as [[s'|n] [fs lg]]; [|contradiction].
    destruct R as (-> & E1 & msgs & E2 & M). cbn in E1, E2. subst.
    exists msgs. split; [reflexivity | exact M].
  - pose proof (check_errors_returns rest s w) as R. unfold wp in R.
    destruct (check_errors rest s w) as [[s'|n] w'] eqn:E.
    + congruence.
    + exists w'. now rewrite (check_errors_exits1 rest s _ _ _ E).
Qed.


End Checks.

Lemma check_errors_outcome_witness :
  (exists msgs,
     check_errors ["base"; "src"]
       (seti do_resam 1 (seti do_allin 1 (@init_state Demo.X0))) Demo.world0
     = (Ret (resolve (seti do_resam 1 (seti do_allin 1 (@init_state Demo.X0)))),
        mkWorld (w_fs Demo.world0) (w_log Demo.world0 ++ msgs))
     /\ Forall mild msgs)
  /\ (exists w',
        check_errors ["base"; "src"]
          (seti do_plusminus 1 (seti do_allin 1 (@init_state Demo.X0))) Demo.world0
        = (Exit 1, w')).
Proof.
  split.
  - apply check_errors_outcome. vm_compute. reflexivity.
  - apply check_errors_outcome. vm_compute. reflexivity.
Defined.

(** ** The 3dAllineate prolegomenon *)

Lemma strdrop_app a b k : strdrop (String.length a + k) (a +:+ b) = strdrop k b.
Proof. induction a as [|c a IH]; [reflexivity | exact IH]. Qed.

Lemma length_app_string a b :
  String.length (a +:+ b) = (String.length a + String.length b)%nat.
Proof. induction a as [|c a IH]; [reflexivity | cbn; now rewrite <- IH]. Qed.

Lemma nii_not_gz q : STRING_HAS_SUFFIX (q +:+ ".nii") ".gz" = false.
Proof.
  unfold STRING_HAS_SUFFIX. rewrite length_app_string. cbn [String.length].
  replace (String.length q + 4 - 3)%nat with (String.length q + 1)%nat by lia.
  rewrite strdrop_app. cbn. apply andb_false_r.
Qed.

(* the variables whose values are no case distinctions are replaced by
   their values *)
Ltac subst_plain :=
  repeat match goal with
         | H : ?y = ?v |- _ =>
             is_var y;
             lazymatch v with
             | context [if _ then _ else _] => fail
             | context [match _ with _ => _ end] => fail
             | _ => subst y
             end
         end.

Section Subprocess.
Context `{X : Extern}.

Lemma main_allineate_exits1 s : exits1 (main_allineate s).
Proof.
  cbv delta [main_allineate Qallineate Qallin_resample]; cbv beta.
  exits1_run.
Qed.

(* [Qallineate] and [Qallin_resample] run the commands of the vocabulary *)
Lemma Qallineate_runs verb bn sn ek ao :
  Qallineate verb bn sn ek ao
  = (INFO_message "Starting 3dAllineate (affine register) command: %s"
       [AStr (Qallineate_command verb bn sn ek ao)] ;;
     INFO_message "###########################################################" [] ;;
     do ss <- run_system (Qallineate_command verb bn sn ek ao) ;
     (if negb (ss =? 0) then ERROR_exit "3dQwarp: 3dAllineate command failed :-(" []
      else ret tt) ;;
     ret UNIQ_idcode).
Proof. reflexivity. Qed.

Lemma Qallin_resample_runs bn sn :
  Qallin_resample bn sn
  = (INFO_message "Starting 3dAllineate (resample only) command: %s"
       [AStr (Qallin_resample_command bn sn)] ;;
     INFO_message "###########################################################" [] ;;
     do ss <- run_system (Qallin_resample_command bn sn) ;
     (if negb (ss =? 0) then ERROR_exit "3dQwarp: 3dAllineate command failed :-(" []
      else ret tt) ;;
     ret UNIQ_idcode).
Proof. reflexivity. Qed.

(* the command [v] of the goal is the command of the state [s], under the
   conditions of the hypotheses *)
Ltac command_is v s :=
  let E := fresh "E" in
  assert (E : v = allineate_command s)
    by (unfold allineate_command, allineate_opts, Let, str;
        repeat first
          [ progress cbn [negb andb orb]
          | progress store
          | match goal with
            | H : ?c = true |- context [?c] => rewrite H
            | H : ?c = false |- context [?c] => rewrite H
            end ];
        reflexivity);
  rewrite E; clear E.

Ltac allineate_run onif :=
  wp_exact onif;
  rewrite ?Qallineate_runs, ?Qallin_resample_runs;
  wp_exact onif.

Lemma main_allineate_failure s w :
  truthy s.[do_allin] || truthy s.[do_resam] = true ->
  (system (allineate_command s) (w_fs w)).1 <> 0 ->
  wp (main_allineate s) w (fun _ _ => False)
     (fun w' => exists msgs,
        w' = mkWorld (system (allineate_command s) (w_fs w)).2
               (w_log w ++ msgs
                ++ [Subprocess (allineate_command s) (system (allineate_command s) (w_fs w)).1;
                    Message FATAL "3dQwarp: 3dAllineate command failed :-(" []])
        /\ Forall mild msgs).
Proof.
  intros Hd Hs. cbv delta [main_allineate]; cbv beta.
  destruct (truthy s.[do_allin]) eqn:Ha.
  all: allineate_run ltac:(fun c =>
    first [ progress (rewrite ?Ha, ?Hd; cbn [negb andb orb]; cbv iota)
          | known c
          | match c with
            | negb ((system ?v _).1 =? 0) =>
                command_is v s;
                rewrite (proj2 (Z.eqb_neq _ _) Hs); cbn [negb]; cbv iota
            end ]).
  all: rewrite <- ?app_assoc; cbn [app];
    eexists; (split; [ apply f_equal; apply f_equal;
                       first [ exact (eq_refl ([_; _] ++ [_; _]))
                             | exact (eq_refl ([_; _; _] ++ [_; _])) ]
                     | repeat constructor ]).
Qed.

(** X2: when the 3dAllineate command that the prolegomenon builds returns
    a status that is not 0, the run ends with status 1 right after it,
    with the fatal message "3dAllineate command failed"; the files are as
    the command left them, and only informational and warning messages
    precede the command in the log. *)
Theorem allineate_failure_is_fatal s w :
  truthy s.[do_allin] || truthy s.[do_resam] = true ->
  (system (allineate_command s) (w_fs w)).1 <> 0 ->
  exists msgs,
    main_allineate s w
    = (Exit 1, mkWorld (system (allineate_command s) (w_fs w)).2
                 (w_log w ++ msgs
                  ++ [Subprocess (allineate_command s)
                        (system (allineate_command s) (w_fs w)).1;
                      Message FATAL "3dQwarp: 3dAllineate command failed :-(" []]))
    /\ Forall mild msgs.
Proof.
  intros Hd Hs. pose proof (main_allineate_failure s w Hd Hs) as H. unfold wp in H.
  destruct (main_allineate s w) as [[s'|n] w'] eqn:E; [contradiction|].
  destruct H as (msgs & -> & Hm). exists msgs.
  now rewrite (main_allineate_exits1 s _ _ _ E).
Qed.

Lemma main_allineate_missing s w fs1 :
  truthy s.[do_allin] = false -> truthy s.[do_resam] = true ->
  truthy s.[keep_allin] = true ->
  system (allineate_command s) (w_fs w) = (0, fs1) ->
  fs1 !! (UNIQ_idcode +:+ ".nii") = None ->
  fs1 !! ((UNIQ_idcode +:+ ".nii") +:+ ".gz") = None ->
  wp (main_allineate s) w
     (fun s' w' =>
        exists d, fs1 !! (str s prefix_clean +:+ "_Allin.nii") = Some (FDataset d)
                  /\ dsets s' sset = Some d /\ w_fs w' = fs1
                  /\ exists msgs, w_log w' = w_log w ++ msgs
                       /\ In (Message ERROR "Can't find 3dAllineate output '%s' or '%s' :-("
                                [AStr (UNIQ_idcode +:+ ".nii");
                                 AStr ((UNIQ_idcode +:+ ".nii") +:+ ".gz")]) msgs)
     (fun w' =>
        (forall d, fs1 !! (str s prefix_clean +:+ "_Allin.nii") = Some (FDataset d) ->
                   DSET_loadable d = false)
        /\ w_fs w' = fs1).
Proof.
  intros Ha Hr Hk Hs H1 H2. cbv delta [main_allineate]; cbv beta.
  allineate_run ltac:(fun c =>
    first [ progress subst_plain
          | progress (rewrite ?nii_not_gz in * )
          | progress (rewrite ?Ha, ?Hr, ?Hk, ?H1, ?H2;
                      cbn [fst snd negb andb orb]; cbv iota)
          | match c with
            | context [system ?v _] => command_is v s; rewrite Hs; cbn [fst snd]
            end
          | known c ]).
  all: unfold str in *;
    repeat match goal with
           | H : context [sets _ _ _] |- _ => revert H
           | H : context [setd _ _ _] |- _ => revert H
           end;
    store; intros.
  all: lazymatch goal with
       | |- exists d, _ =>
           match goal with
           | H : match ?fs !! ?n with _ => _ end = Some ?t |- _ =>
               destruct (fs !! n) as [[d| |]|] eqn:E; try discriminate H;
               injection H as ->; exists t;
               split; [reflexivity|]; split; [reflexivity|]; split; [reflexivity|];
               rewrite <- ?app_assoc; eexists; split; [reflexivity|];
               cbn [app In]; repeat first [ left; reflexivity | right ]
           end
       | |- _ /\ _ =>
           split; [| reflexivity];
           match goal with
           | H : match ?fs !! ?n with _ => _ end = _ |- _ =>
               intros d E; rewrite E in H;
               first [ discriminate H | injection H as <-; assumption ]
           end
       end.
Qed.

(** X3: when the 3dAllineate command of [-resample] returns status 0 but
    leaves no output dataset (plain or compressed) and the outputs are
    kept, the error message about the missing output does not end the run:
    the file that has the final name [<prefix>_Allin.nii] is opened. If
    that is a loadable dataset, it becomes the source dataset; if there is
    no dataset of that name, the run ends with status 1. *)
Theorem allineate_missing_output s w fs1 :
  truthy s.[do_allin] = false -> truthy s.[do_resam] = true ->
  truthy s.[keep_allin] = true ->
  system (allineate_command s) (w_fs w) = (0, fs1) ->
  fs1 !! (UNIQ_idcode +:+ ".nii") = None ->
  fs1 !! ((UNIQ_idcode +:+ ".nii") +:+ ".gz") = None ->
  (forall d, fs1 !! (str s prefix_clean +:+ "_Allin.nii") = Some (FDataset d) ->
             DSET_loadable d = true ->
             exists s' msgs,
               main_allineate s w = (Ret s', mkWorld fs1 (w_log w ++ msgs))
               /\ dsets s' sset = Some d
               /\ In (Message ERROR "Can't find 3dAllineate output '%s' or '%s' :-("
                        [AStr (UNIQ_idcode +:+ ".nii");
                         AStr ((UNIQ_idcode +:+ ".nii") +:+ ".gz")]) msgs)
  /\ ((forall d, fs1 !! (str s prefix_clean +:+ "_Allin.nii") <> Some (FDataset d)) ->
      exists lg, main_allineate s w = (Exit 1, mkWorld fs1 lg)).
Proof.
  intros Ha Hr Hk Hs H1 H2.
  pose proof (main_allineate_missing s w fs1 Ha Hr Hk Hs H1 H2) as H. unfold wp in H.
  destruct (main_allineate s w) as [[s'|n] [fs' lg]] eqn:E; split.
  - intros d Hd Hl. destruct H as (d' & Hd' & Hs' & Hfs & msgs & Hlg & Hin).
    cbn in Hfs, Hlg. subst. exists s', msgs. rewrite Hd in Hd'. injection Hd' as <-.
    auto.
  - intros Hn. destruct H as (d' & Hd' & _). now apply Hn in Hd'.
  - intros d Hd Hl. destruct H as [H _]. rewrite (H d Hd) in Hl. discriminate.
  - intros _. destruct H as [_ Hfs]. cbn in Hfs. subst. exists lg.
    now rewrite (main_allineate_exits1 s _ _ _ E).
Qed.

Lemma main_allineate_kill s w fs1 :
  truthy s.[do_allin] = true -> truthy s.[keep_allin] = false ->
  system (allineate_command s) (w_fs w) = (0, fs1) ->
  wp (main_allineate s) w
     (fun s' w' =>
        exists qs d,
          (qs = UNIQ_idcode +:+ ".nii" \/ qs = (UNIQ_idcode +:+ ".nii") +:+ ".gz")
          /\ fs1 !! qs = Some (FDataset d)
          /\ dsets s' sset = Some d
          /\ w_fs w' = delete (UNIQ_idcode +:+ ".aff12.1D") (delete qs fs1))
     (fun _ => True).
Proof.
  intros Ha Hk Hs. cbv delta [main_allineate]; cbv beta.
  allineate_run ltac:(fun c =>
    first [ progress subst_plain
          | progress (rewrite ?Ha, ?Hk; cbn [fst snd negb andb orb]; cbv iota)
          | match c with
            | context [system ?v _] => command_is v s; rewrite Hs; cbn [fst snd]
            end
          | known c ]).
  all: try exact I.
  all: store;
    match goal with
    | H : match ?fs !! ?n with _ => _ end = Some ?t |- _ =>
        lazymatch type of t with THD_3dim_dataset => idtac end;
        exists n, t; destruct (fs !! n) as [[d| |]|] eqn:E; try discriminate H;
        injection H as ->;
        split; [first [left; reflexivity | right; reflexivity]|];
        split; [reflexivity|]; split; reflexivity
    end.
Qed.

(** X4: under [-allineate] with [-allinkill], when the 3dAllineate command
    that the prolegomenon builds returns status 0 and the prolegomenon
    returns, the new source dataset is the one that the command left in
    [<id>.nii] (or [<id>.nii.gz]), and the files are as the command left
    them, without that file and without the matrix file [<id>.aff12.1D]. *)
Theorem allineate_kill_cleans s w fs1 s' w' :
  truthy s.[do_allin] = true -> truthy s.[keep_allin] = false ->
  system (allineate_command s) (w_fs w) = (0, fs1) ->
  main_allineate s w = (Ret s', w') ->
  exists qs d,
    (qs = UNIQ_idcode +:+ ".nii" \/ qs = (UNIQ_idcode +:+ ".nii") +:+ ".gz")
    /\ fs1 !! qs = Some (FDataset d)
    /\ dsets s' sset = Some d
    /\ w_fs w' = delete (UNIQ_idcode +:+ ".aff12.1D") (delete qs fs1).
Proof.
  intros Ha Hk Hs E.
  exact (wp_ret_elim _ _ _ _ _ _ (main_allineate_kill s w fs1 Ha Hk Hs) E).
Qed.
End Subprocess.


Lemma allineate_failure_is_fatal_witness :
  let s := seti do_resam 1 (@init_state failing_allineate) in
  let cmd := @allineate_command failing_allineate s in
  exists msgs,
    @main_allineate failing_allineate s Demo.world0
    = (Exit 1, mkWorld (@system failing_allineate cmd (w_fs Demo.world0)).2
                 (w_log Demo.world0 ++ msgs
                  ++ [Subprocess cmd (@system failing_allineate cmd (w_fs Demo.world0)).1;
                      Message FATAL "3dQwarp: 3dAllineate command failed :-(" []]))
    /\ Forall mild msgs.
Proof.
  intros s cmd.
  apply (@allineate_failure_is_fatal failing_allineate).
  - reflexivity.
  - vm_compute. discriminate.
Defined.

Lemma allineate_missing_output_witness :
  let s := sets prefix_clean (Some "Qwarp") (seti do_resam 1 (@init_state Demo.X0)) in
  let fs := <["Qwarp_Allin.nii" := FDataset (Demo.dset1 "old" 9)]> Demo.files in
  exists s' msgs,
    @main_allineate Demo.X0 s (mkWorld fs []) = (Ret s', mkWorld fs ([] ++ msgs))
    /\ dsets s' sset = Some (Demo.dset1 "old" 9)
    /\ In (Message ERROR "Can't find 3dAllineate output '%s' or '%s' :-("
             [AStr (@UNIQ_idcode Demo.X0 +:+ ".nii");
              AStr ((@UNIQ_idcode Demo.X0 +:+ ".nii") +:+ ".gz")]) msgs.
Proof.
  intros s fs.
  apply (@allineate_missing_output Demo.X0 s (mkWorld fs []) fs);
    vm_compute; reflexivity.
Defined.

Lemma allineate_kill_cleans_witness :
  let X1 := working_allineate "XYZ_uniq" (Demo.dset1 "al" 7) in
  let s := sets ssname (Some "src") (sets bsname (Some "base")
             (seti keep_allin 0 (seti do_allin 1 (@init_state X1)))) in
  let fs1 := (@system X1 (@allineate_command X1 s) Demo.files).2 in
  let r := @main_allineate X1 s Demo.world0 in
  exists qs d,
    (qs = @UNIQ_idcode X1 +:+ ".nii" \/ qs = (@UNIQ_idcode X1 +:+ ".nii") +:+ ".gz")
    /\ fs1 !! qs = Some (FDataset d)
    /\ dsets (match r.1 with Ret s' => s' | Exit _ => s end) sset = Some d
    /\ w_fs r.2 = delete (@UNIQ_idcode X1 +:+ ".aff12.1D") (delete qs fs1).
Proof.
  intros X1 s fs1 r.
  apply (@allineate_kill_cleans X1 s Demo.world0 fs1
           (match r.1 with Ret s' => s' | Exit _ => s end) r.2).
  - reflexivity.
  - reflexivity.
  - vm_compute. reflexivity.
  - vm_compute. reflexivity.
Defined.

(** ** The zero-padding of the images *)

Section Padding.
Context `{X : Extern}.

Lemma mri_zeropad_3D_dims xm xp ym yp zm zp im q :
  mri_zeropad_3D xm xp ym yp zm zp im = Some q ->
  im_nx q = im_nx im + xm + xp /\ im_ny q = im_ny im + ym + yp
  /\ im_nz q = im_nz im + zm + zp.
Proof.
  unfold mri_zeropad_3D. destruct (EDIT_volpad _ _ _ _ _ _ _ _ _ _ _); [|discriminate].
  intros H. injection H as <-. auto.
Qed.






End Padding.


(** ** The un-zero-padding of the results *)

Section Unpadding.
Context `{X : Extern}.

Lemma unzeropad_result_grid talk s o w :
  Forall (fun p => 0 <= p) (pads s) -> on_padded_grid s (iw_im o) ->
  wp (unzeropad_result talk s o) w
     (fun o' _ =>
        on_grid (iw_im o') s.[nxold] s.[nyold] s.[nzold]
        /\ iw_warp o'
           = if truthy s.[zeropad_warp] then iw_warp o
             else IW3D_extend (iw_warp o) (- s.[pad_xm]) (- s.[pad_xp]) (- s.[pad_ym])
                              (- s.[pad_yp]) (- s.[pad_zm]) (- s.[pad_zp]))
     (fun _ => True).
Proof.
  intros Hp (Hx & Hy & Hz). cbv delta [unzeropad_result]; cbv beta.
  unfold pads in Hp.
  repeat match goal with
         | H : Forall _ (_ :: _) |- _ => apply Forall_cons in H as [? H]
         end.
  wp_state ltac:(fun c => fail).
  all: try exact I.
  all: cbn [iw_im iw_warp]; unfold on_grid.
  all: repeat match goal with
              | H : mri_zeropad_3D _ _ _ _ _ _ _ = Some _ |- _ =>
                  apply mri_zeropad_3D_dims in H; destruct H as (? & ? & ?)
              | H : _ || _ = false |- _ => apply orb_false_iff in H as [? ?]
              | H : (_ <? _) = false |- _ => apply Z.ltb_ge in H
              | H : negb ?b = _ |- _ => destruct b; try discriminate H; clear H
              end.
  all: split; [lia | reflexivity].
Qed.

Lemma main_unzeropad_grid s w o :
  ipws s oiw = Some o ->
  Forall (fun p => 0 <= p) (pads s) ->
  on_padded_grid s (iw_im o) ->
  (forall q, ipws s qiw = Some q -> on_padded_grid s (iw_im q)) ->
  truthy s.[zeropad] = true ->
  wp (main_unzeropad s) w
     (fun s' _ =>
        (exists o', ipws s' oiw = Some o'
                    /\ on_grid (iw_im o') s.[nxold] s.[nyold] s.[nzold]
                    /\ iw_warp o'
                       = if truthy s.[zeropad_warp] then iw_warp o
                         else IW3D_extend (iw_warp o) (- s.[pad_xm]) (- s.[pad_xp])
                                (- s.[pad_ym]) (- s.[pad_yp]) (- s.[pad_zm]) (- s.[pad_zp]))
        /\ (forall q', ipws s' qiw = Some q' ->
                       on_grid (iw_im q') s.[nxold] s.[nyold] s.[nzold]))
     (fun _ => True).
Proof.
  intros Ho Hp Hgo Hgq Hz. cbv delta [main_unzeropad]; cbv beta.
  rewrite Hz, Ho. cbv iota.
  eapply wp_bind_inv; [now apply unzeropad_result_grid|]. cbv beta.
  intros o' w1 (Hg' & Hw'). apply wp_Let. intros s1 ->. cbv beta. store.
  destruct (ipws s qiw) as [q|] eqn:Hq.
  - eapply wp_bind_inv.
    { apply unzeropad_result_grid; store; [exact Hp | now apply Hgq]. }
    cbv beta. intros q' w2 (Hq' & _). apply wp_ret. store. split.
    + exists o'. auto.
    + intros ? [= <-]. exact Hq'.
  - apply wp_ret. store. split.
    + exists o'. auto.
    + intros q' Hq'. rewrite Hq in Hq'. discriminate Hq'.
Qed.

(** X6: when the images were zero-padded (pad amounts at least 0) and the
    result image is on the padded grid, the un-zero-padding brings it back
    to the grid before the padding, whether the warp keeps the padded
    extent ([zeropad_warp] set) or is cropped too; the same holds for the
    second result of a plus-minus run. *)
Theorem unzeropad_restores_grid s w s' w' o :
  ipws s oiw = Some o ->
  Forall (fun p => 0 <= p) (pads s) ->
  on_padded_grid s (iw_im o) ->
  (forall q, ipws s qiw = Some q -> on_padded_grid s (iw_im q)) ->
  truthy s.[zeropad] = true ->
  main_unzeropad s w = (Ret s', w') ->
  (exists o', ipws s' oiw = Some o'
              /\ on_grid (iw_im o') s.[nxold] s.[nyold] s.[nzold]
              /\ iw_warp o'
                 = if truthy s.[zeropad_warp] then iw_warp o
                   else IW3D_extend (iw_warp o) (- s.[pad_xm]) (- s.[pad_xp])
                          (- s.[pad_ym]) (- s.[pad_yp]) (- s.[pad_zm]) (- s.[pad_zp]))
  /\ (forall q', ipws s' qiw = Some q' ->
                 on_grid (iw_im q') s.[nxold] s.[nyold] s.[nzold]).
Proof.
  intros Ho Hp Hgo Hgq Hz E.
  exact (wp_ret_elim _ _ _ _ _ _ (main_unzeropad_grid s w o Ho Hp Hgo Hgq Hz) E).
Qed.
End Unpadding.

Lemma unzeropad_restores_grid_witness :
  let im := mkIm 3 3 1 (replicate 9 F32.one) in
  let o := mkIW im (mkWarp 3 3 1 [] [] [] None) in
  let s := setw oiw (Some o)
             (seti pad_xm 1 (seti pad_xp 1 (seti pad_ym 1 (seti pad_yp 1
                (seti nxold 1 (seti nyold 1 (seti nzold 1 (@init_state Demo.X0)))))))) in
  let r := @main_unzeropad Demo.X0 s Demo.world0 in
  let s' := match r.1 with Ret s' => s' | Exit _ => s end in
  (exists o', ipws s' oiw = Some o'
              /\ on_grid (iw_im o') s.[nxold] s.[nyold] s.[nzold]
              /\ iw_warp o'
                 = if truthy s.[zeropad_warp] then iw_warp o
                   else @IW3D_extend Demo.X0 (iw_warp o) (- s.[pad_xm]) (- s.[pad_xp])
                          (- s.[pad_ym]) (- s.[pad_yp]) (- s.[pad_zm]) (- s.[pad_zp]))
  /\ (forall q', ipws s' qiw = Some q' ->
                 on_grid (iw_im q') s.[nxold] s.[nyold] s.[nzold]).
Proof.
  intros im o s r s'.
  apply (@unzeropad_restores_grid Demo.X0 s Demo.world0 s' r.2 o).
  - reflexivity.
  - repeat constructor; vm_compute; discriminate.
  - repeat split.
  - intros q Hq. discriminate Hq.
  - reflexivity.
  - vm_compute. reflexivity.
Defined.

(** ** [-duplo] and the levels *)

Section Duplo.
Context `{X : Extern}.

Lemma parse_option_duplo a rest s w :
  strcaseeq a "-duplo" = true -> s.s[iwname] = None ->
  parse_option a rest s w
  = if negb (s.[ilev] =? 0) || (s.[mlev] <? 99)
    then (Exit 1, mkWorld (w_fs w)
                    (w_log w ++ [Message FATAL "Cannot use -duplo with -inilev or -maxlev :-(" []]))
    else (Ret (seti duplo 1 s, rest), w).
Proof.
  intros H Hi. apply strcaseeq_lower in H. vm_compute (strlower "-duplo") in H.
  option_is H. rewrite Hi. cbn [notnull].
  destruct (negb (s.[ilev] =? 0) || (s.[mlev] <? 99)); reflexivity.
Qed.

Lemma check_errors_duplo rest s w :
  truthy s.[duplo] = true -> s.[mlev] < 99 ->
  exists w', check_errors rest s w = (Exit 1, w').
Proof.
  intros Hd Hm.
  assert (F : fatal_error rest s = true).
  { unfold fatal_error, fatal_errors. cbn [existsb id].
    apply Z.ltb_lt in Hm.
    repeat match goal with
           | |- ?a || ?b = true =>
               lazymatch a with
               | context [s.[mlev] <? 99] => apply orb_true_iff; left
               | _ => apply orb_true_iff; right
               end
           end.
    rewrite Hd, Hm, orb_true_r. reflexivity. }
  pose proof (check_errors_returns rest s w) as R. unfold wp in R.
  destruct (check_errors rest s w) as [[s'|n] w'] eqn:E.
  - congruence.
  - exists w'. now rewrite (check_errors_exits1 rest s _ _ _ E).
Qed.

(** X7: [-lpc] and [-duplo] exclude each other whatever their order:
    [-duplo] right after [-lpc] ends the option loop with status 1 (the
    maximum level is 0 then, as if [-maxlev 0] had been given); [-lpc]
    after [-duplo] is taken, and leaves [duplo] set with the maximum level
    0; and in every state with [duplo] set and a maximum level below 99 the
    checks after the options end the run with status 1. *)
Theorem lpc_excludes_duplo :
  (forall n a b rest s w,
     strcaseeq a "-lpc" = true -> strcaseeq b "-duplo" = true -> s.s[iwname] = None ->
     parse_loop (S (S n)) (a :: b :: rest) s w
     = (Exit 1, mkWorld (w_fs w)
                  (w_log w ++ [Message FATAL "Cannot use -duplo with -inilev or -maxlev :-(" []])))
  /\ (forall n a b rest s w,
        strcaseeq a "-lpc" = true -> strcaseeq b "-duplo" = true -> s.s[iwname] = None ->
        s.[ilev] = 0 -> 99 <= s.[mlev] ->
        exists s', parse_loop (S (S n)) (b :: a :: rest) s w = parse_loop n rest s' w
                   /\ truthy s'.[duplo] = true /\ s'.[mlev] = 0)
  /\ (forall rest s w,
        truthy s.[duplo] = true -> s.[mlev] < 99 ->
        exists w', check_errors rest s w = (Exit 1, w')).
Proof.
  split; [|split].
  - intros n a b rest s w Ha Hb Hi.
    rewrite parse_loop_step by (eapply strcaseeq_dash, Ha).
    unfold bind. rewrite parse_option_lpc by assumption. cbn [fst snd].
    rewrite parse_loop_step by (eapply strcaseeq_dash, Hb).
    unfold bind. rewrite parse_option_duplo by assumption.
    unfold lpc_effect. store. change (0 <? 99) with true.
    rewrite orb_true_r. reflexivity.
  - intros n a b rest s w Ha Hb Hi Hl Hm.
    eexists. split.
    + rewrite parse_loop_step by (eapply strcaseeq_dash, Hb).
      unfold bind. rewrite parse_option_duplo by assumption.
      rewrite Hl. apply Z.ltb_ge in Hm. rewrite Hm. cbn [Z.eqb negb orb fst snd].
      rewrite parse_loop_step by (eapply strcaseeq_dash, Ha).
      unfold bind. rewrite parse_option_lpc by assumption. reflexivity.
    + unfold lpc_effect. store. split; reflexivity.
  - intros rest s w. apply check_errors_duplo.
Qed.
End Duplo.

Lemma lpc_excludes_duplo_witness :
  @parse_loop Demo.X0 2 ["-lpc"; "-duplo"] (@init_state Demo.X0) Demo.world0
  = (Exit 1, mkWorld (w_fs Demo.world0)
               (w_log Demo.world0
                ++ [Message FATAL "Cannot use -duplo with -inilev or -maxlev :-(" []]))
  /\ (exists s', @parse_loop Demo.X0 2 ["-duplo"; "-lpc"] (@init_state Demo.X0) Demo.world0
                 = @parse_loop Demo.X0 0 [] s' Demo.world0
                 /\ truthy s'.[duplo] = true /\ s'.[mlev] = 0)
  /\ (exists w', check_errors [] (seti mlev 0 (seti duplo 1 (@init_state Demo.X0))) Demo.world0
                 = (Exit 1, w')).
Proof.
  destruct (@lpc_excludes_duplo Demo.X0) as (H1 & H2 & H3). split; [|split].
  - apply (H1 0%nat "-lpc" "-duplo" [] (@init_state Demo.X0) Demo.world0); reflexivity.
  - apply (H2 0%nat "-lpc" "-duplo" [] (@init_state Demo.X0) Demo.world0);
      try reflexivity. vm_compute. discriminate.
  - apply H3; reflexivity.
Defined.

(** ** Binary weights *)

Section Binary.
Context `{X : Extern}.

Lemma binary_map_mask (m : list bool) :
  Forall binary_weight (map (fun b : bool => if b then F32.one else F32.zero) m).
Proof.
  apply Forall_fmap, Forall_forall. intros [] _; [left | right]; reflexivity.
Qed.

Lemma binary_map_binarize (l : list F32.float) :
  Forall binary_weight
    (map (fun w => if negb (F32.eqb w F32.zero) then F32.one else w) l).
Proof.
  apply Forall_fmap, Forall_forall. intros v _. unfold compose, binary_weight.
  destruct (F32.eqb v F32.zero) eqn:E; cbn [negb]; auto.
Qed.

Lemma binary_imap_box (c : nat -> bool) (l : list F32.float) :
  Forall binary_weight l ->
  Forall binary_weight (imap (fun q w => if c q then F32.one else w) l).
Proof.
  intros H. apply Forall_lookup. intros i v Hi.
  rewrite list_lookup_imap in Hi.
  destruct (l !! i) as [u|] eqn:E; [|discriminate]. cbn in Hi. injection Hi as <-.
  destruct (c i); [left; reflexivity|]. eapply Forall_lookup in H; eauto.
Qed.

Lemma mri_weightize_binary verb im acod ndil aclip apow w :
  (acod =? 2) || (acod =? 3) = true ->
  wp (mri_weightize verb im acod ndil aclip apow) w
     (fun wt _ => Forall binary_weight (far wt)) (fun _ => True).
Proof.
  intros Ha. cbv delta [mri_weightize]; cbv beta.
  wp_state ltac:(fun c => match goal with H : c = _ |- _ => rewrite H end).
  all: try exact I.
  all: try (exfalso; rewrite Ha in *; discriminate).
  all: cbn [far];
    repeat first [ apply binary_imap_box | apply binary_map_mask
                 | apply binary_map_binarize
                 | match goal with
                   | H : ?y = _ |- Forall _ ?y => rewrite H
                   end ].
Qed.

(** X8: with the weight code 2 (option [-noweight]) or 3, every voxel of
    the weight volume that [mri_weightize] returns is 1 or zero. *)
Theorem weightize_binary verb im acod ndil aclip apow w wt w' :
  acod = 2 \/ acod = 3 ->
  mri_weightize verb im acod ndil aclip apow w = (Ret wt, w') ->
  Forall binary_weight (far wt).
Proof.
  intros Ha E.
  refine (wp_ret_elim _ _ _ _ _ _ (mri_weightize_binary verb im acod ndil aclip apow w _) E).
  destruct Ha as [-> | ->]; reflexivity.
Qed.
End Binary.

Lemma weightize_binary_witness :
  let im := mkIm 2 1 1 [F32.of_Z 5; F32.of_Z 3] in
  let r := @mri_weightize Demo.X0 0 im 2 0 F32.zero F32.one Demo.world0 in
  Forall binary_weight (far (match r.1 with Ret wt => wt | Exit _ => im end)).
Proof.
  intros im r.
  apply (@weightize_binary Demo.X0 0 im 2 0 F32.zero F32.one Demo.world0 _ r.2).
  - left. reflexivity.
  - vm_compute. reflexivity.
Defined.

(** ** Nothing is written before the optimization *)

Lemma started_emit w fs e : started w -> started (mkWorld fs (w_log w ++ [e])).
Proof.
  intros (l1 & o & l2 & E & Hq & Ho). exists l1, o, (l2 ++ [e]). cbn [w_log].
  rewrite E, <- app_assoc. auto.
Qed.

Lemma started_put_fs w fs : started w -> started (mkWorld fs (w_log w)).
Proof. exact id. Qed.

Lemma started_optimize w fs eng gx gy gz ng :
  quiet w -> started (mkWorld fs (w_log w ++ [Optimize eng gx gy gz ng])).
Proof.
  intros H. exists (w_log w), (Optimize eng gx gy gz ng), [].
  split; [reflexivity|]. split; [exact H | exact I].
Qed.

Ltac started_solve :=
  repeat first [ assumption | apply started_put_fs | apply started_emit ].

Ltac started_leaf :=
  split_hyps;
  lazymatch goal with
  | |- started _ /\ _ => split; [started_solve | exact I]
  | |- started _ => started_solve
  | |- _ => idtac
  end.

Ltac started_run :=
  repeat wp_step started (fun _ : state => True) ltac:(fun H => clear H); started_leaf.

Section Started.
Context `{X : Extern}.

Lemma main_optimize_starts s w :
  quiet w ->
  wp (main_optimize s) w (fun _ w' => started w') (fun w' => quiet w' \/ started w').
Proof.
  intros Hw. cbv delta [main_optimize optimizing]; cbv beta.
  destruct (imgs s bim) as [bi|]; [|now left].
  destruct (imgs s wbim) as [wi|]; [|now left].
  destruct (imgs s sim) as [si|]; [|now left].
  destruct (dsets s bset) as [b|]; [|now left].
  destruct (dsets s sset) as [sd|]; [|now left].
  apply (wp_bind_inv (fun _ w' => quiet w')).
  { unfold when. destruct (truthy s.[Hverb]); [|exact Hw].
    apply logged_emit; [exact I | exact Hw]. }
  intros _ w1 Hw1. cbv beta.
  apply (wp_bind_inv (fun _ w' => started w')).
  { destruct (truthy s.[do_plusminus]).
    - apply wp_bind, wp_emit. apply wp_Let. intros y _. apply wp_ret.
      now apply started_optimize.
    - apply wp_Let. intros s1 _. cbv beta. destruct (truthy s1.[duplo]);
        apply wp_bind, wp_emit, wp_ret; now apply started_optimize. }
  intros s2 w2 Hw2. cbv beta.
  eapply wp_mono; [| intros a w' H; exact H | intros w' H; right; exact H].
  repeat wp_step started (fun _ : state => True) ltac:(fun H => clear H); started_leaf.
Qed.

Lemma main_unzeropad_started s w :
  started w -> wp (main_unzeropad s) w (fun _ w' => started w') started.
Proof.
  intros Hw. cbv delta [main_unzeropad unzeropad_result]; cbv beta. started_run.
Qed.

Lemma main_adopt_started s w :
  started w -> wp (main_adopt s) w (fun _ w' => started w') started.
Proof. intros Hw. cbv delta [main_adopt]; cbv beta. started_run. Qed.

Lemma main_allin_adjust_started s w :
  started w -> wp (main_allin_adjust s) w (fun _ w' => started w') started.
Proof. intros Hw. cbv delta [main_allin_adjust]; cbv beta. started_run. Qed.

Lemma main_output_started s w :
  started w -> wp (main_output s) w (fun _ w' => started w') started.
Proof.
  intros Hw. cbv delta [main_output write_image write_warp DSET_write]; cbv beta.
  started_run.
Qed.

Lemma main_back_started s w :
  quiet w -> ngmin_inv s ->
  wp (main_back s) w (fun _ w' => started w') (fun w' => quiet w' \/ started w').
Proof.
  intros Hw Hs. unfold main_back.
  pose proof (fun s w => main_setup_spec quiet_event (fun _ _ _ => I) s w) as S1.
  pose proof (fun s w => main_weight_spec quiet_event (fun _ _ _ => I) s w) as S2.
  pose proof (fun s w => main_scale_weight_spec quiet_event (fun _ _ _ => I) s w) as S3.
  pose proof (fun s w => main_blur_base_spec quiet_event (fun _ _ _ => I) s w) as S4.
  assert (L : forall w', logged quiet_event w' -> quiet w' \/ started w') by (intros; now left).
  eapply wp_bind_inv; [eapply wp_mono; [now apply S1 | intros ? ? H; exact H | exact L]|].
  cbv beta. intros s1 w1 [Hw1 Hs1].
  eapply wp_bind_inv; [eapply wp_mono; [now apply S2 | intros ? ? H; exact H | exact L]|].
  cbv beta. intros s2 w2 [Hw2 Hs2].
  eapply wp_bind_inv; [eapply wp_mono; [now apply S3 | intros ? ? H; exact H | exact L]|].
  cbv beta. intros s3 w3 [Hw3 Hs3].
  eapply wp_bind_inv; [eapply wp_mono; [now apply S4 | intros ? ? H; exact H | exact L]|].
  cbv beta. intros s4 w4 [Hw4 Hs4].
  eapply wp_bind_inv; [now apply main_optimize_starts|]. cbv beta. intros s5 w5 Hw5.
  assert (R : forall w', started w' -> quiet w' \/ started w') by (intros; now right).
  eapply wp_bind_inv;
    [eapply wp_mono; [now apply main_unzeropad_started | intros ? ? H; exact H | exact R]|].
  cbv beta. intros s6 w6 Hw6.
  eapply wp_bind_inv;
    [eapply wp_mono; [now apply main_adopt_started | intros ? ? H; exact H | exact R]|].
  cbv beta. intros s7 w7 Hw7.
  eapply wp_bind_inv;
    [eapply wp_mono; [now apply main_allin_adjust_started | intros ? ? H; exact H | exact R]|].
  cbv beta. intros s8 w8 Hw8.
  eapply wp_bind_inv;
    [eapply wp_mono; [now apply main_output_started | intros ? ? H; exact H | exact R]|].
  cbv beta. intros _ w9 Hw9. apply wp_exit. now right.
Qed.

(** X9: in every run of [main] that starts with a log without
    optimizations and written datasets, either the log stays so to the
    end, or the first event of the log that is no message and no subprocess
    is a call of the optimization: no dataset is written before the
    optimization was called, and a run that ends before it writes none. *)
Theorem no_output_before_optimization argv w :
  quiet w -> quiet (main argv w).2 \/ started (main argv w).2.
Proof.
  intros Hw.
  assert (H : wp (do s <- main_front argv ; main_back s) w
                 (fun _ w' => quiet w' \/ started w')
                 (fun w' => quiet w' \/ started w')).
  { eapply wp_bind_inv.
    - eapply wp_mono;
        [exact (main_front_spec quiet_event (fun _ _ _ => I) (fun _ _ => I) argv w Hw)
        | intros ? ? H; exact H | intros; now left].
    - cbv beta. intros s1 w1 [Hw1 Hs1].
      eapply wp_mono; [now apply main_back_started | intros; now right | auto]. }
  unfold main. unfold wp in H.
  destruct ((do s <- main_front argv ; main_back s) w) as [[[]|n] w']; exact H.
Qed.
End Started.

Lemma no_output_before_optimization_witness :
  quiet (@main Demo.X0 ["base"; "src"] Demo.world0).2
  \/ started (@main Demo.X0 ["base"; "src"] Demo.world0).2.
Proof. apply (@no_output_before_optimization Demo.X0). constructor. Defined.

(** ** The minimum patch size in force *)

Lemma wp_conj {A} (m : M A) w (Q1 Q2 : A -> world -> Prop) (E1 E2 : world -> Prop) :
  wp m w Q1 E1 -> wp m w Q2 E2 ->
  wp m w (fun a w' => Q1 a w' /\ Q2 a w') (fun w' => E1 w' /\ E2 w').
Proof. unfold wp. destruct (m w) as [[a|n] w']; auto. Qed.

Lemma wp_any {A} (m : M A) w : wp m w (fun _ _ => True) (fun _ => True).
Proof. apply wp_trivial. exact I. Qed.

(* the values of [minpatch] and [Hngmin] are kept by a stage of [main] *)
Ltac floor_solve m h :=
  unfold floor_inv in *; cbv beta in *; split_hyps;
  repeat first
    [ progress store
    | progress unfold Let
    | match goal with
      | |- context [if ?c then _ else _] => destruct c
      | |- context [match ?c with _ => _ end] => destruct c
      | L : ?v = _ |- context [?v] => is_var v; rewrite L
      end ];
  auto.

Ltac floor_let m h H := inv_let (floor_inv m h) ltac:(floor_solve m h) H.

Ltac floor_run m h :=
  repeat first
    [ apply wp_any
    | wp_step (fun _ : world => True) (floor_inv m h) ltac:(floor_let m h) ];
  try solve [split_hyps; try (split; [exact I|]); floor_solve m h].

Section Floor.
Context `{X : Extern}.
Context (m h : Z).

Lemma check_errors_floor rest s w :
  floor_inv m h s ->
  wp (check_errors rest s) w (fun s' _ => True /\ floor_inv m h s') (fun _ => True).
Proof. intros Hs. cbv delta [check_errors]; cbv beta. floor_run m h. Qed.

Lemma read_inputs_floor rest s w :
  floor_inv m h s ->
  wp (read_inputs rest s) w (fun sr _ => True /\ floor_inv m h sr.1) (fun _ => True).
Proof. intros Hs. cbv delta [read_inputs]; cbv beta. floor_run m h. Qed.

Lemma main_allineate_floor s w :
  floor_inv m h s ->
  wp (main_allineate s) w (fun s' _ => True /\ floor_inv m h s') (fun _ => True).
Proof. intros Hs. cbv delta [main_allineate]; cbv beta. floor_run m h. Qed.

Lemma main_iniwarp_floor s w :
  floor_inv m h s ->
  wp (main_iniwarp s) w (fun s' _ => True /\ floor_inv m h s') (fun _ => True).
Proof. intros Hs. cbv delta [main_iniwarp]; cbv beta. floor_run m h. Qed.

Lemma main_load_floor s w :
  floor_inv m h s ->
  wp (main_load s) w (fun s' _ => True /\ floor_inv m h s') (fun _ => True).
Proof. intros Hs. cbv delta [main_load]; cbv beta. floor_run m h. Qed.

Lemma main_negative_floor s w :
  floor_inv m h s ->
  wp (main_negative s) w (fun s' _ => True /\ floor_inv m h s') (fun _ => True).
Proof. intros Hs. cbv delta [main_negative]; cbv beta. floor_run m h. Qed.

Lemma zeropad_image_floor x sg s w :
  floor_inv m h s ->
  wp (zeropad_image x sg s) w (fun s' _ => True /\ floor_inv m h s') (fun _ => True).
Proof. intros Hs. cbv delta [zeropad_image]; cbv beta. floor_run m h. Qed.

Lemma main_zeropad_floor s w :
  floor_inv m h s ->
  wp (main_zeropad s) w (fun s' _ => True /\ floor_inv m h s') (fun _ => True).
Proof.
  intros Hs. cbv delta [main_zeropad]; cbv beta.
  repeat first
    [ apply wp_any
    | apply zeropad_image_floor; assumption
    | wp_step (fun _ : world => True) (floor_inv m h) ltac:(floor_let m h) ];
  try solve [split_hyps; try (split; [exact I|]); floor_solve m h].
Qed.

Lemma main_setup_iniwarp_floor s w :
  floor_inv m h s ->
  wp (main_setup_iniwarp s) w (fun s' _ => True /\ floor_inv m h s') (fun _ => True).
Proof. intros Hs. cbv delta [main_setup_iniwarp]; cbv beta. floor_run m h. Qed.

Lemma main_front_floor argv w s0 rest w0 :
  parse_options argv w = (Ret (s0, rest), w0) ->
  s0.[minpatch] = m -> s0.[Hngmin] = h ->
  wp (main_front argv) w (fun s _ => floor_inv m h s) (fun _ => True).
Proof.
  intros Hp Hm Hh. unfold main_front.
  apply wp_bind. unfold wp at 1. rewrite Hp. cbn [fst snd].
  assert (H0 : floor_inv m h s0) by (split; assumption).
  eapply wp_bind_inv; [now apply check_errors_floor|]. cbv beta. intros s2 w2 [_ H2].
  eapply wp_bind_inv; [now apply read_inputs_floor|]. cbv beta. intros sr3 w3 [_ H3].
  eapply wp_bind_inv; [now apply main_allineate_floor|]. cbv beta. intros s4 w4 [_ H4].
  eapply wp_bind_inv; [apply wp_any|]. cbv beta. intros _ w5 _.
  eapply wp_bind_inv; [now apply main_iniwarp_floor|]. cbv beta. intros s6 w6 [_ H6].
  eapply wp_bind_inv; [now apply main_load_floor|]. cbv beta. intros s7 w7 [_ H7].
  eapply wp_bind_inv; [now apply main_negative_floor|]. cbv beta. intros s8 w8 [_ H8].
  eapply wp_bind_inv; [now apply main_zeropad_floor|]. cbv beta. intros s9 w9 [_ H9].
  eapply wp_mono; [now apply main_setup_iniwarp_floor | | auto].
  cbv beta. intros ? ? [_ H]. exact H.
Qed.

End Floor.

(* the same with the log: every call of the optimization so far had the
   minimum patch size [pf] *)
Ltac in_force_run m pf :=
  repeat wp_step (logged (floor_event pf)) (floor_inv m pf) ltac:(floor_let m pf);
  try solve [ split_hyps;
              first [ split; [logged_solve ltac:(exact I) | floor_solve m pf]
                    | logged_solve ltac:(exact I) ] ].

Section InForce.
Context `{X : Extern}.

(* the setup puts the minimum patch size in force *)
Lemma main_setup_floor s w :
  wp (main_setup s) w (fun s' _ => floor_inv s.[minpatch] (patch_floor s) s') (fun _ => True).
Proof.
  cbv delta [main_setup]; cbv beta. unfold patch_floor, floor_inv.
  wp_state ltac:(fun c => fail).
  all: try exact I.
  all: store; split; reflexivity.
Qed.

Context (m pf : Z).

Lemma zeropad_image_in_force x sg s w :
  logged (floor_event pf) w -> floor_inv m pf s ->
  wp (zeropad_image x sg s) w
     (fun s' w' => logged (floor_event pf) w' /\ floor_inv m pf s') (logged (floor_event pf)).
Proof. intros Hw Hs. cbv delta [zeropad_image]; cbv beta. in_force_run m pf. Qed.

Lemma main_weight_in_force s w :
  logged (floor_event pf) w -> floor_inv m pf s ->
  wp (main_weight s) w
     (fun s' w' => logged (floor_event pf) w' /\ floor_inv m pf s') (logged (floor_event pf)).
Proof.
  intros Hw Hs. cbv delta [main_weight]; cbv beta.
  repeat first
    [ apply zeropad_image_in_force; assumption
    | apply mri_weightize_spec; [intros; exact I | assumption]
    | wp_step (logged (floor_event pf)) (floor_inv m pf) ltac:(floor_let m pf) ];
  try solve [ split_hyps;
              first [ split; [logged_solve ltac:(exact I) | floor_solve m pf]
                    | logged_solve ltac:(exact I) ] ].
Qed.

Lemma main_scale_weight_in_force s w :
  logged (floor_event pf) w -> floor_inv m pf s ->
  wp (main_scale_weight s) w
     (fun s' w' => logged (floor_event pf) w' /\ floor_inv m pf s') (logged (floor_event pf)).
Proof. intros Hw Hs. cbv delta [main_scale_weight]; cbv beta. in_force_run m pf. Qed.

Lemma main_blur_base_in_force s w :
  logged (floor_event pf) w -> floor_inv m pf s ->
  wp (main_blur_base s) w
     (fun s' w' => logged (floor_event pf) w' /\ floor_inv m pf s') (logged (floor_event pf)).
Proof. intros Hw Hs. cbv delta [main_blur_base]; cbv beta. in_force_run m pf. Qed.

Lemma main_optimize_in_force s w :
  logged (floor_event pf) w -> floor_inv m pf s ->
  wp (main_optimize s) w (fun _ w' => logged (floor_event pf) w') (logged (floor_event pf)).
Proof.
  intros Hw Hs. cbv delta [main_optimize optimizing]; cbv beta.
  repeat wp_step (logged (floor_event pf)) (floor_inv m pf) ltac:(floor_let m pf).
  all: split_hyps.
  all: try solve [ first [ split; [logged_solve ltac:(exact I) | floor_solve m pf]
                         | logged_solve ltac:(exact I) ] ].
  all: split; [| floor_solve m pf].
  all: apply logged_emit; [| assumption].
  all: match goal with
       | K : floor_inv m pf ?v |- floor_event pf (Optimize _ _ _ _ ?v.[Hngmin]) =>
           exact (proj2 K)
       end.
Qed.

End InForce.

Section Run.
Context `{X : Extern}.

Lemma main_setup_logged (P : event -> Prop) s w :
  (forall sev fmt args, P (Message sev fmt args)) ->
  logged P w -> wp (main_setup s) w (fun _ w' => logged P w') (logged P).
Proof.
  intros PM Hw. cbv delta [main_setup]; cbv beta.
  repeat wp_step (logged P) (fun _ : state => True) ltac:(fun H => clear H); ngmin_leaf.
Qed.

Lemma main_back_in_force s w :
  logged (floor_event (patch_floor s)) w ->
  wp (main_back s) w (fun _ w' => logged (floor_event (patch_floor s)) w')
     (logged (floor_event (patch_floor s))).
Proof.
  intros Hw. unfold main_back.
  set (pf := patch_floor s) in *. set (m := s.[minpatch]).
  assert (PM : forall sev fmt args, floor_event pf (Message sev fmt args))
    by (intros; exact I).
  assert (PW : forall name gx gy gz bx by_ bz,
             floor_event pf (Written name gx gy gz bx by_ bz))
    by (intros; exact I).
  eapply wp_bind_inv.
  { eapply wp_mono;
      [ exact (wp_conj _ _ _ _ _ _ (main_setup_logged _ s w PM Hw) (main_setup_floor s w))
      | intros ? ? H; exact H | intros ? [H _]; exact H ]. }
  cbv beta. intros s1 w1 [Hw1 Hs1]. fold pf m in Hs1.
  eapply wp_bind_inv; [now apply (main_weight_in_force m pf)|].
  cbv beta. intros s2 w2 [Hw2 Hs2].
  eapply wp_bind_inv; [now apply (main_scale_weight_in_force m pf)|].
  cbv beta. intros s3 w3 [Hw3 Hs3].
  eapply wp_bind_inv; [now apply (main_blur_base_in_force m pf)|].
  cbv beta. intros s4 w4 [Hw4 Hs4].
  eapply wp_bind_inv; [now apply (main_optimize_in_force m pf)|].
  cbv beta. intros s5 w5 Hw5.
  eapply wp_bind_inv; [now apply main_unzeropad_spec|]. cbv beta. intros s6 w6 Hw6.
  eapply wp_bind_inv; [now apply main_adopt_spec|]. cbv beta. intros s7 w7 Hw7.
  eapply wp_bind_inv; [now apply main_allin_adjust_spec|]. cbv beta. intros s8 w8 Hw8.
  eapply wp_bind_inv; [now apply main_output_spec|]. cbv beta. intros _ w9 Hw9.
  now apply wp_exit.
Qed.

(* the options leave [Hngmin] at its initial value *)
Lemma parse_options_floor argv w s0 rest w0 :
  parse_options argv w = (Ret (s0, rest), w0) ->
  s0.[Hngmin] = Hngmin_default /\ minpatch_ok s0.
Proof.
  intros Hp.
  pose proof (parse_options_spec (fun _ => True) (fun _ _ _ => I) argv w (logged_true w)) as H.
  destruct (wp_ret_elim _ _ _ _ _ _ H Hp) as [_ [H1 H2]]. split; assumption.
Qed.

Lemma main_in_force argv w s0 rest w0 :
  parse_options argv w = (Ret (s0, rest), w0) ->
  logged (floor_event (patch_floor s0)) w ->
  logged (floor_event (patch_floor s0)) (main argv w).2.
Proof.
  intros Hp Hw. set (pf := patch_floor s0) in *.
  assert (H : wp (do s <- main_front argv ; main_back s) w
                 (fun _ w' => logged (floor_event pf) w') (logged (floor_event pf))).
  { eapply wp_bind_inv.
    - eapply wp_mono;
        [ exact (wp_conj _ _ _ _ _ _
                   (main_front_spec (floor_event pf) (fun _ _ _ => I) (fun _ _ => I) argv w Hw)
                   (main_front_floor _ _ argv w s0 rest w0 Hp eq_refl eq_refl))
        | intros ? ? H; exact H | intros ? [H _]; exact H ].
    - cbv beta. intros s1 w1 [[Hw1 _] [Hm Hh]].
      assert (E : patch_floor s1 = pf) by (unfold pf, patch_floor; now rewrite Hm, Hh).
      rewrite <- E in *. now apply main_back_in_force. }
  unfold main. unfold wp in H.
  destruct ((do s <- main_front argv ; main_back s) w) as [[[]|n] w']; exact H.
Qed.

Lemma level_sizes_floor ng : forall levels size,
  Forall (fun p => ng <= p) (level_sizes ng levels size).
Proof.
  induction levels as [|n IH]; intros size; cbn [level_sizes]; [constructor|].
  unfold Let. destruct (3 * size / 4 <? ng) eqn:E; [constructor|].
  apply Z.ltb_ge in E. constructor; [exact E | apply IH].
Qed.

Lemma parse_option_other a rest s w :
  strcaseeq a "-patchmin" = false -> strcaseeq a "-minpatch" = false ->
  wp (parse_option a rest s) w
     (fun sr _ => True /\ floor_inv s.[minpatch] s.[Hngmin] sr.1) (fun _ => True).
Proof.
  intros H1 H2. cbv delta [parse_option]; cbv beta.
  assert (H0 : floor_inv s.[minpatch] s.[Hngmin] s) by (split; reflexivity).
  generalize dependent (s.[minpatch]). generalize dependent (s.[Hngmin]).
  intros h m H0.
  repeat first
    [ apply wp_any
    | wp_step (fun _ : world => True) (floor_inv m h) ltac:(floor_let m h) ].
  all: try solve [split_hyps; try (split; [exact I|]); try discriminate; floor_solve m h].
  match goal with
  | H : _ || _ = true |- _ => rewrite H1, H2 in H; discriminate H
  end.
Qed.

End Run.

(** C4: the option [-minpatch] (or [-patchmin]) stores its argument raised
    to [NGMIN] = 9 when it is below, and decremented by one when it is
    even, so the stored value is odd and at least 9; no other option
    changes the stored value or [Hngmin]; the setup of [main] copies a
    stored value above zero to [Hngmin], the minimum patch size in force;
    in every run each call of the optimization is made with the value the
    options stored (with the initial 25 when [-minpatch] was not given),
    which is odd and at least 9; and the levels that the scheduler derives
    from it have no patch size below it. *)
Theorem minimum_patch_size `{X : Extern} :
  (forall a v rest s w,
     strcaseeq a "-minpatch" = true \/ strcaseeq a "-patchmin" = true ->
     let m := minpatch_clamp (strtod_int v) in
     parse_option a (v :: rest) s w = (Ret (seti minpatch m s, rest), w)
     /\ NGMIN <= m /\ Z.odd m = true
     /\ (strtod_int v < NGMIN -> m = NGMIN)
     /\ (NGMIN <= strtod_int v -> Z.even (strtod_int v) = true -> m = strtod_int v - 1)
     /\ (NGMIN <= strtod_int v -> Z.odd (strtod_int v) = true -> m = strtod_int v))
  /\ (forall a rest s w s' rest' w',
        strcaseeq a "-patchmin" = false -> strcaseeq a "-minpatch" = false ->
        parse_option a rest s w = (Ret (s', rest'), w') ->
        s'.[minpatch] = s.[minpatch] /\ s'.[Hngmin] = s.[Hngmin])
  /\ (forall s w s' w',
        main_setup s w = (Ret s', w') ->
        s'.[Hngmin] = (if 0 <? s.[minpatch] then s.[minpatch] else s.[Hngmin]))
  /\ (forall argv w s0 rest w0,
        parse_options argv w = (Ret (s0, rest), w0) ->
        s0.[Hngmin] = Hngmin_default
        /\ (s0.[minpatch] = 0 \/ (NGMIN <= s0.[minpatch] /\ Z.odd s0.[minpatch] = true))
        /\ (logged (floor_event (patch_floor s0)) w ->
            logged (floor_event (patch_floor s0)) (main argv w).2))
  /\ (forall argv w, logged patch_event w -> logged patch_event (main argv w).2)
  /\ (forall argv w, logged scheduled_event w -> logged scheduled_event (main argv w).2).
Proof.
  split; [|split; [|split; [|split; [|split]]]].
  - intros a v rest s w H m. split; [now apply parse_option_minpatch|].
    apply minpatch_clamp_ok.
  - intros a rest s w s' rest' w' H1 H2 E.
    destruct (wp_ret_elim _ _ _ _ _ _ (parse_option_other a rest s w H1 H2) E) as [_ H].
    exact H.
  - intros s w s' w' E.
    exact (proj2 (wp_ret_elim _ _ _ _ _ _ (main_setup_floor s w) E)).
  - intros argv w s0 rest w0 Hp.
    destruct (parse_options_floor argv w s0 rest w0 Hp) as [Hh Hm].
    split; [exact Hh|]. split; [exact Hm|]. now apply main_in_force with rest w0.
  - intros argv w Hw. apply main_logged; try assumption; try exact (fun _ _ _ => I);
      try exact (fun _ _ => I).
    + intros ? ? ? ? ? H1 H2. split; assumption.
    + intros ? ? ? ? ? ? ?. exact I.
  - intros argv w Hw. apply main_logged; try assumption; try exact (fun _ _ _ => I);
      try exact (fun _ _ => I).
    + intros engine gx gy gz ng H1 H2 levels size.
      eapply Forall_impl; [apply level_sizes_floor|].
      cbv beta. intros p Hp. split; [etransitivity; eassumption | exact Hp].
    + intros ? ? ? ? ? ? ?. exact I.
Qed.

Lemma minimum_patch_size_witness :
  let argv := ["-minpatch"; "12"; "base"; "src"] in
  (@parse_option Demo.X0 "-minpatch" ["12"; "base"; "src"] (@init_state Demo.X0) Demo.world0
   = (Ret (seti minpatch 11 (@init_state Demo.X0), ["base"; "src"]), Demo.world0))
  /\ logged (floor_event 11) (@main Demo.X0 argv Demo.world0).2
  /\ logged patch_event (@main Demo.X0 argv Demo.world0).2
  /\ logged scheduled_event (@main Demo.X0 argv Demo.world0).2.
Proof.
  intros argv.
  destruct (@minimum_patch_size Demo.X0) as (H1 & _ & _ & H4 & H5 & H6).
  split; [|split; [|split]].
  - apply (H1 "-minpatch" "12" ["base"; "src"] (@init_state Demo.X0) Demo.world0).
    left. reflexivity.
  - pose (r := @parse_options Demo.X0 argv Demo.world0).
    pose (s0 := match r.1 with Ret sr => sr.1 | Exit _ => @init_state Demo.X0 end).
    assert (E : patch_floor s0 = 11) by (vm_compute; reflexivity).
    rewrite <- E.
    apply (H4 argv Demo.world0 s0 ["base"; "src"] r.2).
    + vm_compute. reflexivity.
    + constructor.
  - apply H5. constructor.
  - apply H6. constructor.
Defined.
